(** * GitQlient: the diff-record parser, the name interner and the
      working-directory synthesizer of [src/app/git.cpp]

    A shallow embedding of [Git::appendFileName], [Git::flushFileNames],
    [Git::parseDiffFormat], [Git::parseDiffFormatLine], [Git::setExtStatus],
    [Git::findFileIndex], [Git::filePath], [Git::fakeWorkDirRevFile],
    [Git::updateWipRevision] and [Git::processRevision].

    Conventions.
    - [QString] is [string]; positions that the code keeps in an [int] and
      compares with the sentinel [-1] are [Z]; sizes and table indices are
      [nat].  A [QString] holds fewer than [2^30] characters, so none of the
      [int] computations of these functions ([endPos + 99], [parNum++],
      [2 * dirs.size() * sizeof(int)]) can leave the range of [int].
    - Member state of [Git] and the [RevisionFile] objects the functions
      receive by reference live in one record, [World]; a [RevisionFile &] is
      the address ([addr]) of an object of [revFiles].  The loader
      [FileNamesLoader &fl] is threaded explicitly.
    - An index handed to [QString::at], [QString::operator[]] or
      [QVector::at] outside [0 <= i < size()] breaks the precondition these
      Qt accessors document (and assert); the embedding stops there with a
      [Fault] naming the source expression. *)

From stdpp Require Import base option list gmap strings pretty.
From Stdlib Require Import Ascii ZArith Lia.

Local Open Scope string_scope.
Local Open Scope list_scope.
Local Open Scope Z_scope.

(** ** Faults and the result monad *)

Inductive fault : Type :=
| line_0        (* line[0]            in parseDiffFormat       *)
| line_1        (* line[1]            in parseDiffFormatLine   *)
| line_98       (* line.at(98)        in parseDiffFormatLine   *)
| line_97       (* line.at(97)        in parseDiffFormatLine   *)
| type_0        (* type.at(0)         in setExtStatus          *)
| rfNames_at    (* fl.rfNames.at(i)   in flushFileNames        *)
| pathsIdx_at   (* dirAt / nameAt     in filePath, findFileIndex *)
| mDirNames_at  (* mDirNames[...]                               *)
| mFileNames_at (* mFileNames[...]                              *)
| status_at     (* status[pos]        in appendStatus          *)
| dangling      (* a RevisionFile that is not alive            *)
| out_of_fuel.  (* the bound on the iterations of a loop was too small *)

Inductive result (A : Type) : Type :=
| Ok (a : A)
| Fault (s : fault).
Arguments Ok {A} a.
Arguments Fault {A} s.

#[global] Instance result_ret : MRet result := fun _ a => Ok a.
#[global] Instance result_bind : MBind result := fun _ _ f m =>
  match m with
  | Ok a => f a
  | Fault s => Fault s
  end.

Definition fromOption {A} (s : fault) (o : option A) : result A :=
  match o with
  | Some a => Ok a
  | None => Fault s
  end.

Definition isOk {A} (m : result A) : Prop :=
  match m with Ok _ => True | Fault _ => False end.

(** ** QString *)

Definition TAB : ascii := "009"%char.
Definition NL : ascii := "010"%char.

Module QString.

Definition size (s : string) : nat := String.length s.

(** [s.at(i)], [s[i]] of a const string: defined for [i < size()]. *)
Definition at_ (s : string) (i : nat) : option ascii := String.get i s.

(** [s.left(n)]: the whole string when [n >= size()]. *)
Fixpoint left (s : string) (n : nat) {struct n} : string :=
  match n, s with
  | S n', String a s' => String a (left s' n')
  | _, _ => EmptyString
  end.

(** [s.mid(pos)]: the null string when [pos] exceeds the length. *)
Fixpoint mid (s : string) (pos : nat) {struct pos} : string :=
  match pos, s with
  | O, _ => s
  | S p, String _ s' => mid s' p
  | S _, EmptyString => EmptyString
  end.

(** [s.mid(pos, n)] with [n >= 0]. *)
Definition mid2 (s : string) (pos n : nat) : string := left (mid s pos) n.

Fixpoint find (c : ascii) (s : string) : option nat :=
  match s with
  | EmptyString => None
  | String a s' => if Ascii.eqb a c then Some O else S <$> find c s'
  end.

Fixpoint rfind (c : ascii) (s : string) : option nat :=
  match s with
  | EmptyString => None
  | String a s' =>
      match rfind c s' with
      | Some k => Some (S k)
      | None => if Ascii.eqb a c then Some O else None
      end
  end.

(** [s.indexOf(c, from)]: the first position [>= from] of [c], or [-1].
    A negative [from] counts from the end of the string. *)
Definition indexOf (s : string) (c : ascii) (from : Z) : Z :=
  let from := if from <? 0 then Z.max (from + Z.of_nat (size s)) 0 else from in
  match find c (mid s (Z.to_nat from)) with
  | Some k => from + Z.of_nat k
  | None => -1
  end.

(** [s.lastIndexOf(c)]: the last position of [c], or [-1]. *)
Definition lastIndexOf (s : string) (c : ascii) : Z :=
  match rfind c s with
  | Some k => Z.of_nat k
  | None => -1
  end.

(** The fields of [s] between occurrences of [sep], empty ones included. *)
Fixpoint fields (sep : ascii) (s : string) : list string :=
  match s with
  | EmptyString => [EmptyString]
  | String a s' =>
      if Ascii.eqb a sep then EmptyString :: fields sep s'
      else match fields sep s' with
           | f :: fs => String a f :: fs
           | [] => [String a EmptyString]
           end
  end.

Definition isEmpty (s : string) : bool :=
  match s with EmptyString => true | _ => false end.

(** [s.split(sep, QString::SkipEmptyParts)]. *)
Definition split (s : string) (sep : ascii) : list string :=
  List.filter (fun f => negb (isEmpty f)) (fields sep s).

(** [s.section(sep, -1)]: the last field. *)
Definition section_last (s : string) (sep : ascii) : string :=
  List.last (fields sep s) EmptyString.

(** [s.remove(0, 1)]. *)
Definition remove_first (s : string) : string := mid s 1.

Definition isSpace (c : ascii) : bool :=
  let n := nat_of_ascii c in ((9 <=? n) && (n <=? 13))%nat || (n =? 32)%nat.

Fixpoint trim_left (s : string) : string :=
  match s with
  | String a s' => if isSpace a then trim_left s' else s
  | EmptyString => EmptyString
  end.

Definition trimmed (s : string) : string :=
  String.rev (trim_left (String.rev (trim_left s))).

Definition digit (c : ascii) : option Z :=
  let n := nat_of_ascii c in
  if ((48 <=? n) && (n <=? 57))%nat then Some (Z.of_nat n - 48) else None.

Fixpoint digits (acc : Z) (s : string) : option Z :=
  match s with
  | EmptyString => Some acc
  | String a s' => d ← digit a; digits (10 * acc + d) s'
  end.

Definition unsigned (s : string) : option Z :=
  match s with
  | EmptyString => None
  | _ => digits 0 s
  end.

(** [s.toInt()]: base 10, surrounding white space allowed, an optional
    sign; 0 when the text is no number or does not fit an [int]. *)
Definition toInt (s : string) : Z :=
  let v := match trimmed s with
           | String "-" s' => Z.opp <$> unsigned s'
           | String "+" s' => unsigned s'
           | s' => unsigned s'
           end in
  match v with
  | Some z => if (-2147483648 <=? z) && (z <=? 2147483647) then z else 0
  | None => 0
  end.

(** [QString::number(n)]. *)
Definition number (n : Z) : string := pretty n.

(** [s.startsWith(p)]. *)
Fixpoint startsWith (s p : string) : bool :=
  match p, s with
  | EmptyString, _ => true
  | String b p', String a s' => Ascii.eqb a b && startsWith s' p'
  | String _ _, EmptyString => false
  end.

(** [s.endsWith(p)]. *)
Definition endsWith (s p : string) : bool :=
  (size p <=? size s)%nat && String.eqb (mid s (size s - size p)) p.

(** [s.contains(sub)]. *)
Fixpoint contains (s sub : string) : bool :=
  startsWith s sub ||
  match s with
  | String _ s' => contains s' sub
  | EmptyString => false
  end.

(** [s.remove(str)] for a [str] of one character [c]: every occurrence of
    the character is removed. *)
Fixpoint remove_all (s : string) (c : ascii) : string :=
  match s with
  | EmptyString => EmptyString
  | String a s' => if Ascii.eqb a c then remove_all s' c
                   else String a (remove_all s' c)
  end.

(** [s.remove(pos, n)]: a negative [pos] counts from the end; a position
    outside the string removes nothing; the string is truncated at [pos]
    when [pos + n] is beyond its end. *)
Definition remove (s : string) (pos n : Z) : string :=
  let sz := Z.of_nat (size s) in
  let pos := if pos <? 0 then pos + sz else pos in
  if (pos <? 0) || (sz <=? pos) then s
  else if sz - pos <=? n then left s (Z.to_nat pos)
  else if 0 <? n then left s (Z.to_nat pos) +:+ mid s (Z.to_nat (pos + n))
  else s.

(** The scan of [s.replace(before, after)] and of [s.split(sep)] for a
    string [sep]: occurrences are taken from left to right and do not
    overlap; [skip] counts the characters of the occurrence just found that
    are still to be passed over. *)
Fixpoint replace_scan (before after : string) (skip : nat) (s : string)
    : string :=
  match s with
  | EmptyString => EmptyString
  | String a s' =>
      match skip with
      | S k => replace_scan before after k s'
      | O => if startsWith s before
             then after +:+ replace_scan before after (size before - 1) s'
             else String a (replace_scan before after 0 s')
      end
  end.

(** [s.replace(before, after)] for a [before] that is not empty. *)
Definition replace (s before after : string) : string :=
  replace_scan before after 0 s.

Fixpoint fieldsBy_scan (sep : string) (skip : nat) (s : string) : list string :=
  match s with
  | EmptyString => [EmptyString]
  | String a s' =>
      match skip with
      | S k => fieldsBy_scan sep k s'
      | O => if startsWith s sep
             then EmptyString :: fieldsBy_scan sep (size sep - 1) s'
             else match fieldsBy_scan sep 0 s' with
                  | f :: fs => String a f :: fs
                  | [] => [String a EmptyString]
                  end
      end
  end.

(** [s.split(sep)] for a string [sep] that is not empty, empty parts
    kept. *)
Definition fieldsBy (s sep : string) : list string := fieldsBy_scan sep 0 s.

(** [QString("%1").arg(n, width, 10, QChar(fill))]: the decimal text of [n]
    padded on the left to [width] characters. *)
Definition padded (n : Z) (width : nat) (fill : ascii) : string :=
  let t := number n in
  String.concat "" (replicate (width - size t) (String fill EmptyString)) +:+ t.

(** [s.indexOf(sub)]: the first position at which [sub] occurs. *)
Fixpoint findStr (s sub : string) : option nat :=
  if startsWith s sub then Some O
  else match s with
       | String _ s' => S <$> findStr s' sub
       | EmptyString => None
       end.

(** [s.split(sep)] for a separator of one character or more: the parts
    between the occurrences of [sep], which are looked for from left to
    right, each after the end of the one before. *)
Fixpoint splitStr_scan (fuel : nat) (s sep : string) : list string :=
  match findStr s sep, fuel with
  | Some k, S fuel =>
      left s k :: splitStr_scan fuel (mid s (k + size sep)) sep
  | _, _ => [s]
  end.

Definition splitStr (s sep : string) : list string :=
  splitStr_scan (size s) s sep.

End QString.

(** ** RevisionFile

    The declaration of [RevisionFile] is not among the sources; the functions
    of [git.cpp] use its members [pathsIdx] and [mergeParent] directly and
    the rest through the methods below. *)

Definition addr := nat.
Bind Scope nat_scope with addr.

Record RevisionFile : Type := mkRevisionFile {
  pathsIdx : list nat;      (* packed block: directory indices, then file indices *)
  status : list Z;          (* one flag set per entry *)
  extStatus : list string;  (* extended status, up to the latest rename/copy *)
  mergeParent : list Z;
  onlyModified : bool
}.

Module RevisionFile.

(** Modelled from the spec: the [StatusFlag] constants of [RevisionFile]
    are declared outside the sources; the spec has them as kinds
    (Modified, Deleted, New, Unknown) and flags (In-Index, Conflict) that
    combine bitwise, so each is one bit of its own. *)
Definition MODIFIED : Z := 1.
Definition DELETED : Z := 2.
Definition NEW : Z := 4.
Definition UNKNOWN : Z := 32.
Definition IN_INDEX : Z := 64.
Definition CONFLICT : Z := 128.

(** A default-constructed [RevisionFile]. *)
Definition empty : RevisionFile :=
  mkRevisionFile [] [] [] [] true.

Definition set_pathsIdx (b : list nat) (f : RevisionFile) : RevisionFile :=
  mkRevisionFile b (status f) (extStatus f) (mergeParent f) (onlyModified f).

(** [rf.mergeParent.append(p)]. *)
Definition mergeParent_append (p : Z) (f : RevisionFile) : RevisionFile :=
  mkRevisionFile (pathsIdx f) (status f) (extStatus f) (mergeParent f ++ [p])
                 (onlyModified f).

(** [rf.setOnlyModified(b)]. *)
Definition setOnlyModified (b : bool) (f : RevisionFile) : RevisionFile :=
  mkRevisionFile (pathsIdx f) (status f) (extStatus f) (mergeParent f) b.

(** Modelled from the spec: [RevisionFile::count()], [dirAt(i)] and
    [nameAt(i)] are declared outside the sources.  The spec has the
    directory and file indices of the entries in the packed storage that
    [flush()] writes as one block (what is still buffered is not an entry
    yet); [flushFileNames] lays the block out as the directory indices
    followed by the file indices. *)
Definition count (f : RevisionFile) : nat := (length (pathsIdx f) / 2)%nat.
Definition dirAt (f : RevisionFile) (i : nat) : option nat := pathsIdx f !! i.
Definition nameAt (f : RevisionFile) (i : nat) : option nat :=
  pathsIdx f !! (count f + i)%nat.

(** Modelled from the spec: [RevisionFile::setStatus(StatusFlag)] is
    declared outside the sources; it gives the entry being appended its
    status. *)
Definition setStatusFlag (flag : Z) (f : RevisionFile) : RevisionFile :=
  mkRevisionFile (pathsIdx f) (status f ++ [flag]) (extStatus f)
                 (mergeParent f) (onlyModified f).

(** Modelled from the spec: [RevisionFile::setStatus(const QString &)] is
    declared outside the sources.  The spec has a one-character status
    code per entry (Modified, Added, Deleted, New, Unknown, Conflict) and
    [onlyModified] true until an entry with a status other than Modified
    is appended; the letters are those of git's raw diff format, an
    unmerged file being a modified one in conflict. *)
Definition statusOfCode (c : ascii) : Z * bool :=
  if Ascii.eqb c "M" then (MODIFIED, true)
  else if Ascii.eqb c "T" then (MODIFIED, true)
  else if Ascii.eqb c "U" then (Z.lor MODIFIED CONFLICT, false)
  else if Ascii.eqb c "D" then (DELETED, false)
  else if Ascii.eqb c "A" then (NEW, false)
  else if Ascii.eqb c "?" then (UNKNOWN, false)
  else (MODIFIED, true).

Definition setStatus (c : ascii) (f : RevisionFile) : RevisionFile :=
  let '(flag, onlyMod) := statusOfCode c in
  mkRevisionFile (pathsIdx f) (status f ++ [flag]) (extStatus f)
                 (mergeParent f) (onlyModified f && onlyMod).

(** Modelled from the spec: [RevisionFile::appendStatus(pos, flag)] is
    declared outside the sources; it ORs [flag] onto the status of entry
    [pos]. *)
Definition appendStatus (pos : nat) (flag : Z) (f : RevisionFile)
  : option RevisionFile :=
  st ← status f !! pos;
  Some (mkRevisionFile (pathsIdx f) (<[pos := Z.lor st flag]> (status f))
                       (extStatus f) (mergeParent f) (onlyModified f)).

(** Modelled from the spec: [RevisionFile::statusCmp(idx, flag)] is
    declared outside the sources; it tells whether entry [idx] carries
    [flag], and an entry without a recorded status carries none. *)
Definition statusCmp (f : RevisionFile) (idx : nat) (flag : Z) : bool :=
  match status f !! idx with
  | Some st => negb (Z.land st flag =? 0)
  | None => false
  end.

(** [RevisionFile::appendExtStatus(s)] is declared outside the sources;
    [setExtStatus] documents the layout: "we set rf.extStatus size equal
    to position of latest copied/renamed file", so the string lands at the
    position of the entry just appended and the entries before it that had
    none get the empty string. *)
Definition appendExtStatus (s : string) (f : RevisionFile) : RevisionFile :=
  let n := length (status f) in
  let padded := extStatus f ++ replicate (n - 1 - length (extStatus f)) "" in
  mkRevisionFile (pathsIdx f) (status f) (take (n - 1) padded ++ [s])
                 (mergeParent f) (onlyModified f).

(** The extended status of entry [i]: none beyond the stored ones. *)
Definition extStatusAt (f : RevisionFile) (i : nat) : string :=
  default "" (extStatus f !! i).

End RevisionFile.

(** ** FileNamesLoader and the state of [Git] *)

Record FileNamesLoader : Type := mkFileNamesLoader {
  rf : option addr;       (* the RevisionFile being loaded, or nullptr *)
  rfDirs : list nat;
  rfNames : list nat
}.

Module FileNamesLoader.
(** A default-constructed loader. *)
Definition empty : FileNamesLoader := mkFileNamesLoader None [] [].
End FileNamesLoader.

Record World : Type := mkWorld {
  mDirNamesMap : gmap string nat;
  mFileNamesMap : gmap string nat;
  mDirNames : list string;
  mFileNames : list string;
  revFiles : gmap addr RevisionFile
}.

Definition set_revFiles (h : gmap addr RevisionFile) (w : World) : World :=
  mkWorld (mDirNamesMap w) (mFileNamesMap w) (mDirNames w) (mFileNames w) h.

(** Reading and updating the object behind a [RevisionFile &]. *)
Definition deref (w : World) (r : addr) : result RevisionFile :=
  fromOption dangling (revFiles w !! r).

Definition update (r : addr) (f : RevisionFile -> RevisionFile) (w : World)
  : result World :=
  o ← deref w r; Ok (set_revFiles (<[r := f o]> (revFiles w)) w).

Definition updateOpt (s : fault) (r : addr)
    (f : RevisionFile -> option RevisionFile) (w : World) : result World :=
  o ← deref w r; o' ← fromOption s (f o);
  Ok (set_revFiles (<[r := o']> (revFiles w)) w).

(** [Git::clearFileNames] and a session with no object alive. *)
Definition clearFileNames (w : World) : World :=
  mkWorld ∅ ∅ [] [] (revFiles w).

Definition emptyWorld : World := mkWorld ∅ ∅ [] [] ∅.

(** [RevisionFile rf;]: a fresh default-constructed object at address [r]. *)
Definition declare (r : addr) (w : World) : World :=
  set_revFiles (<[r := RevisionFile.empty]> (revFiles w)) w.

(** ** The interner and the flush protocol *)

(** [Git::flushFileNames]. *)
Definition flushFileNames (fl : FileNamesLoader) (w : World)
  : result (FileNamesLoader * World) :=
  match rf fl with
  | None => Ok (fl, w)
  | Some r =>
      _ ← deref w r;                    (* QByteArray &b = fl.rf->pathsIdx *)
      let dirs := rfDirs fl in
      (* d[i] = dirs.at(i); d[dirs.size() + i] = fl.rfNames.at(i) *)
      names ← (if decide (length dirs ≤ length (rfNames fl))%nat
               then Ok (take (length dirs) (rfNames fl))
               else Fault rfNames_at);
      w ← update r (RevisionFile.set_pathsIdx (dirs ++ names)) w;
      Ok (mkFileNamesLoader None [] [], w)
  end.

(** [Git::appendFileName]. *)
Definition appendFileName (r : addr) (name : string) (fl : FileNamesLoader)
    (w : World) : result (FileNamesLoader * World) :=
  '(fl, w) ← (if decide (rf fl = Some r) then Ok (fl, w)
              else '(fl, w) ← flushFileNames fl w;
                   Ok (mkFileNamesLoader (Some r) (rfDirs fl) (rfNames fl), w));
  let idx := Z.to_nat (QString.lastIndexOf name "/" + 1) in
  let dr := QString.left name idx in
  let nm := QString.mid name idx in
  let '(fl, w) :=
    match mDirNamesMap w !! dr with
    | None =>
        let idx := length (mDirNames w) in
        (mkFileNamesLoader (rf fl) (rfDirs fl ++ [idx]) (rfNames fl),
         mkWorld (<[dr := idx]> (mDirNamesMap w)) (mFileNamesMap w)
                 (mDirNames w ++ [dr]) (mFileNames w) (revFiles w))
    | Some it =>
        (mkFileNamesLoader (rf fl) (rfDirs fl ++ [it]) (rfNames fl), w)
    end in
  let '(fl, w) :=
    match mFileNamesMap w !! nm with
    | None =>
        let idx := length (mFileNames w) in
        (mkFileNamesLoader (rf fl) (rfDirs fl) (rfNames fl ++ [idx]),
         mkWorld (mDirNamesMap w) (<[nm := idx]> (mFileNamesMap w))
                 (mDirNames w) (mFileNames w ++ [nm]) (revFiles w))
    | Some it =>
        (mkFileNamesLoader (rf fl) (rfDirs fl) (rfNames fl ++ [it]), w)
    end in
  Ok (fl, w).

(** ** The diff-record parser *)

(** [Git::setExtStatus]. *)
Definition setExtStatus (r : addr) (rowSt : string) (parNum : Z)
    (fl : FileNamesLoader) (w : World) : result (FileNamesLoader * World) :=
  let sl := QString.split rowSt TAB in
  match sl with
  | [sl0; orig; dest] =>
      let type := QString.remove_first sl0 in
      let extStatusInfo :=
        orig +:+ " --> " +:+ dest +:+ " (" +:+
        QString.number (QString.toInt type) +:+ "%)" in
      (* simulate new file *)
      '(fl, w) ← appendFileName r dest fl w;
      w ← update r (RevisionFile.mergeParent_append parNum) w;
      w ← update r (RevisionFile.setStatusFlag RevisionFile.NEW) w;
      w ← update r (RevisionFile.appendExtStatus extStatusInfo) w;
      (* simulate deleted orig file only in case of rename *)
      c ← fromOption type_0 (QString.at_ type 0);
      '(fl, w) ← (if Ascii.eqb c "R" then
                    '(fl, w) ← appendFileName r orig fl w;
                    w ← update r (RevisionFile.mergeParent_append parNum) w;
                    w ← update r (RevisionFile.setStatusFlag RevisionFile.DELETED) w;
                    w ← update r (RevisionFile.appendExtStatus extStatusInfo) w;
                    Ok (fl, w)
                  else Ok (fl, w));
      w ← update r (RevisionFile.setOnlyModified false) w;
      Ok (fl, w)
  | _ => Ok (fl, w)            (* sl.count() != 3 *)
  end.

(** [Git::parseDiffFormatLine]. *)
Definition parseDiffFormatLine (r : addr) (line : string) (parNum : Z)
    (fl : FileNamesLoader) (w : World) : result (FileNamesLoader * World) :=
  c1 ← fromOption line_1 (QString.at_ line 1);
  if Ascii.eqb c1 ":" then
    (* it's a combined merge *)
    '(fl, w) ← appendFileName r (QString.section_last line TAB) fl w;
    w ← update r (RevisionFile.setStatus "M") w;
    w ← update r (RevisionFile.mergeParent_append parNum) w;
    Ok (fl, w)
  else
    (* faster parsing in normal case *)
    c98 ← fromOption line_98 (QString.at_ line 98);
    if Ascii.eqb c98 TAB then
      '(fl, w) ← appendFileName r (QString.mid line 99) fl w;
      c97 ← fromOption line_97 (QString.at_ line 97);
      w ← update r (RevisionFile.setStatus c97) w;
      w ← update r (RevisionFile.mergeParent_append parNum) w;
      Ok (fl, w)
    else
      (* it's a rename or a copy, we are not in fast path now! *)
      setExtStatus r (QString.mid line 97) parNum fl w.

(** The [while (endPos != -1)] loop of [Git::parseDiffFormat], on the
    variables [parNum], [startPos] and [endPos]; [fuel] bounds the number of
    iterations. *)
Fixpoint parseDiffFormat_loop (fuel : nat) (r : addr) (buf : string)
    (parNum startPos endPos : Z) (fl : FileNamesLoader) (w : World)
    : result (FileNamesLoader * World) :=
  if endPos =? -1 then Ok (fl, w)
  else
    match fuel with
    | O => Fault out_of_fuel
    | S fuel =>
        let line := QString.mid2 buf (Z.to_nat startPos)
                                 (Z.to_nat (endPos - startPos)) in
        c0 ← fromOption line_0 (QString.at_ line 0);
        '(parNum, fl, w) ←
          (if Ascii.eqb c0 ":" then      (* avoid sha's in merges output *)
             '(fl, w) ← parseDiffFormatLine r line parNum fl w;
             Ok (parNum, fl, w)
           else Ok (parNum + 1, fl, w));
        parseDiffFormat_loop fuel r buf parNum (endPos + 1)
                             (QString.indexOf buf NL (endPos + 99)) fl w
    end.

(** [Git::parseDiffFormat].  Every iteration moves [endPos] forward, so the
    loop runs at most [size + 1] times: the bound is never reached
    ([parseDiffFormat_records] below). *)
Definition parseDiffFormat (r : addr) (buf : string) (fl : FileNamesLoader)
    (w : World) : result (FileNamesLoader * World) :=
  parseDiffFormat_loop (S (QString.size buf)) r buf 1 0
                       (QString.indexOf buf NL 0) fl w.

(** ** Lookup by path *)

(** [Git::filePath]. *)
Definition filePath (w : World) (f : RevisionFile) (i : nat) : result string :=
  d ← fromOption pathsIdx_at (RevisionFile.dirAt f i);
  dn ← fromOption mDirNames_at (mDirNames w !! d);
  n ← fromOption pathsIdx_at (RevisionFile.nameAt f i);
  fn ← fromOption mFileNames_at (mFileNames w !! n);
  Ok (dn +:+ fn).

(** The [for] loop of [Git::findFileIndex]: [i] is the loop variable and
    [todo] is [cnt - i]. *)
Fixpoint findFileIndex_loop (w : World) (f : RevisionFile) (dr nm : string)
    (i todo : nat) : result Z :=
  match todo with
  | O => Ok (-1)
  | S todo =>
      n ← fromOption pathsIdx_at (RevisionFile.nameAt f i);
      isRevFile ← fromOption mFileNames_at (mFileNames w !! n);
      d ← fromOption pathsIdx_at (RevisionFile.dirAt f i);
      isRevDir ← fromOption mDirNames_at (mDirNames w !! d);
      if bool_decide (isRevFile = nm) && bool_decide (isRevDir = dr)
      then Ok (Z.of_nat i)
      else findFileIndex_loop w f dr nm (S i) todo
  end.

(** [Git::findFileIndex]. *)
Definition findFileIndex (w : World) (f : RevisionFile) (name : string)
    : result Z :=
  if QString.isEmpty name then Ok (-1)
  else
    let idx := Z.to_nat (QString.lastIndexOf name "/" + 1) in
    let dr := QString.left name idx in
    let nm := QString.mid name idx in
    findFileIndex_loop w f dr nm 0 (RevisionFile.count f).

(** ** The working-directory synthesizer *)

Record WorkingDirInfo : Type := mkWorkingDirInfo {
  diffIndex : string;
  diffIndexCached : string;
  otherFiles : list string
}.

(** The loop over [wd.otherFiles] of [Git::fakeWorkDirRevFile]. *)
Fixpoint appendOtherFiles (r : addr) (others : list string)
    (fl : FileNamesLoader) (w : World) : result (FileNamesLoader * World) :=
  match others with
  | [] => Ok (fl, w)
  | it :: others =>
      '(fl, w) ← appendFileName r it fl w;
      w ← update r (RevisionFile.setStatusFlag RevisionFile.UNKNOWN) w;
      w ← update r (RevisionFile.mergeParent_append 1) w;
      appendOtherFiles r others fl w
  end.

(** The last loop of [Git::fakeWorkDirRevFile]: [i] is the loop variable and
    [todo] is [rf.count() - i] (the body leaves [rf.count()] as it is). *)
Fixpoint markCached_loop (r cached : addr) (i todo : nat) (w : World)
    : result World :=
  match todo with
  | O => Ok w
  | S todo =>
      f ← deref w r;
      cachedFiles ← deref w cached;
      p ← filePath w f i;
      found ← findFileIndex w cachedFiles p;
      w ← (if negb (found =? -1) then
             w ← (if RevisionFile.statusCmp cachedFiles i RevisionFile.CONFLICT
                  then updateOpt status_at r
                         (RevisionFile.appendStatus i RevisionFile.CONFLICT) w
                  else Ok w);
             updateOpt status_at r
               (RevisionFile.appendStatus i RevisionFile.IN_INDEX) w
           else Ok w);
      markCached_loop r cached (S i) todo w
  end.

(** [Git::fakeWorkDirRevFile].  The locals [rf] and [cachedFiles] are two
    fresh objects; they die when the function returns [rf] by value. *)
Definition fakeWorkDirRevFile (wd : WorkingDirInfo) (w : World)
    : result (RevisionFile * World) :=
  let fl := FileNamesLoader.empty in
  let r := fresh (dom (revFiles w)) in
  let w := declare r w in
  '(fl, w) ← parseDiffFormat r (diffIndex wd) fl w;
  w ← update r (RevisionFile.setOnlyModified false) w;
  '(fl, w) ← appendOtherFiles r (otherFiles wd) fl w;
  let cached := fresh (dom (revFiles w)) in
  let w := declare cached w in
  '(fl, w) ← parseDiffFormat cached (diffIndexCached wd) fl w;
  '(fl, w) ← flushFileNames fl w;
  f ← deref w r;
  w ← markCached_loop r cached 0 (RevisionFile.count f) w;
  f ← deref w r;
  Ok (f, set_revFiles (delete cached (delete r (revFiles w))) w).

(** ** The revision cache and the commit stream *)

(** Modelled from the spec: [ZERO_SHA] is declared outside the sources; it
    is the reserved zero id of the working-directory pseudo-commit. *)
Definition ZERO_SHA : string := "0000000000000000000000000000000000000000".

(** Modelled from the spec: [CommitInfo] is declared outside the sources.
    A commit is kept as the arguments it was constructed from: the record of
    the log stream with its position, or the fields the pseudo-commit of the
    working directory is made of.  A [QByteArray] is a [string], a sequence
    of 8-bit characters. *)
Inductive CommitInfo : Type :=
| CommitInfo_record (commitInfo : string) (order : Z)
| CommitInfo_wip (sha : string) (parents : list string) (author : string)
                 (secsSinceEpoch : Z) (log longLog : string) (idx : Z)
                 (isDiffCache : bool).

(** Modelled from the spec: [RevisionsCache] is declared outside the
    sources; it maps commit ids to RevisionFiles and holds the commit
    metadata, here in the order of insertion, and the pseudo-commit. *)
Record RevisionsCache : Type := mkRevisionsCache {
  configured : option nat;
  revisionFiles : gmap string RevisionFile;
  commits : list CommitInfo;
  wipCommit : option CommitInfo
}.

Module RevisionsCache.
Definition empty : RevisionsCache := mkRevisionsCache None ∅ [] None.
Definition configure (n : nat) (c : RevisionsCache) : RevisionsCache :=
  mkRevisionsCache (Some n) (revisionFiles c) (commits c) (wipCommit c).
Definition insertRevisionFile (sha : string) (f : RevisionFile)
    (c : RevisionsCache) : RevisionsCache :=
  mkRevisionsCache (configured c) (<[sha := f]> (revisionFiles c))
                   (commits c) (wipCommit c).
Definition updateWipCommit (rev : CommitInfo) (c : RevisionsCache)
    : RevisionsCache :=
  mkRevisionsCache (configured c) (revisionFiles c) (commits c) (Some rev).
(** Modelled from the spec: [RevisionsCache::containsRevisionFile] and
    [RevisionsCache::getRevisionFile] are declared outside the sources; the
    cache is a mapping from commit ids to RevisionFiles, and a lookup of an
    id that is not in it gives a default-constructed RevisionFile. *)
Definition containsRevisionFile (sha : string) (c : RevisionsCache) : bool :=
  bool_decide (is_Some (revisionFiles c !! sha)).
Definition getRevisionFile (sha : string) (c : RevisionsCache) : RevisionFile :=
  default RevisionFile.empty (revisionFiles c !! sha).

End RevisionsCache.

Inductive Signal : Type := signalLoadingStarted | signalLoadingFinished.

(** The members of [Git] these functions use; [emitted] lists the signals
    emitted so far. *)
Record Git : Type := mkGit {
  world : World;
  mRevCache : RevisionsCache;
  workingDirInfo : WorkingDirInfo;
  mWorkingDir : string;
  isLoading : bool;
  emitted : list Signal
}.

Definition set_world (w : World) (g : Git) : Git :=
  mkGit w (mRevCache g) (workingDirInfo g) (mWorkingDir g) (isLoading g)
        (emitted g).
Definition set_mRevCache (c : RevisionsCache) (g : Git) : Git :=
  mkGit (world g) c (workingDirInfo g) (mWorkingDir g) (isLoading g)
        (emitted g).
Definition set_workingDirInfo (wd : WorkingDirInfo) (g : Git) : Git :=
  mkGit (world g) (mRevCache g) wd (mWorkingDir g) (isLoading g) (emitted g).

(** [Git::insertNewFiles].  The locals [fl] and [rf] are fresh; [rf] dies
    when the function returns it by value. *)
Definition insertNewFiles (sha data : string) (g : Git)
    : result (RevisionFile * Git) :=
  let fl := FileNamesLoader.empty in
  let r := fresh (dom (revFiles (world g))) in
  let w := declare r (world g) in
  '(fl, w) ← parseDiffFormat r data fl w;
  '(fl, w) ← flushFileNames fl w;
  f ← deref w r;
  let w := set_revFiles (delete r (revFiles w)) w in
  Ok (f, set_mRevCache (RevisionsCache.insertRevisionFile sha f (mRevCache g))
           (set_world w g)).

Section Externals.

(** What the functions obtain from outside the program: the outcome of a
    git command run in a working directory, the existence of a file, the
    clock, and the validity check of a decoded commit record
    ([CommitInfo::isValid], declared outside the sources). *)
Variable run : string → string → bool * string.
Variable fileExists : string → bool.
Variable currentSecsSinceEpoch : Z.
Variable isValid : CommitInfo → bool.

(** [Git::quote]. *)
Definition quote (nm : string) : string := "$" +:+ nm +:+ "$".

(** [Git::getOthersFiles]. *)
Definition getOthersFiles (g : Git) : list string :=
  let runCmd := "git ls-files --others" in
  let exFile := ".git/info/exclude" in
  let path := mWorkingDir g +:+ "/" +:+ exFile in
  let runCmd := if fileExists path
                then runCmd +:+ " --exclude-from=" +:+ quote exFile
                else runCmd in
  let runCmd := runCmd +:+ " --exclude-per-directory=" +:+ quote ".gitignore" in
  let runOutput := (run (mWorkingDir g) runCmd).2 in
  QString.split runOutput NL.

(** [Git::isNothingToCommit]. *)
Definition isNothingToCommit (g : Git) : bool :=
  match revisionFiles (mRevCache g) !! ZERO_SHA with
  | None => true
  | Some f =>
      bool_decide (RevisionFile.count f
                   = length (otherFiles (workingDirInfo g)))
  end.

(** The end of [Git::updateWipRevision], from "get any file not in tree"
    on; [head] and [status] are the locals of that name. *)
Definition mockupWip (head status : string) (g : Git) : result Git :=
  let g := set_workingDirInfo
             (mkWorkingDirInfo (diffIndex (workingDirInfo g))
                               (diffIndexCached (workingDirInfo g))
                               (getOthersFiles g)) g in
  (* now mockup a RevisionFile *)
  '(f, w) ← fakeWorkDirRevFile (workingDirInfo g) (world g);
  let g := set_mRevCache
             (RevisionsCache.insertRevisionFile ZERO_SHA f (mRevCache g))
             (set_world w g) in
  (* then mockup the corresponding Revision *)
  let log := if isNothingToCommit g then "No local changes"
             else "Local changes" in
  let c := CommitInfo_wip ZERO_SHA [head] "-" currentSecsSinceEpoch log
                          status 0 true in
  Ok (set_mRevCache (RevisionsCache.updateWipCommit c (mRevCache g)) g).

(** [Git::updateWipRevision]. *)
Definition updateWipRevision (g : Git) : result Git :=
  let ret := run (mWorkingDir g) "git status" in
  if negb ret.1 then Ok g                 (* git status refreshes the index *)
  else
    let status := ret.2 in
    let ret2 := run (mWorkingDir g) "git rev-parse --revs-only HEAD" in
    if negb ret2.1 then Ok g
    else
      let head := QString.trimmed ret2.2 in
      if negb (QString.isEmpty head) then
        let ret3 := run (mWorkingDir g) ("git diff-index " +:+ head) in
        if negb ret3.1 then Ok g
        else
          let g := set_workingDirInfo
                     (mkWorkingDirInfo ret3.2
                        (diffIndexCached (workingDirInfo g))
                        (otherFiles (workingDirInfo g))) g in
          let ret4 := run (mWorkingDir g)
                          ("git diff-index --cached " +:+ head) in
          if negb ret4.1 then Ok g
          else
            let g := set_workingDirInfo
                       (mkWorkingDirInfo (diffIndex (workingDirInfo g))
                          ret4.2 (otherFiles (workingDirInfo g))) g in
            mockupWip head status g
      else mockupWip head status g.



End Externals.

(** ** QStringList *)

Module QStringList.

(** [sl.join(sep)]. *)
Fixpoint join (sl : list string) (sep : string) : string :=
  match sl with
  | [] => ""
  | [x] => x
  | x :: sl => x +:+ sep +:+ join sl sep
  end.

(** [sl.indexOf(x)]: the first position of [x], or [-1]. *)
Definition indexOf (sl : list string) (x : string) : Z :=
  match list_find (λ y, y = x) sl with
  | Some (i, _) => Z.of_nat i
  | None => -1
  end.

Definition isEmpty (sl : list string) : bool :=
  match sl with [] => true | _ => false end.

End QStringList.

(** ** Commands and files

    What a function does to the outside is a script: the git commands it
    runs and the files it writes, removes or renames, each answered by the
    outside before the function goes on.  [Crash] is an index out of range,
    as in [result]. *)

Definition DQUOTE : ascii := "034"%char.

Inductive Action : Type :=
| Run (wd cmd : string)                 (* GitSyncProcess(wd).run(cmd)      *)
| WriteFile (fileName data : string)    (* writeToFile(fileName, data)      *)
| RemoveFile (dir fileName : string)    (* QDir(dir).remove(fileName)       *)
| RenameFile (oldName newName : string) (* QFile::rename(oldName, newName)  *)
| LogError (msg : string).              (* QLog_Error("Git", msg)           *)

Inductive Script (A : Type) : Type :=
| Ret (a : A)
| Crash (s : fault)
| Do (act : Action) (k : bool * string → Script A).
Arguments Ret {A} a.
Arguments Crash {A} s.
Arguments Do {A} act k.

Fixpoint Script_bind {A B} (f : A → Script B) (m : Script A) : Script B :=
  match m with
  | Ret a => f a
  | Crash s => Crash s
  | Do act k => Do act (λ r, Script_bind f (k r))
  end.

#[global] Instance Script_ret : MRet Script := fun _ a => Ret a.
#[global] Instance Script_mbind : MBind Script := fun _ _ f m => Script_bind f m.

Definition perform (act : Action) : Script (bool * string) := Do act Ret.

Definition liftResult {A} (m : result A) : Script A :=
  match m with
  | Ok a => Ret a
  | Fault s => Crash s
  end.

(** The outside answers an action knowing the actions before it; playing a
    script gives its result and the actions performed, in order. *)
Definition Outside : Type := list Action → Action → bool * string.

Fixpoint play {A} (env : Outside) (h : list Action) (s : Script A)
    : result A * list Action :=
  match s with
  | Ret a => (Ok a, h)
  | Crash s => (Fault s, h)
  | Do act k => play env (h ++ [act]) (k (env h act))
  end.

(** [Git::run]: the command runs in [mWorkingDir]. *)
Definition Git_run (wd runCmd : string) : Script (bool * string) :=
  perform (Run wd runCmd).

(** [Git::quote(const QStringList &)]. *)
Definition quoteList (sl : list string) : string :=
  "$" +:+ QStringList.join sl "$ $" +:+ "$".

(** ** Staging and committing *)

(** [Git::getWipFiles]. *)
Definition getWipFiles (g : Git) : RevisionFile :=
  RevisionsCache.getRevisionFile ZERO_SHA (mRevCache g).

(** The loop of [Git::getOtherFiles]; [todo] is [files.count() - i]. *)
Fixpoint getOtherFiles_loop (w : World) (files : RevisionFile)
    (selFiles : list string) (i todo : nat) (notSelFiles : list string)
    : result (list string) :=
  match todo with
  | O => Ok notSelFiles
  | S todo =>
      fp ← filePath w files i;
      let notSelFiles :=
        if (QStringList.indexOf selFiles fp =? -1)
           && RevisionFile.statusCmp files i RevisionFile.IN_INDEX
        then notSelFiles ++ [fp] else notSelFiles in
      getOtherFiles_loop w files selFiles (S i) todo notSelFiles
  end.

(** [Git::getOtherFiles]. *)
Definition getOtherFiles (g : Git) (selFiles : list string)
    : result (list string) :=
  let files := getWipFiles g in
  getOtherFiles_loop (world g) files selFiles 0 (RevisionFile.count files) [].

(** The loop of [Git::updateIndex]. *)
Fixpoint updateIndex_loop (w : World) (files : RevisionFile)
    (selFiles toAdd toRemove : list string)
    : result (list string * list string) :=
  match selFiles with
  | [] => Ok (toAdd, toRemove)
  | it :: selFiles =>
      idx ← findFileIndex w files it;
      if negb (idx =? -1)
         && RevisionFile.statusCmp files (Z.to_nat idx) RevisionFile.DELETED
      then updateIndex_loop w files selFiles toAdd (toRemove ++ [it])
      else updateIndex_loop w files selFiles (toAdd ++ [it]) toRemove
  end.

(** [Git::updateIndex]. *)
Definition updateIndex (g : Git) (selFiles : list string) : Script bool :=
  let files := getWipFiles g in
  '(toAdd, toRemove) ← liftResult (updateIndex_loop (world g) files selFiles [] []);
  rmFailed ← (if negb (QStringList.isEmpty toRemove) then
                ret ← Git_run (mWorkingDir g)
                        ("git rm --cached --ignore-unmatch -- "
                         +:+ quoteList toRemove);
                Ret (negb ret.1)
              else Ret false);
  if rmFailed : bool then Ret false
  else
    addFailed ← (if negb (QStringList.isEmpty toAdd) then
                   ret ← Git_run (mWorkingDir g)
                           ("git add -- " +:+ quoteList toAdd);
                   Ret (negb ret.1)
                 else Ret false);
    if addFailed : bool then Ret false else Ret true.

(** [Git::commitFiles], as built for a system other than Windows
    ([writeToFile] writes the message as it is); [mGitDir] is the member of
    that name. *)
Definition commitFiles (g : Git) (mGitDir : string) (selFiles : list string)
    (msg : string) (amend : bool) (author : string) : Script bool :=
  let msgFile := mGitDir +:+ "/qgit_cmt_msg.txt" in
  written ← perform (WriteFile msgFile msg);
  if negb written.1 then Ret false                           (* early skip *)
  else
    (* add user selectable commit options *)
    let cmtOptions :=
      if amend then
        " --amend" +:+
        (if negb (QString.isEmpty author)
         then " --author " +:+ String DQUOTE author +:+ String DQUOTE ""
         else "")
      else "" in
    (* get not selected files but updated in index to restore at the end *)
    notSel ← liftResult (getOtherFiles g selFiles);
    (* call git reset to remove not selected files from index *)
    failed ←
      (resetFailed ← (if negb (QStringList.isEmpty notSel) then
                        ret ← Git_run (mWorkingDir g)
                                ("git reset -- " +:+ quoteList notSel);
                        Ret (negb ret.1)
                      else Ret false);
       if resetFailed : bool then Ret true
       else
         updated ← updateIndex g selFiles;
         if negb updated then Ret true
         else
           ret ← Git_run (mWorkingDir g)
                   ("git commit" +:+ cmtOptions +:+ " -F " +:+ quote msgFile);
           if negb ret.1 then Ret true
           else if negb (QStringList.isEmpty notSel) then
                  restored ← updateIndex g notSel; Ret (negb restored)
                else Ret false);
    if failed : bool then
      _ ← perform (RemoveFile (mWorkingDir g) msgFile); Ret false
    else Ret true.

(** ** Patches *)



(** ** Answers of git *)

(** [Git::getTags]. *)
Definition getTags (wd : string) : Script (list string) :=
  ret ← Git_run wd "git tag";
  Ret (if ret.1 : bool then
         List.filter (λ tag, negb (String.eqb tag (String NL ""))
                             && negb (QString.isEmpty tag))
                     (QString.fields NL ret.2)
       else []).

(** [Git::getStashes]. *)
Definition getStashes (wd : string) : Script (list string) :=
  ret ← Git_run wd "git stash list";
  Ret (if ret.1 : bool then
         List.filter (λ tag, negb (String.eqb tag (String NL ""))
                             && negb (QString.isEmpty tag))
                     (QString.fields NL ret.2)
       else []).

(** The loop of [Git::getSubmodules]; [None] is the index 1 out of the
    range of [submodule.split('.')]. *)
Fixpoint getSubmodules_loop (submodules submodulesList : list string)
    : option (list string) :=
  match submodules with
  | [] => Some submodulesList
  | submodule :: submodules =>
      if negb (QString.isEmpty submodule)
         && negb (String.eqb submodule (String NL ""))
      then name ← QString.fields "." submodule !! 1%nat;
           getSubmodules_loop submodules (submodulesList ++ [name])
      else getSubmodules_loop submodules submodulesList
  end.

(** [Git::getSubmodules]. *)
Definition getSubmodules (wd : string) : Script (option (list string)) :=
  ret ← Git_run wd "git config --file .gitmodules --name-only --get-regexp path";
  Ret (if ret.1 : bool then getSubmodules_loop (QString.fields NL ret.2) []
       else Some []).

(** [Git::getLastCommitOfBranch]. *)
Definition getLastCommitOfBranch (wd branch : string) : Script (bool * string) :=
  ret ← Git_run wd ("git rev-parse " +:+ branch);
  Ret (if ret.1 : bool then
         let count := Z.of_nat (QString.size ret.2) in
         (ret.1, QString.remove ret.2 (count - 1) count)
       else ret).

(** [Git::getTagCommit]. *)
Definition getTagCommit (wd tagName : string) : Script (bool * string) :=
  ret ← Git_run wd ("git rev-list -n 1 " +:+ tagName);
  let output := ret.2 in
  let output := if ret.1 : bool then
                  let count := Z.of_nat (QString.size output) in
                  QString.remove output (count - 2) (count - 1)
                else output in
  Ret (ret.1, output).

(** The loop of [Git::loadCurrentBranch]. *)
Fixpoint loadCurrentBranch_loop (branches : list string)
    (mCurrentBranchName : string) : string :=
  match branches with
  | [] => mCurrentBranchName
  | branch :: branches =>
      if QString.startsWith branch "*"
      then QString.trimmed (QString.remove_all branch "*")       (* break *)
      else loadCurrentBranch_loop branches mCurrentBranchName
  end.

(** [Git::loadCurrentBranch]: the answer and the member
    [mCurrentBranchName]. *)
Definition loadCurrentBranch (wd mCurrentBranchName : string)
    : Script (bool * string) :=
  ret2 ← Git_run wd "git branch";
  if negb ret2.1 then Ret (false, mCurrentBranchName)
  else
    let branches := QString.fields NL (QString.trimmed ret2.2) in
    let mCurrentBranchName :=
      loadCurrentBranch_loop branches mCurrentBranchName in
    let mCurrentBranchName :=
      if QString.contains mCurrentBranchName " detached " then ""
      else mCurrentBranchName in
    Ret (true, mCurrentBranchName).

(** ** References *)

(** Modelled from the spec: [Git::Reference] and the [RefType] flags are
    declared outside the sources.  The spec has a Reference describe which
    tags, branches, remote branches and other refs point at a commit and
    whether it is the current branch; the functions of [git.cpp] use the
    members below, and the flags combine bitwise, so each is one bit of its
    own.  A default-constructed Reference has no names and no flag. *)
Record Reference : Type := mkReference {
  type : Z;
  branches : list string;
  remoteBranches : list string;
  tags : list string;
  refs : list string;
  tagObj : string;
  stgitPatch : string
}.

Module Reference.

Definition TAG : Z := 1.
Definition BRANCH : Z := 2.
Definition RMT_BRANCH : Z := 4.
Definition CUR_BRANCH : Z := 8.
Definition REF : Z := 16.
Definition APPLIED : Z := 32.
Definition UN_APPLIED : Z := 64.

Definition empty : Reference := mkReference 0 [] [] [] [] "" "".

Definition orType (flag : Z) (r : Reference) : Reference :=
  mkReference (Z.lor (type r) flag) (branches r) (remoteBranches r) (tags r)
              (refs r) (tagObj r) (stgitPatch r).

(** [Git::Reference::configure]. *)
Definition configure (refName : string) (isCurrentBranch : bool)
    (prevRefSha : string) (r : Reference) : Reference :=
  if QString.startsWith refName "refs/tags/" then
    let r :=
      if QString.endsWith refName "^{}" then
        (* the last added tag is a tag object, not a commit object *)
        mkReference (type r) (branches r) (remoteBranches r)
          (tags r ++ [QString.mid2 refName 10 (QString.size refName - 13)])
          (refs r) prevRefSha (stgitPatch r)
      else
        mkReference (type r) (branches r) (remoteBranches r)
          (tags r ++ [QString.mid refName 10]) (refs r) (tagObj r)
          (stgitPatch r) in
    orType TAG r
  else if QString.startsWith refName "refs/heads/" then
    let r := mkReference (type r) (branches r ++ [QString.mid refName 11])
               (remoteBranches r) (tags r) (refs r) (tagObj r)
               (stgitPatch r) in
    let r := orType BRANCH r in
    if isCurrentBranch then orType CUR_BRANCH r else r
  else if QString.startsWith refName "refs/remotes/"
          && negb (QString.endsWith refName "HEAD") then
    orType RMT_BRANCH
      (mkReference (type r) (branches r)
         (remoteBranches r ++ [QString.mid refName 13]) (tags r) (refs r)
         (tagObj r) (stgitPatch r))
  else if negb (QString.startsWith refName "refs/bases/")
          && negb (QString.endsWith refName "HEAD") then
    orType REF
      (mkReference (type r) (branches r) (remoteBranches r) (tags r)
         (refs r ++ [refName]) (tagObj r) (stgitPatch r))
  else r.

End Reference.

(** [Git::lookupOrAddReference]: the map with an entry for [sha]; the
    pointer the function returns is the key. *)
Definition lookupOrAddReference (sha : string)
    (mRefsShaMap : gmap string Reference) : gmap string Reference :=
  match mRefsShaMap !! sha with
  | Some _ => mRefsShaMap
  | None => <[sha := Reference.empty]> mRefsShaMap
  end.

(** [Git::checkRef]. *)
Definition checkRef (mRefsShaMap : gmap string Reference) (sha : string)
    (mask : Z) : Z :=
  match mRefsShaMap !! sha with
  | Some it => Z.land (type it) mask
  | None => 0
  end.

(** [Git::getRefNames]. *)
Definition getRefNames (mRefsShaMap : gmap string Reference) (sha : string)
    (mask : Z) : list string :=
  if checkRef mRefsShaMap sha mask =? 0 then []
  else
    let rf := default Reference.empty (mRefsShaMap !! sha) in
    (if negb (Z.land mask Reference.TAG =? 0) then tags rf else [])
    ++ (if negb (Z.land mask Reference.BRANCH =? 0) then branches rf else [])
    ++ (if negb (Z.land mask Reference.RMT_BRANCH =? 0)
        then remoteBranches rf else [])
    ++ (if negb (Z.land mask Reference.REF =? 0) then refs rf else [])
    ++ (if (mask =? Reference.APPLIED) || (mask =? Reference.UN_APPLIED)
        then [stgitPatch rf] else []).

(** The loop of [Git::getRefs] over the lines of [git show-ref -d]. *)
Fixpoint getRefs_loop (referencesList : list string)
    (curBranchSHA prevRefSha : string) (mRefsShaMap : gmap string Reference)
    : gmap string Reference :=
  match referencesList with
  | [] => mRefsShaMap
  | reference :: referencesList =>
      let revSha := QString.left reference 40 in
      let refName := QString.mid reference 41 in
      (* one Revision could have many tags *)
      let m := lookupOrAddReference revSha mRefsShaMap in
      let m := alter (Reference.configure refName
                        (String.eqb curBranchSHA revSha) prevRefSha)
                     revSha m in
      let m := if QString.startsWith refName "refs/tags/"
                  && QString.endsWith refName "^{}"
                  && negb (QString.isEmpty prevRefSha)
               then delete prevRefSha m else m in
      getRefs_loop referencesList curBranchSHA revSha m
  end.

(** [Git::getRefs]: the answer and the members [mCurrentBranchName] and
    [mRefsShaMap]. *)
Definition getRefs (wd mCurrentBranchName : string)
    (mRefsShaMap : gmap string Reference)
    : Script (bool * string * gmap string Reference) :=
  '(branchLoaded, mCurrentBranchName) ← loadCurrentBranch wd mCurrentBranchName;
  if branchLoaded : bool then
    ret3 ← Git_run wd "git show-ref -d";
    if ret3.1 : bool then
      let m : gmap string Reference := ∅ in          (* mRefsShaMap.clear() *)
      ret ← getLastCommitOfBranch wd "HEAD";
      let curBranchSHA := ret.2 in
      let referencesList := QString.split ret3.2 NL in
      let m := getRefs_loop referencesList curBranchSHA "" m in
      (* mark current head (even when detached) *)
      let m := lookupOrAddReference curBranchSHA m in
      let m := alter (Reference.orType Reference.CUR_BRANCH) curBranchSHA m in
      Ret (negb (bool_decide (m = ∅)), mCurrentBranchName, m)
    else Ret (false, mCurrentBranchName, mRefsShaMap)
  else Ret (false, mCurrentBranchName, mRefsShaMap).

(** ** Diffs between commits *)

(** [Git::runDiffTreeWithRenameDetection]: the answer and [*runOutput]. *)
Definition runDiffTreeWithRenameDetection (wd runCmd : string)
    : Script (bool * string) :=
  let cmd := QString.replace runCmd "git diff-tree" "git diff-tree -C" in
  renameDetection ← Git_run wd cmd;
  let runOutput := renameDetection.2 in
  if negb renameDetection.1 then          (* retry without rename detection *)
    ret2 ← Git_run wd runCmd;
    Ret (ret2.1, if ret2.1 : bool then ret2.2 else runOutput)
  else Ret (true, runOutput).

Section Diffs.

(** [mRevCache->getCommitInfo(sha).parentsCount()]: [RevisionsCache] and
    [CommitInfo] are declared outside the sources; the number of parents is
    what the commits of the cache say about [sha]. *)
Variable parentsCount : list CommitInfo → option CommitInfo → string → nat.

(** [Git::getCommitFiles]. *)
Definition getCommitFiles (g : Git) (sha : string) : RevisionFile :=
  let r := parentsCount (commits (mRevCache g)) (wipCommit (mRevCache g)) sha in
  if negb (r =? 0)%nat && RevisionsCache.containsRevisionFile sha (mRevCache g)
  then RevisionsCache.getRevisionFile sha (mRevCache g)
  else RevisionFile.empty.

(** [Git::getDiffFiles]. *)
Definition getDiffFiles (sha diffToSha : string) (allFiles : bool) (g : Git)
    : Script (RevisionFile * Git) :=
  let r := parentsCount (commits (mRevCache g)) (wipCommit (mRevCache g)) sha in
  if (r =? 0)%nat then Ret (RevisionFile.empty, g)
  else
    let runCmd := "git diff-tree --no-color -r -m " in
    let '(mySha, runCmd) :=
      if (1 <? r)%nat && QString.isEmpty diffToSha && allFiles then
        ("ALL_MERGE_FILES" +:+ sha, runCmd +:+ sha)
      else if negb (QString.isEmpty diffToSha)
              && negb (String.eqb sha ZERO_SHA) then
        (sha, runCmd +:+ (diffToSha +:+ " " +:+ sha))
      else ("", runCmd) in
    if RevisionsCache.containsRevisionFile mySha (mRevCache g) then
      Ret (RevisionsCache.getRevisionFile mySha (mRevCache g), g)
    else
      ret ← runDiffTreeWithRenameDetection (mWorkingDir g) runCmd;
      if ret.1 : bool then liftResult (insertNewFiles mySha ret.2 g)
      else Ret (RevisionFile.empty, g).

(** [Git::getCommitDiff]. *)
Definition getCommitDiff (g : Git) (sha diffToSha : string)
    : Script (bool * string) :=
  if negb (QString.isEmpty sha) then
    let runCmd :=
      if negb (String.eqb sha ZERO_SHA) then
        "git diff-tree --no-color -r --patch-with-stat -C -m "
        +:+ (if (parentsCount (commits (mRevCache g))
                              (wipCommit (mRevCache g)) sha =? 0)%nat
             then "--root " else "")
        +:+ (diffToSha +:+ " " +:+ sha)        (* diffToSha could be empty *)
      else "git diff-index --no-color -r -m --patch-with-stat HEAD" in
    Git_run (mWorkingDir g) runCmd
  else Ret (false, "").

End Diffs.

(** ** The user *)


Module GitUserInfo.
End GitUserInfo.



(** ** The highlighter of [FullDiffWidget.cpp] *)

(** The colours of [GitQlientStyles], declared outside the sources, by the
    names of their accessors. *)
Inductive Colour : Type := Orange | Green | Red | Blue.

(** What [highlightBlock] sets of a [QTextCharFormat]. *)
Record QTextCharFormat : Type := mkQTextCharFormat {
  foreground : option Colour;
  extraBold : bool
}.

(** [DiffHighlighter::highlightBlock]: the new block state and the format
    [myFormat]; the format is applied to the whole block, from 0 to
    [text.length()], when the text is not empty and the format is valid. *)
Definition highlightBlock (previousBlockState : Z) (text : string)
    : Z * option QTextCharFormat :=
  (* state is used to count paragraphs, starting from 0 *)
  let state := previousBlockState + 1 in
  match text with
  | EmptyString => (state, None)
  | String firstChar _ =>
      let myFormat := mkQTextCharFormat None false in
      let myFormat :=
        if Ascii.eqb firstChar "@" then mkQTextCharFormat (Some Orange) true
        else if Ascii.eqb firstChar "+" then
          mkQTextCharFormat (Some Green) (extraBold myFormat)
        else if Ascii.eqb firstChar "-" then
          mkQTextCharFormat (Some Red) (extraBold myFormat)
        else if Ascii.eqb firstChar "c" || Ascii.eqb firstChar "d"
                || Ascii.eqb firstChar "i" || Ascii.eqb firstChar "n"
                || Ascii.eqb firstChar "o" || Ascii.eqb firstChar "r"
                || Ascii.eqb firstChar "s" then
          if QString.startsWith text "diff --git a/" then
            mkQTextCharFormat (Some Blue) true
          else if QString.startsWith text "copy "
                  || QString.startsWith text "index "
                  || QString.startsWith text "new "
                  || QString.startsWith text "old "
                  || QString.startsWith text "rename "
                  || QString.startsWith text "similarity " then
            mkQTextCharFormat (Some Blue) (extraBold myFormat)
          else myFormat
        else myFormat in
      (state, Some myFormat)
  end.

(** ** Tags that are not pushed *)

(** The loop of [Git::getLocalTags]. *)
Fixpoint getLocalTags_loop (tagsTmp tags : list string) : list string :=
  match tagsTmp with
  | [] => tags
  | tag :: tagsTmp =>
      if negb (String.eqb tag (String NL "")) && negb (QString.isEmpty tag)
         && QString.contains tag "[new tag]"
      then getLocalTags_loop tagsTmp
             (tags ++ [List.last (QString.splitStr tag " -> ") ""])
      else getLocalTags_loop tagsTmp tags
  end.

(** [Git::getLocalTags]. *)
Definition getLocalTags (wd : string) : Script (list string) :=
  ret ← Git_run wd "git push --tags --dry-run";
  Ret (if ret.1 : bool then
         getLocalTags_loop (QString.fields NL ret.2) []
       else []).

(** * Notions used in the statements *)

(** The directory key and the file key of a path. *)
Definition dirOf (name : string) : string :=
  QString.left name (Z.to_nat (QString.lastIndexOf name "/" + 1)).
Definition fileOf (name : string) : string :=
  QString.mid name (Z.to_nat (QString.lastIndexOf name "/" + 1)).

(** Looking a key up in a table, appending it when it is absent. *)
Definition internKey (m : gmap string nat) (l : list string) (k : string)
    : nat * gmap string nat * list string :=
  match m !! k with
  | Some i => (i, m, l)
  | None => (length l, <[k := length l]> m, l ++ [k])
  end.

(** What [appendFileName] does once the loader is bound to [r]. *)
Definition interned (r : addr) (name : string) (fl : FileNamesLoader)
    (w : World) : FileNamesLoader * World :=
  let '(d, dm, dl) := internKey (mDirNamesMap w) (mDirNames w) (dirOf name) in
  let '(n, fm, fnl) := internKey (mFileNamesMap w) (mFileNames w) (fileOf name) in
  (mkFileNamesLoader (Some r) (rfDirs fl ++ [d]) (rfNames fl ++ [n]),
   mkWorld dm fm dl fnl (revFiles w)).

(** The world with the object at [r] replaced by [f]. *)
Definition setObj (r : addr) (f : RevisionFile) (w : World) : World :=
  set_revFiles (<[r := f]> (revFiles w)) w.
Arguments setObj : simpl never.

(** The maps send every key to a position of its table that holds it. *)
Definition tables_ok (w : World) : Prop :=
  (∀ k i, mDirNamesMap w !! k = Some i → mDirNames w !! i = Some k) ∧
  (∀ k i, mFileNamesMap w !! k = Some i → mFileNames w !! i = Some k).

(** The display string of [setExtStatus] for the fields of a row. *)
Definition extStatusInfo (tok orig dest : string) : string :=
  orig +:+ " --> " +:+ dest +:+ " (" +:+
  QString.number (QString.toInt (QString.remove_first tok)) +:+ "%)".

(** The RevisionFile after one entry of [setExtStatus]. *)
Definition extEntry (flag parNum : Z) (ext : string) (f : RevisionFile)
    : RevisionFile :=
  RevisionFile.appendExtStatus ext
    (RevisionFile.setStatusFlag flag
       (RevisionFile.mergeParent_append parNum f)).

(** The faults that are an index past the end of the line being parsed. *)
Definition onLine (s : fault) : bool :=
  match s with
  | line_0 | line_1 | line_97 | line_98 => true
  | _ => false
  end.

(** A computation that never indexes the line out of range. *)
Definition offLine {A} (m : result A) : Prop :=
  ∀ s, m = Fault s → onLine s = false.

(** The records as the loop of [parseDiffFormat] delimits them: the first
    ends at the first newline of the buffer; each later one starts right
    after the previous terminator and ends at the first newline found from
    99 characters past that terminator on.  [startPos] and [endPos] are the
    loop variables. *)
Fixpoint records_loop (fuel : nat) (buf : string) (startPos endPos : Z)
    : list string :=
  if endPos =? -1 then []
  else
    match fuel with
    | O => []
    | S fuel =>
        QString.mid2 buf (Z.to_nat startPos) (Z.to_nat (endPos - startPos))
        :: records_loop fuel buf (endPos + 1)
                        (QString.indexOf buf NL (endPos + 99))
    end.

Definition records (buf : string) : list string :=
  records_loop (S (QString.size buf)) buf 0 (QString.indexOf buf NL 0).

(** A change record begins with a colon. *)
Definition isChange (line : string) : bool :=
  match QString.at_ line 0 with
  | Some c => Ascii.eqb c ":"
  | None => false
  end.

(** The body of the loop over a list of records, [parNum] being the parent
    counter. *)
Fixpoint parseRecords (r : addr) (recs : list string) (parNum : Z)
    (fl : FileNamesLoader) (w : World) : result (FileNamesLoader * World) :=
  match recs with
  | [] => Ok (fl, w)
  | line :: recs =>
      c0 ← fromOption line_0 (QString.at_ line 0);
      if Ascii.eqb c0 ":" then
        '(fl, w) ← parseDiffFormatLine r line parNum fl w;
        parseRecords r recs parNum fl w
      else parseRecords r recs (parNum + 1) fl w
  end.

(** The value of the parent counter when record [i] is reached: one more
    than the number of records before it that are no change records. *)
Definition parentCounter (recs : list string) (i : nat) : Z :=
  1 + Z.of_nat (length (filter (λ l, isChange l = false) (take i recs))).

(** The loader's buffers have one file index per directory index; a bound
    loader points at a live object and an unbound one has empty buffers. *)
Definition loader_wf (fl : FileNamesLoader) (w : World) : Prop :=
  length (rfDirs fl) = length (rfNames fl) ∧
  match rf fl with
  | Some r0 => is_Some (revFiles w !! r0)
  | None => rfDirs fl = []
  end.

(** The path a pair of indices stands for. *)
Definition resolve (w : World) (d n : nat) : option string :=
  dn ← mDirNames w !! d; fn ← mFileNames w !! n; Some (dn +:+ fn).

(** The buffered index pairs stand for the paths [P], in order. *)
Definition bufferDenotes (w : World) (fl : FileNamesLoader) (P : list string)
    : Prop :=
  Forall2 (λ dn p, resolve w dn.1 dn.2 = Some p)
          (zip (rfDirs fl) (rfNames fl)) P.

(** The entries of the flushed RevisionFile [f] are the paths [P], in order. *)
Definition stored (w : World) (f : RevisionFile) (P : list string) : Prop :=
  RevisionFile.count f = length P ∧
  ∀ i p, P !! i = Some p → filePath w f i = Ok p.

(** The entries of the object at [r] are the paths [P]: still in the buffers
    when the loader is bound to [r], in the packed storage otherwise. *)
Definition pathsOf (r : addr) (fl : FileNamesLoader) (w : World)
    (P : list string) : Prop :=
  ∃ f, revFiles w !! r = Some f ∧
       if decide (rf fl = Some r) then bufferDenotes w fl P else stored w f P.

(** The tables of [w1] extend those of [w]. *)
Definition extends (w w1 : World) : Prop :=
  mDirNames w `prefix_of` mDirNames w1 ∧
  mFileNames w `prefix_of` mFileNames w1.

(** The paths [setExtStatus] appends for a row, and [parseDiffFormatLine]
    for a change record, when they run to the end. *)
Definition rowPaths (rowSt : string) : list string :=
  match QString.split rowSt TAB with
  | [tok; orig; dest] =>
      match QString.at_ (QString.remove_first tok) 0 with
      | Some c => if Ascii.eqb c "R" then [dest; orig] else [dest]
      | None => []
      end
  | _ => []
  end.

Definition linePaths (line : string) : list string :=
  match QString.at_ line 1, QString.at_ line 98 with
  | Some c1, o98 =>
      if Ascii.eqb c1 ":" then [QString.section_last line TAB]
      else match o98 with
           | Some c98 => if Ascii.eqb c98 TAB then [QString.mid line 99]
                         else rowPaths (QString.mid line 97)
           | None => []
           end
  | None, _ => []
  end.

(** The name tables and their maps are the same in [w'] as in [w]. *)
Definition sameTables (w w' : World) : Prop :=
  mDirNames w' = mDirNames w ∧ mFileNames w' = mFileNames w ∧
  mDirNamesMap w' = mDirNamesMap w ∧ mFileNamesMap w' = mFileNamesMap w.

(** What the loop that marks the staged entries leaves as it is: the name
    tables, and of the object at [r] the paths, the parents and the number
    of statuses. *)
Definition marked (r : addr) (w w' : World) : Prop :=
  sameTables w w' ∧
  ∀ f, revFiles w !! r = Some f →
       ∃ f', revFiles w' !! r = Some f' ∧ pathsIdx f' = pathsIdx f ∧
             mergeParent f' = mergeParent f ∧
             length (status f') = length (status f).

(** Whether the path of entry [i] of [f] is among the entries of the staged
    parse [c], as the loop of [fakeWorkDirRevFile] finds out. *)
Definition staged (w : World) (f c : RevisionFile) (i : nat) : bool :=
  match p ← filePath w f i; findFileIndex w c p with
  | Ok found => negb (found =? -1)
  | Fault _ => false
  end.

(** The status the loop of [fakeWorkDirRevFile] leaves at entry [i]: In-Index
    is ORed on when the path is staged, and Conflict as well when the staged
    parse has a conflict at position [i]. *)
Definition markAt (w : World) (f c : RevisionFile) (i : nat) (st : Z) : Z :=
  if staged w f c i then
    Z.lor (if RevisionFile.statusCmp c i RevisionFile.CONFLICT
           then Z.lor st RevisionFile.CONFLICT else st)
          RevisionFile.IN_INDEX
  else st.

(** The statuses after the iterations [i], ..., [i + todo - 1] of the loop. *)
Fixpoint markStatuses (w : World) (f c : RevisionFile) (i todo : nat)
    (sts : list Z) : list Z :=
  match todo with
  | O => sts
  | S todo =>
      markStatuses w f c (S i) todo
        (match sts !! i with
         | Some st => <[i := markAt w f c i st]> sts
         | None => sts
         end)
  end.

(** What an object holds besides its packed paths. *)
Definition sameMeta (f f' : RevisionFile) : Prop :=
  status f' = status f ∧ extStatus f' = extStatus f ∧
  mergeParent f' = mergeParent f ∧ onlyModified f' = onlyModified f.

(** Every object of [w] is still alive in [w1], with the same statuses and
    parents. *)
Definition metaKept (w w1 : World) : Prop :=
  ∀ r f, revFiles w !! r = Some f →
         ∃ f', revFiles w1 !! r = Some f' ∧ sameMeta f f'.

(** Every object but the one at [r] keeps its statuses and parents. *)
Definition metaKeptBut (r : addr) (w w1 : World) : Prop :=
  ∀ r' f, r' ≠ r → revFiles w !! r' = Some f →
          ∃ f', revFiles w1 !! r' = Some f' ∧ sameMeta f f'.

(** The object at [r] can take entries: its entries so far are [P], and the
    loader is bound to it unless it has none yet. *)
Definition ready (r : addr) (fl : FileNamesLoader) (w : World)
    (P : list string) (f : RevisionFile) : Prop :=
  tables_ok w ∧ loader_wf fl w ∧ pathsOf r fl w P ∧
  (rf fl = Some r ∨ P = []) ∧ revFiles w !! r = Some f.

(** From [(fl, w)] to [(fl', w')] the object at [r] took the entries [new],
    with the parent indices [pars], after the entries [P] it had. *)
Definition stepped (r : addr) (fl : FileNamesLoader) (w : World)
    (P : list string) (f : RevisionFile) (new : list string) (pars : list Z)
    (fl' : FileNamesLoader) (w' : World) : Prop :=
  ∃ f', ready r fl' w' (P ++ new) f' ∧ extends w w' ∧
        length pars = length new ∧
        pathsIdx f' = pathsIdx f ∧
        mergeParent f' = mergeParent f ++ pars ∧
        length (status f') = (length (status f) + length new)%nat ∧
        metaKeptBut r w w' ∧
        (∀ r' P', r' ≠ r → pathsOf r' fl w P' → pathsOf r' fl' w' P').

(** The paths and the parent indices the records of a buffer append, in
    order, when the parse runs to the end; [parNum] is the parent counter
    in front of the first record. *)
Fixpoint recordsPaths (recs : list string) : list string :=
  match recs with
  | [] => []
  | line :: recs =>
      if isChange line then linePaths line ++ recordsPaths recs
      else recordsPaths recs
  end.

Fixpoint recordsParents (recs : list string) (parNum : Z) : list Z :=
  match recs with
  | [] => []
  | line :: recs =>
      if isChange line
      then replicate (length (linePaths line)) parNum ++ recordsParents recs parNum
      else recordsParents recs (parNum + 1)
  end.

(** The number of records among [recs] that are no change records. *)
Definition separators (recs : list string) : nat :=
  length (filter (λ l, isChange l = false) recs).

(** The text the records come from: each followed by its newline. *)
Fixpoint joinRecords (recs : list string) : string :=
  match recs with
  | [] => ""
  | line :: recs => line +:+ String NL (joinRecords recs)
  end.

(** The newline-terminated records of a buffer: its fields between
    newlines, without the text after the last newline. *)
Definition newlineRecords (buf : string) : list string :=
  removelast (QString.fields NL buf).

(** The RevisionFile [f] holds the entries [P] with the parent indices
    [pars]: as many packed paths, statuses and parents as entries, the
    paths and parents in the order given. *)
Definition holds (w : World) (f : RevisionFile) (P : list string)
    (pars : list Z) : Prop :=
  RevisionFile.count f = length (mergeParent f) ∧
  length (status f) = length (mergeParent f) ∧
  mergeParent f = pars ∧
  stored w f P.



(** The git queries of [updateWipRevision] succeed: the status, the head,
    and, when there is a head, the two index diffs. *)
Definition queriesSucceed (run : string → string → bool * string) (wd : string)
    : Prop :=
  (run wd "git status").1 = true ∧
  (run wd "git rev-parse --revs-only HEAD").1 = true ∧
  let head := QString.trimmed (run wd "git rev-parse --revs-only HEAD").2 in
  QString.isEmpty head = false →
  (run wd ("git diff-index " +:+ head)).1 = true ∧
  (run wd ("git diff-index --cached " +:+ head)).1 = true.

(** Entry [j] of [f] has the directory string [dr] and the file string
    [nm]: what the loop of [findFileIndex] compares. *)
Definition entryIs (w : World) (f : RevisionFile) (j : nat) (dr nm : string)
    : Prop :=
  ∃ d n, RevisionFile.dirAt f j = Some d ∧ RevisionFile.nameAt f j = Some n ∧
         mDirNames w !! d = Some dr ∧ mFileNames w !! n = Some nm.

(** A directory string is empty or ends with its last slash; a file string
    has no slash. *)
Definition isDir (d : string) : Prop :=
  Z.to_nat (QString.lastIndexOf d "/" + 1) = QString.size d.
Definition isFile (n : string) : Prop := QString.rfind "/" n = None.

(** The name tables hold directory strings and file strings. *)
Definition shaped (w : World) : Prop :=
  Forall isDir (mDirNames w) ∧ Forall isFile (mFileNames w).

(** The position of the first occurrence of [name] in [P], or [-1]. *)
Definition firstIndex (name : string) (P : list string) : Z :=
  match list_find (λ p, p = name) P with
  | Some (i, _) => Z.of_nat i
  | None => -1
  end.

(** The index diff [updateWipRevision] hands to the synthesizer: the answer
    of [git diff-index] when the repository has a head, and what
    [workingDirInfo] held before when it has none. *)
Definition wipDiffIndex (run : string → string → bool * string) (g : Git)
    : string :=
  let head := QString.trimmed
                (run (mWorkingDir g) "git rev-parse --revs-only HEAD").2 in
  if QString.isEmpty head then diffIndex (workingDirInfo g)
  else (run (mWorkingDir g) ("git diff-index " +:+ head)).2.

(** The working-directory files, whose paths are [P], list [it] as deleted:
    [it] is among the paths and the entry of its first occurrence has the
    Deleted flag. *)
Definition listedDeleted (files : RevisionFile) (P : list string)
    (it : string) : bool :=
  negb (QString.isEmpty it) && negb (firstIndex it P =? -1)
  && RevisionFile.statusCmp files (Z.to_nat (firstIndex it P))
                            RevisionFile.DELETED.

(** What [updateIndex] does once the selection is split into [toAdd] and
    [toRemove]: the actions, and the answer. *)
Definition stage (env : Outside) (h : list Action) (wd : string)
    (toAdd toRemove : list string) : result bool * list Action :=
  let rm := Run wd ("git rm --cached --ignore-unmatch -- "
                    +:+ quoteList toRemove) in
  let add := Run wd ("git add -- " +:+ quoteList toAdd) in
  let h1 := if QStringList.isEmpty toRemove then h else h ++ [rm] in
  if negb (QStringList.isEmpty toRemove) && negb (env h rm).1
  then (Ok false, h1)
  else if QStringList.isEmpty toAdd then (Ok true, h1)
       else (Ok (env h1 add).1, h1 ++ [add]).

(** The paths among [P], the first of which has position [i], that
    [getOtherFiles] keeps: those that are not selected and whose entry has
    the In-Index flag. *)
Fixpoint stagedUnselected (files : RevisionFile) (selFiles : list string)
    (i : nat) (P : list string) : list string :=
  match P with
  | [] => []
  | p :: P =>
      (if (QStringList.indexOf selFiles p =? -1)
          && RevisionFile.statusCmp files i RevisionFile.IN_INDEX
       then [p] else [])
      ++ stagedUnselected files selFiles (S i) P
  end.

(** An action that runs a git command. *)
Definition isRun (act : Action) : Prop :=
  match act with Run _ _ => True | _ => False end.

(** The commit command of [commitFiles]. *)
Definition commitCommand (wd msgFile : string) (amend : bool) (author : string)
    : Action :=
  Run wd ("git commit"
          +:+ (if amend then
                 " --amend" +:+
                 (if negb (QString.isEmpty author)
                  then " --author " +:+ String DQUOTE author +:+ String DQUOTE ""
                  else "")
               else "")
          +:+ " -F " +:+ quote msgFile).


(** A line of an answer of git: not empty, and without a newline. *)
Definition isLine (t : string) : Prop := t ≠ "" ∧ QString.find NL t = None.

(** The line [git config --name-only] prints for a key of [.gitmodules]:
    the section, the name, and the rest of the key. *)
Definition configLine (name rest : string) : string :=
  "submodule." +:+ name +:+ String "." rest.

(** A Reference has the flag of a kind exactly when it has a name of that
    kind. *)
Definition flagged (r : Reference) : Prop :=
  (tags r ≠ [] ↔ Z.land (type r) Reference.TAG ≠ 0) ∧
  (branches r ≠ [] ↔ Z.land (type r) Reference.BRANCH ≠ 0) ∧
  (remoteBranches r ≠ [] ↔ Z.land (type r) Reference.RMT_BRANCH ≠ 0) ∧
  (refs r ≠ [] ↔ Z.land (type r) Reference.REF ≠ 0).

(** A status without the In-Index flag, and an object all of whose statuses
    are without it. *)
Definition unstaged (st : Z) : Prop := Z.land st RevisionFile.IN_INDEX = 0.
Definition cleanAt (r : addr) (w : World) : Prop :=
  ∀ f, revFiles w !! r = Some f → Forall unstaged (status f).

(** The format of a line of a diff by what the line starts with: a hunk
    header, an added line, a removed line, the header of a file, or one of
    the lines git prints under it. *)
Definition formatByPrefix (text : string) : QTextCharFormat :=
  if QString.startsWith text "@" then mkQTextCharFormat (Some Orange) true
  else if QString.startsWith text "+" then mkQTextCharFormat (Some Green) false
  else if QString.startsWith text "-" then mkQTextCharFormat (Some Red) false
  else if QString.startsWith text "diff --git a/"
  then mkQTextCharFormat (Some Blue) true
  else if QString.startsWith text "copy " || QString.startsWith text "index "
          || QString.startsWith text "new " || QString.startsWith text "old "
          || QString.startsWith text "rename "
          || QString.startsWith text "similarity "
  then mkQTextCharFormat (Some Blue) false
  else mkQTextCharFormat None false.


(** Every position of a name table is the value its map gives to the string
    held there. *)
Definition indexed (w : World) : Prop :=
  (∀ i k, mDirNames w !! i = Some k → mDirNamesMap w !! k = Some i) ∧
  (∀ i k, mFileNames w !! i = Some k → mFileNamesMap w !! k = Some i).

(** No name table holds a string twice, and entries with the same path, of
    whatever objects, hold the same pair of indices. *)
Definition storedOnce (w : World) : Prop :=
  NoDup (mDirNames w) ∧ NoDup (mFileNames w) ∧
  ∀ f f' i j p, filePath w f i = Ok p → filePath w f' j = Ok p →
                RevisionFile.dirAt f i = RevisionFile.dirAt f' j ∧
                RevisionFile.nameAt f i = RevisionFile.nameAt f' j.


(** A line of the answer of a dry-run push: the report of a new tag, whose
    name follows the arrow, or some other text. *)
Inductive PushLine : Type :=
  | NewTag (report name : string)
  | OtherLine (text : string).

Definition pushText (l : PushLine) : string :=
  match l with
  | NewTag report name => report +:+ " -> " +:+ name
  | OtherLine text => text
  end.

Definition pushTag (l : PushLine) : option string :=
  match l with
  | NewTag _ name => Some name
  | OtherLine _ => None
  end.

(** The lines have no newline; a report says "[new tag]", and neither it nor
    the name holds a ">"; other lines do not say "[new tag]". *)
Definition pushLine_ok (l : PushLine) : Prop :=
  match l with
  | NewTag report name =>
      QString.contains report "[new tag]" = true ∧
      QString.find NL report = None ∧ QString.find NL name = None ∧
      QString.find ">" report = None ∧ QString.find ">" name = None
  | OtherLine text =>
      QString.contains text "[new tag]" = false ∧
      QString.find NL text = None
  end.

(** * Sample inputs *)

(** Lines as [git diff-index] and [git diff-tree -r -C]
    print them: two modes, two object names, then the status at offset 97. *)

Module Sample.

Definition sha : string := "0123456789abcdef0123456789abcdef01234567".

(** The 97 characters in front of the status. *)
Definition rawPrefix : string :=
  ":100644 100644 " +:+ sha +:+ " " +:+ sha +:+ " ".

(** A fast-path line: status letter, tab, path. *)
Definition changeLine (st : ascii) (path : string) : string :=
  rawPrefix +:+ String st (String TAB path).

(** A slow-path line: status token, tab, origin, tab, destination. *)
Definition renameLine (tok orig dest : string) : string :=
  rawPrefix +:+ tok +:+ String TAB orig +:+ String TAB dest.

(** A buffer of newline-terminated lines. *)
Fixpoint unlines (ls : list string) : string :=
  match ls with
  | [] => ""
  | l :: ls => l +:+ String NL (unlines ls)
  end.

Definition renameRow : string :=
  "R90" +:+ String TAB "src/old.txt" +:+ String TAB "src/new.txt".

End Sample.

(** The output of [git diff-tree -r -m] for a merge of two parents that
    each changed one file: the commit name in front of the changes against
    each parent. *)
Definition mergesOutput : string :=
  Sample.unlines [Sample.sha; Sample.changeLine "M" "a.txt";
                  Sample.sha; Sample.changeLine "M" "b.txt"].

(** A [Git] that has loaded nothing yet. *)
Definition emptyGit : Git :=
  mkGit emptyWorld RevisionsCache.empty (mkWorkingDirInfo "" "" []) "" false [].

(** A working directory with a.txt and x.txt changed and u.txt untracked;
    staged are a.txt, w.txt and x.txt, the latter unmerged. *)
Definition stagedConflict : WorkingDirInfo :=
  mkWorkingDirInfo
    (Sample.unlines [Sample.changeLine "M" "a.txt"; Sample.changeLine "M" "x.txt"])
    (Sample.unlines [Sample.changeLine "M" "a.txt"; Sample.changeLine "M" "w.txt";
                     Sample.changeLine "U" "x.txt"])
    ["u.txt"].

(** The working directory of the spec's example: x.txt modified, and staged
    unmerged. *)
Definition singleConflict : WorkingDirInfo :=
  mkWorkingDirInfo
    (Sample.unlines [Sample.changeLine "M" "x.txt"])
    (Sample.unlines [Sample.changeLine "U" "x.txt"])
    [].




(** Name tables with one directory and two files, and a RevisionFile whose
    entries are src/a.txt and src/b.txt. *)
Definition twoNames : World :=
  mkWorld {[ "src/" := 0%nat ]} {[ "a.txt" := 0%nat; "b.txt" := 1%nat ]}
          ["src/"] ["a.txt"; "b.txt"] ∅.
Definition twoEntries : RevisionFile :=
  mkRevisionFile [0; 0; 0; 1]%nat [RevisionFile.MODIFIED; RevisionFile.MODIFIED]
                 [] [1; 1] true.

(** The output of [git diff-tree -r] for a commit that changed three
    files. *)
Definition threeChanges : string :=
  Sample.unlines [Sample.changeLine "M" "src/a.txt";
                  Sample.changeLine "A" "README";
                  Sample.changeLine "D" "src/b.txt"].

(** A repository with the head abc, a.txt modified in the working tree and
    u.txt untracked: the answers of git to the queries of
    [updateWipRevision]. *)
Definition changedTree (wd cmd : string) : bool * string :=
  if bool_decide (cmd = "git rev-parse --revs-only HEAD")
  then (true, "abc" +:+ String NL "")
  else if bool_decide (cmd = "git diff-index abc")
  then (true, Sample.unlines [Sample.changeLine "M" "a.txt"])
  else if bool_decide (cmd = "git status") then (true, "")
  else if bool_decide (cmd = "git diff-index --cached abc") then (true, "")
  else (true, Sample.unlines ["u.txt"]).

(** A session in which src/a.txt is modified and src/b.txt deleted, both
    staged: the working-directory RevisionFile is in the cache. *)
Definition twoStaged : RevisionFile :=
  mkRevisionFile [0; 0; 0; 1]%nat
    [Z.lor RevisionFile.MODIFIED RevisionFile.IN_INDEX;
     Z.lor RevisionFile.DELETED RevisionFile.IN_INDEX]
    [] [1; 1] false.
Definition stagedTree : Git :=
  mkGit twoNames (mkRevisionsCache None {[ ZERO_SHA := twoStaged ]} [] None)
        (mkWorkingDirInfo "" "" []) "/repo" false [].

(** An outside where every action succeeds, without output. *)
Definition allSucceed : Outside := λ _ _, (true, "").

(** A repository on the branch master whose head commit also carries the
    annotated tag v1.0: the answers of git to the queries of [getRefs]. *)
Definition tagObject : string := "fedcba9876543210fedcba9876543210fedcba98".
Definition refsOutside : Outside := λ _ act,
  match act with
  | Run _ cmd =>
      if bool_decide (cmd = "git branch")
      then (true, "* master" +:+ String NL "")
      else if bool_decide (cmd = "git show-ref -d")
      then (true, joinRecords [Sample.sha +:+ " refs/heads/master";
                               tagObject +:+ " refs/tags/v1.0";
                               Sample.sha +:+ " refs/tags/v1.0^{}"])
      else if bool_decide (cmd = "git rev-parse HEAD")
      then (true, Sample.sha +:+ String NL "")
      else (false, "")
  | _ => (false, "")
  end.


(** A dry-run push that would create the tags v1.0 and v1.1. *)
Definition pushOutside : Outside := λ _ act,
  match act with
  | Run _ cmd =>
      if bool_decide (cmd = "git push --tags --dry-run")
      then (true, joinRecords ["To example.org:repo.git";
                               " * [new tag]         v1.0 -> v1.0";
                               " * [new tag]         v1.1 -> v1.1"])
      else (false, "")
  | _ => (false, "")
  end.

(** * Properties *)

(** ** The result monad *)

Lemma bind_Ok {A B} (m : result A) (k : A → result B) (b : B) :
  m ≫= k = Ok b → ∃ a, m = Ok a ∧ k a = Ok b.
Proof. destruct m as [a|s]; simpl; [eauto | discriminate]. Qed.

Lemma fromOption_Ok {A} (s : fault) (o : option A) (a : A) :
  fromOption s o = Ok a → o = Some a.
Proof. destruct o; simpl; congruence. Qed.

(** Inversion of a successful monadic computation, one bind at a time. *)
Ltac inv_bind H :=
  let a := fresh "a" in
  let Ha := fresh "Ha" in
  apply bind_Ok in H; destruct H as (a & Ha & H).

(** ** The interner *)

Lemma appendFileName_bound r name fl w :
  rf fl = Some r ∨ rf fl = None →
  appendFileName r name fl w = Ok (interned r name fl w).
Proof.
  intros Hb. unfold appendFileName, interned, internKey, dirOf, fileOf.
  destruct fl as [b ds ns], w as [dm fm dl fnl h]; simpl in *.
  destruct (decide (b = Some r)) as [->|Hne]; simpl.
  - destruct (dm !! _); simpl; destruct (fm !! _); reflexivity.
  - destruct Hb as [?| ->]; [done|]. simpl.
    destruct (dm !! _); simpl; destruct (fm !! _); reflexivity.
Qed.

Lemma appendFileName_rebind r name fl w :
  appendFileName r name fl w =
  '(fl0, w0) ← (if decide (rf fl = Some r) then Ok (fl, w)
                else '(fl', w') ← flushFileNames fl w;
                     Ok (mkFileNamesLoader (Some r) (rfDirs fl') (rfNames fl'), w'));
  Ok (interned r name fl0 w0).
Proof.
  unfold appendFileName, interned, internKey, dirOf, fileOf.
  destruct (decide (rf fl = Some r)) as [Hb|Hb]; simpl.
  - destruct w as [dm fm dl fnl h]; simpl.
    destruct (dm !! _); simpl; destruct (fm !! _); simpl;
      rewrite ?Hb; reflexivity.
  - destruct (flushFileNames fl w) as [[fl' [dm fm dl fnl h]]|s]; simpl; [|done].
    destruct (dm !! _); simpl; destruct (fm !! _); reflexivity.
Qed.

Lemma internKey_lookup m l k i m' l' :
  internKey m l k = (i, m', l') → m' !! k = Some i.
Proof.
  unfold internKey. destruct (m !! k) eqn:E; intros [= <- <- <-]; [done|].
  apply lookup_insert_eq.
Qed.

Lemma internKey_again m l k i m' l' :
  internKey m l k = (i, m', l') → internKey m' l' k = (i, m', l').
Proof.
  intros H. unfold internKey at 1. by rewrite (internKey_lookup _ _ _ _ _ _ H).
Qed.

Lemma internKey_grows m l k i m' l' :
  internKey m l k = (i, m', l') →
  l `prefix_of` l' ∧ (length l' ≤ S (length l))%nat ∧
  (∀ k0 i0, m !! k0 = Some i0 → m' !! k0 = Some i0) ∧
  (l' = if decide (is_Some (m !! k)) then l else l ++ [k]).
Proof.
  unfold internKey. destruct (m !! k) eqn:E; intros [= <- <- <-].
  - rewrite decide_True by eauto. split_and!; [done | lia | done | done].
  - rewrite decide_False by (intros [? ?]; done).
    split_and!; [by apply prefix_app_r | rewrite length_app; simpl; lia | | done].
    intros k0 i0 H0. rewrite lookup_insert_ne; [done | congruence].
Qed.

(** ** The flush protocol *)

Lemma flushFileNames_unbound fl w :
  rf fl = None → flushFileNames fl w = Ok (fl, w).
Proof. unfold flushFileNames. by intros ->. Qed.

Lemma flushFileNames_unbinds fl w fl' w' :
  flushFileNames fl w = Ok (fl', w') → rf fl' = None.
Proof.
  unfold flushFileNames. destruct (rf fl) eqn:E.
  - intros H. inv_bind H. inv_bind H. inv_bind H. by injection H as <- <-.
  - by intros [= <- <-].
Qed.

Lemma flushFileNames_bound fl w r f :
  rf fl = Some r → revFiles w !! r = Some f →
  length (rfDirs fl) = length (rfNames fl) →
  flushFileNames fl w =
    Ok (FileNamesLoader.empty,
        set_revFiles
          (<[r := RevisionFile.set_pathsIdx (rfDirs fl ++ rfNames fl) f]>
             (revFiles w)) w).
Proof.
  intros Hr Hf Hlen. unfold flushFileNames, update, deref. rewrite Hr, Hf.
  simpl. rewrite decide_True by lia. simpl.
  by rewrite Hlen, firstn_all.
Qed.

Lemma count_packed (f : RevisionFile) (dirs names : list nat) :
  pathsIdx f = dirs ++ names → length dirs = length names →
  RevisionFile.count f = length dirs ∧
  (∀ i, (i < length dirs)%nat → RevisionFile.dirAt f i = dirs !! i) ∧
  (∀ i, RevisionFile.nameAt f i = names !! i).
Proof.
  intros Hp Hlen. unfold RevisionFile.dirAt, RevisionFile.nameAt, RevisionFile.count.
  rewrite Hp, length_app, <- Hlen.
  replace (length dirs + length dirs)%nat with (length dirs * 2)%nat by lia.
  rewrite Nat.div_mul by lia. split_and!.
  - done.
  - intros i Hi. by rewrite lookup_app_l.
  - intros i. rewrite lookup_app_r by lia. f_equal. lia.
Qed.

(** C10. Flushing a loader that is bound to no RevisionFile changes nothing,
    so flushing twice in a row is flushing once (also when the first flush
    had work to do: it leaves the loader unbound).  A flush of a loader bound
    to a live RevisionFile writes the buffered directory indices followed by
    the buffered file indices into that RevisionFile's packed storage, as one
    block from which [count], [dirAt] and [nameAt] read the entries back,
    empties both buffers and unbinds the loader. *)
Theorem flushFileNames_idempotent (fl : FileNamesLoader) (w : World) :
  (rf fl = None → flushFileNames fl w = Ok (fl, w)) ∧
  ('(fl', w') ← flushFileNames fl w; flushFileNames fl' w') = flushFileNames fl w ∧
  (∀ r f, rf fl = Some r → revFiles w !! r = Some f →
     length (rfDirs fl) = length (rfNames fl) →
     ∃ f' w',
       flushFileNames fl w = Ok (mkFileNamesLoader None [] [], w') ∧
       revFiles w' = <[r := f']> (revFiles w) ∧
       mDirNames w' = mDirNames w ∧ mFileNames w' = mFileNames w ∧
       mDirNamesMap w' = mDirNamesMap w ∧ mFileNamesMap w' = mFileNamesMap w ∧
       pathsIdx f' = rfDirs fl ++ rfNames fl ∧
       status f' = status f ∧ extStatus f' = extStatus f ∧
       mergeParent f' = mergeParent f ∧ onlyModified f' = onlyModified f ∧
       RevisionFile.count f' = length (rfDirs fl) ∧
       (∀ i, (i < length (rfDirs fl))%nat →
             RevisionFile.dirAt f' i = rfDirs fl !! i ∧
             RevisionFile.nameAt f' i = rfNames fl !! i)).
Proof.
  split; [apply flushFileNames_unbound|]. split.
  - destruct (flushFileNames fl w) as [[fl' w']|s] eqn:E; simpl; [|done].
    rewrite flushFileNames_unbound; [done|]. eapply flushFileNames_unbinds, E.
  - intros r f Hr Hf Hlen.
    eexists _, _. split; [by apply flushFileNames_bound|].
    destruct (count_packed
                (RevisionFile.set_pathsIdx (rfDirs fl ++ rfNames fl) f)
                (rfDirs fl) (rfNames fl) eq_refl Hlen) as (Hc & Hd & Hn).
    simpl. split_and!; try done.
    intros i Hi. split; [by apply Hd | apply Hn].
Qed.

Lemma flushFileNames_idempotent_witness :
  ∃ f' w',
    flushFileNames (mkFileNamesLoader (Some 0%nat) [0; 1]%nat [2; 3]%nat)
                   (declare 0 emptyWorld)
    = Ok (mkFileNamesLoader None [] [], w') ∧
    revFiles w' !! 0%nat = Some f' ∧
    pathsIdx f' = [0; 1; 2; 3]%nat ∧ RevisionFile.count f' = 2%nat.
Proof.
  destruct (flushFileNames_idempotent
              (mkFileNamesLoader (Some 0%nat) [0; 1]%nat [2; 3]%nat)
              (declare 0 emptyWorld)) as (_ & _ & H).
  destruct (H 0%nat RevisionFile.empty eq_refl eq_refl eq_refl)
    as (f' & w' & H1 & H2 & _ & _ & _ & _ & H3 & _ & _ & _ & _ & H4 & _).
  exists f', w'. split; [exact H1|]. split; [|split; [exact H3 | exact H4]].
  rewrite H2. apply lookup_insert_eq.
Defined.

(** ** Interning *)

Lemma interned_tables r name fl w :
  ∃ d n dm fm dl fnl,
    internKey (mDirNamesMap w) (mDirNames w) (dirOf name) = (d, dm, dl) ∧
    internKey (mFileNamesMap w) (mFileNames w) (fileOf name) = (n, fm, fnl) ∧
    interned r name fl w =
      (mkFileNamesLoader (Some r) (rfDirs fl ++ [d]) (rfNames fl ++ [n]),
       mkWorld dm fm dl fnl (revFiles w)).
Proof.
  unfold interned.
  destruct (internKey (mDirNamesMap w) _ _) as [[d dm] dl].
  destruct (internKey (mFileNamesMap w) _ _) as [[n fm] fnl].
  by eexists _, _, _, _, _, _.
Qed.




(** C7. Interning the same path a second time yields the same pair of
    indices as the first time; the second call leaves both tables and both
    maps as they are, the first call appends at most one string to each
    table, and what the tables and maps held before is still there at the
    same index. *)
Theorem appendFileName_idempotent (r : addr) (name : string)
    (fl fl1 : FileNamesLoader) (w w1 : World) :
  appendFileName r name fl w = Ok (fl1, w1) →
  ∃ fl2 w2 d n,
    appendFileName r name fl1 w1 = Ok (fl2, w2) ∧
    last (rfDirs fl1) = Some d ∧ last (rfNames fl1) = Some n ∧
    last (rfDirs fl2) = Some d ∧ last (rfNames fl2) = Some n ∧
    mDirNames w2 = mDirNames w1 ∧ mFileNames w2 = mFileNames w1 ∧
    mDirNamesMap w2 = mDirNamesMap w1 ∧ mFileNamesMap w2 = mFileNamesMap w1 ∧
    (length (mDirNames w1) ≤ S (length (mDirNames w)))%nat ∧
    (length (mFileNames w1) ≤ S (length (mFileNames w)))%nat ∧
    mDirNames w `prefix_of` mDirNames w1 ∧
    mFileNames w `prefix_of` mFileNames w1 ∧
    (∀ k i, mDirNamesMap w !! k = Some i → mDirNamesMap w1 !! k = Some i) ∧
    (∀ k i, mFileNamesMap w !! k = Some i → mFileNamesMap w1 !! k = Some i).
Proof.
  intros H. rewrite appendFileName_rebind in H. inv_bind H.
  destruct a as [fl0 w0]. injection H as H.
  assert (Hw0 : mDirNamesMap w0 = mDirNamesMap w ∧ mFileNamesMap w0 = mFileNamesMap w
                ∧ mDirNames w0 = mDirNames w ∧ mFileNames w0 = mFileNames w).
  { destruct (decide (rf fl = Some r)).
    - by simplify_eq.
    - inv_bind Ha. destruct a as [fl' w']. simplify_eq. simpl.
      unfold flushFileNames in Ha0. destruct (rf fl).
      + inv_bind Ha0. inv_bind Ha0. inv_bind Ha0. simplify_eq.
        unfold update in Ha2. inv_bind Ha2. by simplify_eq.
      + by simplify_eq. }
  destruct Hw0 as (E1 & E2 & E3 & E4).
  destruct (interned_tables r name fl0 w0)
    as (d & n & dm & fm & dl & fnl & Hd & Hn & Hi).
  rewrite Hi in H. injection H as <- <-.
  rewrite appendFileName_bound by (by left).
  destruct (interned_tables r name
              (mkFileNamesLoader (Some r) (rfDirs fl0 ++ [d]) (rfNames fl0 ++ [n]))
              (mkWorld dm fm dl fnl (revFiles w0)))
    as (d' & n' & dm' & fm' & dl' & fnl' & Hd' & Hn' & Hi').
  simpl in Hd', Hn'.
  rewrite (internKey_again _ _ _ _ _ _ Hd) in Hd'.
  rewrite (internKey_again _ _ _ _ _ _ Hn) in Hn'.
  injection Hd' as <- <- <-. injection Hn' as <- <- <-.
  rewrite Hi'. simpl. eexists _, _, d, n. split; [reflexivity|]. simpl.
  rewrite E1, E3 in Hd. rewrite E2, E4 in Hn.
  destruct (internKey_grows _ _ _ _ _ _ Hd) as (P1 & L1 & M1 & _).
  destruct (internKey_grows _ _ _ _ _ _ Hn) as (P2 & L2 & M2 & _).
  rewrite !last_snoc. split_and!; done.
Qed.

Lemma appendFileName_idempotent_witness :
  ∃ fl1 w1 fl2 w2,
    appendFileName 0 "src/app/git.cpp" FileNamesLoader.empty (declare 0 emptyWorld)
      = Ok (fl1, w1) ∧
    appendFileName 0 "src/app/git.cpp" fl1 w1 = Ok (fl2, w2) ∧
    rfDirs fl2 = [0; 0]%nat ∧ rfNames fl2 = [0; 0]%nat ∧
    mDirNames w2 = ["src/app/"] ∧ mFileNames w2 = ["git.cpp"].
Proof.
  destruct (appendFileName 0 "src/app/git.cpp" FileNamesLoader.empty
              (declare 0 emptyWorld)) as [[fl1 w1]|s] eqn:E;
    [|vm_compute in E; discriminate E].
  destruct (appendFileName_idempotent _ _ _ _ _ _ E)
    as (fl2 & w2 & d & n & H2 & _).
  exists fl1, w1, fl2, w2. split; [reflexivity|]. split; [exact H2|].
  vm_compute in E. injection E as <- <-.
  vm_compute in H2. injection H2 as <- <-. repeat split.
Defined.

(** ** QString facts *)

Lemma append_String (a : ascii) (s t : string) :
  String a s +:+ t = String a (s +:+ t).
Proof. reflexivity. Qed.

Lemma append_empty (t : string) : "" +:+ t = t.
Proof. reflexivity. Qed.

Lemma left_mid (s : string) (k : nat) :
  QString.left s k +:+ QString.mid s k = s.
Proof.
  revert s. induction k as [|k IH]; intros [|a s]; simpl; try done.
  by rewrite append_String, IH.
Qed.

Lemma dirOf_fileOf (name : string) : dirOf name +:+ fileOf name = name.
Proof. apply left_mid. Qed.

Lemma fields_no_sep (sep : ascii) (s : string) :
  QString.find sep s = None → QString.fields sep s = [s].
Proof.
  induction s as [|a s IH]; simpl; [done|].
  destruct (Ascii.eqb a sep); [done|].
  destruct (QString.find sep s); [done|]. intros _. by rewrite IH.
Qed.

Lemma fields_app (sep : ascii) (a b : string) :
  QString.find sep a = None →
  QString.fields sep (a +:+ String sep b) = a :: QString.fields sep b.
Proof.
  induction a as [|c a IH]; rewrite ?append_String, ?append_empty; simpl.
  - by rewrite Ascii.eqb_refl.
  - destruct (Ascii.eqb c sep); [done|].
    destruct (QString.find sep a); [done|]. intros _. by rewrite IH.
Qed.

Lemma split_three (tok orig dest : string) :
  QString.find TAB tok = None → QString.find TAB orig = None →
  QString.find TAB dest = None →
  tok ≠ "" → orig ≠ "" → dest ≠ "" →
  QString.split (tok +:+ String TAB orig +:+ String TAB dest) TAB
  = [tok; orig; dest].
Proof.
  intros Ht Ho Hd Nt No Nd. unfold QString.split.
  rewrite append_String, fields_app by done. rewrite fields_app by done.
  rewrite fields_no_sep by done. simpl.
  destruct tok, orig, dest; done.
Qed.

(** ** Objects *)

Lemma interned_rf r name fl w : rf (interned r name fl w).1 = Some r.
Proof.
  by destruct (interned_tables r name fl w) as (?&?&?&?&?&?&_&_&->).
Qed.

Lemma interned_revFiles r name fl w :
  revFiles (interned r name fl w).2 = revFiles w.
Proof.
  by destruct (interned_tables r name fl w) as (?&?&?&?&?&?&_&_&->).
Qed.

Lemma update_alive r g w f :
  revFiles w !! r = Some f → update r g w = Ok (setObj r (g f) w).
Proof. intros H. unfold update, deref. by rewrite H. Qed.

Lemma update_setObj r g f w :
  update r g (setObj r f w) = Ok (setObj r (g f) w).
Proof.
  unfold update, deref, setObj. simpl. rewrite lookup_insert_eq. simpl.
  by rewrite insert_insert_eq.
Qed.

Lemma setObj_lookup r f w : revFiles (setObj r f w) !! r = Some f.
Proof. apply lookup_insert_eq. Qed.

Lemma setObj_lookup_ne r r' f w :
  r ≠ r' → revFiles (setObj r f w) !! r' = revFiles w !! r'.
Proof. intros. unfold setObj. simpl. by rewrite lookup_insert_ne. Qed.

Lemma setObj_tables r f w :
  mDirNames (setObj r f w) = mDirNames w ∧
  mFileNames (setObj r f w) = mFileNames w ∧
  mDirNamesMap (setObj r f w) = mDirNamesMap w ∧
  mFileNamesMap (setObj r f w) = mFileNamesMap w.
Proof. done. Qed.

Lemma interned_setObj r name fl r0 f w :
  interned r name fl (setObj r0 f w) =
  ((interned r name fl w).1, setObj r0 f (interned r name fl w).2).
Proof.
  unfold interned, setObj. simpl.
  destruct (internKey (mDirNamesMap w) _ _) as [[d dm] dl].
  by destruct (internKey (mFileNamesMap w) _ _) as [[n fm] fnl].
Qed.

Lemma bind_Ok_l {A B} (a : A) (k : A → result B) : Ok a ≫= k = k a.
Proof. reflexivity. Qed.

Lemma tables_ok_empty h : tables_ok (mkWorld ∅ ∅ [] [] h).
Proof. split; intros k i H; simpl in H; by rewrite lookup_empty in H. Qed.

Lemma tables_ok_set_revFiles h w : tables_ok w → tables_ok (set_revFiles h w).
Proof. by intros [? ?]. Qed.

Lemma internKey_ok m l k i m' l' :
  (∀ k0 i0, m !! k0 = Some i0 → l !! i0 = Some k0) →
  internKey m l k = (i, m', l') →
  (∀ k0 i0, m' !! k0 = Some i0 → l' !! i0 = Some k0) ∧ l' !! i = Some k.
Proof.
  intros Hok. unfold internKey. destruct (m !! k) eqn:E; intros [= <- <- <-].
  - split; [done | by apply Hok].
  - split.
    + intros k0 i0. rewrite lookup_insert. case_decide as Hk.
      * intros [= <-]. subst k0. by rewrite lookup_app_r, Nat.sub_diag.
      * intros H0. apply Hok in H0. by apply lookup_app_l_Some.
    + by rewrite lookup_app_r, Nat.sub_diag.
Qed.

(** An index stays valid, for the same string, when a table grows. *)
Lemma prefix_lookup_Some' {A} (l l' : list A) i x :
  l `prefix_of` l' → l !! i = Some x → l' !! i = Some x.
Proof. intros [k ->] H. by apply lookup_app_l_Some. Qed.

Lemma interned_spec r name fl w fl' w' :
  interned r name fl w = (fl', w') →
  ∃ d n,
    rf fl' = Some r ∧
    rfDirs fl' = rfDirs fl ++ [d] ∧ rfNames fl' = rfNames fl ++ [n] ∧
    revFiles w' = revFiles w ∧
    mDirNames w `prefix_of` mDirNames w' ∧
    mFileNames w `prefix_of` mFileNames w' ∧
    (tables_ok w → tables_ok w' ∧ mDirNames w' !! d = Some (dirOf name) ∧
                   mFileNames w' !! n = Some (fileOf name)).
Proof.
  destruct (interned_tables r name fl w)
    as (d & n & dm & fm & dl & fnl & Hd & Hn & ->).
  intros [= <- <-]. exists d, n. simpl.
  destruct (internKey_grows _ _ _ _ _ _ Hd) as (P1 & _ & _ & _).
  destruct (internKey_grows _ _ _ _ _ _ Hn) as (P2 & _ & _ & _).
  split_and!; try done.
  intros [Hok1 Hok2].
  destruct (internKey_ok _ _ _ _ _ _ Hok1 Hd) as [? ?].
  destruct (internKey_ok _ _ _ _ _ _ Hok2 Hn) as [? ?].
  by split_and!.
Qed.

(** ** Renames and copies *)

Lemma setExtStatus_row r rowSt tok orig dest parNum fl w f :
  QString.split rowSt TAB = [tok; orig; dest] →
  rf fl = Some r ∨ rf fl = None →
  revFiles w !! r = Some f →
  setExtStatus r rowSt parNum fl w =
    c ← fromOption type_0 (QString.at_ (QString.remove_first tok) 0);
    let ext := extStatusInfo tok orig dest in
    let f1 := extEntry RevisionFile.NEW parNum ext f in
    let flw1 := interned r dest fl w in
    if Ascii.eqb c "R" then
      let f2 := extEntry RevisionFile.DELETED parNum ext f1 in
      let flw2 := interned r orig flw1.1 flw1.2 in
      Ok (flw2.1, setObj r (RevisionFile.setOnlyModified false f2) flw2.2)
    else
      Ok (flw1.1, setObj r (RevisionFile.setOnlyModified false f1) flw1.2).
Proof.
  intros Hs Hb Hf. unfold setExtStatus. rewrite Hs.
  fold (extStatusInfo tok orig dest).
  rewrite appendFileName_bound, bind_Ok_l by done.
  pose proof (interned_rf r dest fl w) as Hrf1.
  pose proof (interned_revFiles r dest fl w) as Hh1.
  destruct (interned r dest fl w) as [fl1 w1]. cbn [fst snd] in *.
  rewrite (update_alive _ _ _ f), bind_Ok_l by (by rewrite Hh1).
  rewrite update_setObj, bind_Ok_l. rewrite update_setObj, bind_Ok_l.
  destruct (QString.at_ (QString.remove_first tok) 0) as [c|]; [|done].
  cbn [fromOption]. rewrite !bind_Ok_l.
  destruct (Ascii.eqb c "R").
  - rewrite appendFileName_bound, bind_Ok_l by (by left).
    rewrite interned_setObj.
    destruct (interned r orig fl1 w1) as [fl2 w2]. cbn [fst snd].
    by repeat first [rewrite update_setObj | rewrite bind_Ok_l].
  - by repeat first [rewrite update_setObj | rewrite bind_Ok_l].
Qed.

Lemma appendExtStatus_lookup (s : string) (f : RevisionFile) :
  extStatus (RevisionFile.appendExtStatus s f) !! (length (status f) - 1)%nat
  = Some s.
Proof.
  unfold RevisionFile.appendExtStatus. simpl.
  set (n := (length (status f) - 1)%nat).
  assert (Hlen : length (take n (extStatus f ++
                   replicate (n - length (extStatus f)) "")) = n).
  { rewrite length_take, length_app, length_replicate. lia. }
  rewrite lookup_app_r by lia. by rewrite Hlen, Nat.sub_diag.
Qed.

Lemma extEntry_fields flag parNum ext f :
  pathsIdx (extEntry flag parNum ext f) = pathsIdx f ∧
  status (extEntry flag parNum ext f) = status f ++ [flag] ∧
  mergeParent (extEntry flag parNum ext f) = mergeParent f ++ [parNum] ∧
  onlyModified (extEntry flag parNum ext f) = onlyModified f ∧
  extStatus (extEntry flag parNum ext f) !! length (status f) = Some ext.
Proof.
  split_and!; try done.
  unfold extEntry.
  set (g := RevisionFile.setStatusFlag flag
              (RevisionFile.mergeParent_append parNum f)).
  replace (length (status f)) with (length (status g) - 1)%nat.
  - apply appendExtStatus_lookup.
  - subst g. simpl. rewrite length_app. simpl. lia.
Qed.

(** The proof that a row whose similarity does not begin with R appends
    one entry: the row splits into its three fields, the test for R fails,
    and the entry is the one [interned] and [extEntry] describe. *)
Ltac one_entry l sim orig dest Hl :=
  let Hs := fresh "Hs" in let Ho := fresh "Ho" in let Hd := fresh "Hd" in
  let No := fresh "No" in let Nd := fresh "Nd" in let Hc := fresh "Hc" in
  let Hne := fresh "Hne" in let Hb := fresh "Hb" in let Hf := fresh "Hf" in
  let Hok := fresh "Hok" in let Hsplit := fresh "Hsplit" in
  intros Hs Ho Hd No Nd Hc Hne Hb Hf Hok;
  assert (Hsplit : QString.split
            (String l sim +:+ String TAB orig +:+ String TAB dest) TAB
          = [String l sim; orig; dest])
    by (apply split_three; try done; simpl;
        replace (Ascii.eqb l TAB) with false
          by (symmetry; by apply Ascii.eqb_neq);
        by rewrite Hs);
  rewrite (setExtStatus_row _ _ _ _ _ _ _ _ _ Hsplit Hb Hf);
  change (QString.remove_first (String l sim)) with sim; rewrite Hc;
  cbn [fromOption]; rewrite bind_Ok_l; cbv zeta;
  replace (Ascii.eqb _ "R") with false
    by (symmetry; by apply Ascii.eqb_neq);
  match goal with
  | |- context [interned ?r dest ?fl ?w] =>
      let fl1 := fresh "fl1" in let w1 := fresh "w1" in
      let E1 := fresh "E1" in
      destruct (interned r dest fl w) as [fl1 w1] eqn:E1; cbn [fst snd];
      let d := fresh "d" in let n := fresh "n" in
      let Hres := fresh "Hres" in
      destruct (interned_spec _ _ _ _ _ _ E1)
        as (d & n & ? & ? & ? & ? & _ & _ & Hres);
      destruct (Hres Hok) as (_ & ? & ?);
      match goal with
      | |- context [extEntry ?flag ?p ?ext ?f] =>
          destruct (extEntry_fields flag p ext f) as (? & ? & ? & ? & ?);
          exists fl1,
            (setObj r (RevisionFile.setOnlyModified false (extEntry flag p ext f)) w1),
            (RevisionFile.setOnlyModified false (extEntry flag p ext f)), d, n
      end
  end;
  split; [reflexivity|];
  split_and!; try done; [apply dirOf_fileOf | apply setObj_lookup].

(** [setExtStatus] tests [type.at(0)] after [type.remove(0, 1)]: the
    character it compares with R is the one after the status letter.  So a
    row with any status letter [l] whose similarity does not begin with R
    appends the New entry for the destination and nothing else. *)
Lemma setExtStatus_one_entry (l : ascii) (r : addr) (sim orig dest : string)
    (parNum : Z) (fl : FileNamesLoader) (w : World) (f : RevisionFile)
    (c : ascii) :
  l ≠ TAB →
  QString.find TAB sim = None → QString.find TAB orig = None →
  QString.find TAB dest = None → orig ≠ "" → dest ≠ "" →
  QString.at_ sim 0 = Some c → c ≠ "R"%char →
  rf fl = Some r ∨ rf fl = None →
  revFiles w !! r = Some f →
  tables_ok w →
  ∃ fl' w' f' d n,
    setExtStatus r (String l sim +:+ String TAB orig +:+ String TAB dest)
                 parNum fl w = Ok (fl', w') ∧
    rf fl' = Some r ∧
    rfDirs fl' = rfDirs fl ++ [d] ∧ rfNames fl' = rfNames fl ++ [n] ∧
    mDirNames w' !! d = Some (dirOf dest) ∧
    mFileNames w' !! n = Some (fileOf dest) ∧
    dirOf dest +:+ fileOf dest = dest ∧
    revFiles w' !! r = Some f' ∧
    pathsIdx f' = pathsIdx f ∧
    status f' = status f ++ [RevisionFile.NEW] ∧
    mergeParent f' = mergeParent f ++ [parNum] ∧
    extStatus f' !! length (status f) =
      Some (orig +:+ " --> " +:+ dest +:+ " (" +:+
            QString.number (QString.toInt sim) +:+ "%)") ∧
    onlyModified f' = false.
Proof. intros Hl. one_entry l sim orig dest Hl. Qed.

(** C5. A slow-path row whose status token is the letter C followed by a
    similarity (any text that does not begin with R, such as the digits git
    prints), an origin path and a destination path appends exactly one
    entry: the loader buffers gain one pair of indices, which resolve to the
    destination path, and the RevisionFile gains one status, New, and one
    parent index; no Deleted entry for the origin follows.  The entry carries
    the extended-status string and [onlyModified] is false afterwards. *)
Theorem setExtStatus_copy_one_entry (r : addr) (sim orig dest : string)
    (parNum : Z) (fl : FileNamesLoader) (w : World) (f : RevisionFile)
    (c : ascii) :
  QString.find TAB sim = None → QString.find TAB orig = None →
  QString.find TAB dest = None → orig ≠ "" → dest ≠ "" →
  QString.at_ sim 0 = Some c → c ≠ "R"%char →
  rf fl = Some r ∨ rf fl = None →
  revFiles w !! r = Some f →
  tables_ok w →
  ∃ fl' w' f' d n,
    setExtStatus r (String "C" sim +:+ String TAB orig +:+ String TAB dest)
                 parNum fl w = Ok (fl', w') ∧
    rf fl' = Some r ∧
    rfDirs fl' = rfDirs fl ++ [d] ∧ rfNames fl' = rfNames fl ++ [n] ∧
    mDirNames w' !! d = Some (dirOf dest) ∧
    mFileNames w' !! n = Some (fileOf dest) ∧
    dirOf dest +:+ fileOf dest = dest ∧
    revFiles w' !! r = Some f' ∧
    pathsIdx f' = pathsIdx f ∧
    status f' = status f ++ [RevisionFile.NEW] ∧
    mergeParent f' = mergeParent f ++ [parNum] ∧
    extStatus f' !! length (status f) =
      Some (orig +:+ " --> " +:+ dest +:+ " (" +:+
            QString.number (QString.toInt sim) +:+ "%)") ∧
    onlyModified f' = false.
Proof.
  assert (Hl : "C"%char ≠ TAB) by discriminate.
  one_entry "C"%char sim orig dest Hl.
Qed.

Lemma setExtStatus_copy_one_entry_witness :
  ∃ fl' w' f',
    setExtStatus 0 (String "C" "80" +:+ String TAB "a.txt" +:+ String TAB "b.txt")
                 1 FileNamesLoader.empty (declare 0 emptyWorld) = Ok (fl', w') ∧
    rfDirs fl' = [0%nat] ∧ rfNames fl' = [0%nat] ∧
    mDirNames w' = [""] ∧ mFileNames w' = ["b.txt"] ∧
    revFiles w' !! 0%nat = Some f' ∧
    status f' = [RevisionFile.NEW] ∧ mergeParent f' = [1] ∧
    extStatus f' = ["a.txt --> b.txt (80%)"] ∧ onlyModified f' = false.
Proof.
  destruct (setExtStatus_copy_one_entry 0 "80" "a.txt" "b.txt" 1
              FileNamesLoader.empty (declare 0 emptyWorld) RevisionFile.empty
              "8"%char)
    as (fl' & w' & f' & d & n & H & _ & _ & _ & _ & _ & _ & Hf & _);
    [reflexivity | reflexivity | reflexivity | discriminate | discriminate
    | reflexivity | discriminate | by right | reflexivity
    | apply tables_ok_empty |].
  exists fl', w', f'. split; [exact H|].
  vm_compute in H. injection H as <- <-.
  vm_compute in Hf. injection Hf as <-. repeat split.
Defined.

(** C4, the code at the row of the claim.  The row R90, src/old.txt,
    src/new.txt appends one entry only, New at src/new.txt with the extended
    status "src/old.txt --> src/new.txt (90%)": [type.remove(0, 1)] has
    taken the R away before [type.at(0) == 'R'] looks for it, so the Deleted
    entry for src/old.txt is never appended (the file table does not even
    hold old.txt).  The same happens through [parseDiffFormat] on the
    complete line. *)
Theorem setExtStatus_rename_appends_new_only :
  (∃ fl w f,
     setExtStatus 0 Sample.renameRow 1 FileNamesLoader.empty
                  (declare 0 emptyWorld) = Ok (fl, w) ∧
     rfDirs fl = [0%nat] ∧ rfNames fl = [0%nat] ∧
     mDirNames w = ["src/"] ∧ mFileNames w = ["new.txt"] ∧
     revFiles w !! 0%nat = Some f ∧
     status f = [RevisionFile.NEW] ∧ mergeParent f = [1] ∧
     extStatus f = ["src/old.txt --> src/new.txt (90%)"] ∧
     onlyModified f = false) ∧
  (∃ fl w f,
     ('(fl, w) ← parseDiffFormat 0
                   (Sample.unlines
                      [Sample.renameLine "R90" "src/old.txt" "src/new.txt"])
                   FileNamesLoader.empty (declare 0 emptyWorld);
      flushFileNames fl w) = Ok (fl, w) ∧
     revFiles w !! 0%nat = Some f ∧
     RevisionFile.count f = 1%nat ∧
     filePath w f 0 = Ok "src/new.txt" ∧
     status f = [RevisionFile.NEW] ∧ mergeParent f = [1] ∧
     extStatus f = ["src/old.txt --> src/new.txt (90%)"] ∧
     onlyModified f = false).
Proof.
  split.
  - eexists _, _, _. split; [vm_compute; reflexivity|].
    split_and!; reflexivity.
  - eexists _, _, _. split; [vm_compute; reflexivity|].
    split_and!; reflexivity.
Qed.

(** ** Indexing the line *)

Lemma offLine_Ok {A} (a : A) : offLine (Ok a).
Proof. intros s H. discriminate H. Qed.

Lemma offLine_bind {A B} (m : result A) (k : A → result B) :
  offLine m → (∀ a, offLine (k a)) → offLine (m ≫= k).
Proof.
  intros Hm Hk s. destruct m as [a|s']; simpl.
  - apply Hk.
  - intros [= <-]. by apply Hm.
Qed.

Lemma offLine_fromOption {A} (s : fault) (o : option A) :
  onLine s = false → offLine (fromOption s o).
Proof. intros Hs s'. destruct o; simpl; [done|]. by intros [= <-]. Qed.

Lemma offLine_update r g w : offLine (update r g w).
Proof.
  unfold update, deref. apply offLine_bind.
  - by apply offLine_fromOption.
  - intros ?. apply offLine_Ok.
Qed.

Lemma offLine_flushFileNames fl w : offLine (flushFileNames fl w).
Proof.
  unfold flushFileNames. destruct (rf fl); [|apply offLine_Ok].
  apply offLine_bind; [by apply offLine_fromOption|]. intros _.
  apply offLine_bind.
  - case_decide; [apply offLine_Ok | by intros s [= <-]].
  - intros names. apply offLine_bind; [apply offLine_update|].
    intros ?. apply offLine_Ok.
Qed.

Lemma offLine_appendFileName r name fl w : offLine (appendFileName r name fl w).
Proof.
  rewrite appendFileName_rebind. apply offLine_bind.
  - case_decide; [apply offLine_Ok|].
    apply offLine_bind; [apply offLine_flushFileNames|].
    intros [? ?]. apply offLine_Ok.
  - intros [? ?]. apply offLine_Ok.
Qed.

(** An appended entry: the name, then updates of the RevisionFile. *)
Ltac offLine_steps :=
  repeat first
    [ apply offLine_Ok
    | apply offLine_update
    | apply offLine_appendFileName
    | apply offLine_bind; [|intros ?]
    | match goal with |- offLine (let '(_, _) := ?p in _) => destruct p end
    | match goal with |- offLine (match ?p with (_, _) => _ end) => destruct p end ].

Lemma offLine_setExtStatus r rowSt parNum fl w :
  offLine (setExtStatus r rowSt parNum fl w).
Proof.
  unfold setExtStatus.
  destruct (QString.split rowSt TAB) as [|sl0 [|orig [|dest [|]]]];
    try apply offLine_Ok.
  offLine_steps.
  - by apply offLine_fromOption.
  - destruct (Ascii.eqb _ _); offLine_steps.
Qed.

Lemma at_Some (s : string) (i : nat) :
  (i < QString.size s)%nat → ∃ c, QString.at_ s i = Some c.
Proof.
  unfold QString.at_, QString.size. revert i.
  induction s as [|a s IH]; intros i Hi; simpl in *; [lia|].
  destruct i as [|i]; [eauto|]. apply IH. lia.
Qed.

Lemma at_None (s : string) (i : nat) :
  (QString.size s ≤ i)%nat → QString.at_ s i = None.
Proof.
  unfold QString.at_, QString.size. revert i.
  induction s as [|a s IH]; intros i Hi; simpl in *; [done|].
  destruct i as [|i]; [lia|]. apply IH. lia.
Qed.

(** C2 (as the code has it). A change line of at least 99 characters is
    parsed without an index past its end: positions 1, 97 and 98 exist;
    the combined-merge line takes its path after the last tab, a tab at
    position 98 selects the fast path and anything else there the slow path
    on the text from position 97.  (No length is checked: a shorter line is
    outside this statement.) *)
Theorem parseDiffFormatLine_in_bounds (r : addr) (line : string) (parNum : Z)
    (fl : FileNamesLoader) (w : World) :
  (99 ≤ QString.size line)%nat →
  ∃ c1 c97 c98,
    QString.at_ line 1 = Some c1 ∧ QString.at_ line 97 = Some c97 ∧
    QString.at_ line 98 = Some c98 ∧
    parseDiffFormatLine r line parNum fl w =
      (if Ascii.eqb c1 ":" then
         '(fl, w) ← appendFileName r (QString.section_last line TAB) fl w;
         w ← update r (RevisionFile.setStatus "M") w;
         w ← update r (RevisionFile.mergeParent_append parNum) w;
         Ok (fl, w)
       else if Ascii.eqb c98 TAB then
         '(fl, w) ← appendFileName r (QString.mid line 99) fl w;
         w ← update r (RevisionFile.setStatus c97) w;
         w ← update r (RevisionFile.mergeParent_append parNum) w;
         Ok (fl, w)
       else setExtStatus r (QString.mid line 97) parNum fl w) ∧
    offLine (parseDiffFormatLine r line parNum fl w).
Proof.
  intros Hlen.
  destruct (at_Some line 1) as [c1 H1]; [lia|].
  destruct (at_Some line 97) as [c97 H97]; [lia|].
  destruct (at_Some line 98) as [c98 H98]; [lia|].
  exists c1, c97, c98. split_and!; try done.
  - unfold parseDiffFormatLine. rewrite H1, H98, H97. simpl.
    destruct (Ascii.eqb c1 ":"); [done|].
    destruct (Ascii.eqb c98 TAB); [|done].
    by destruct (appendFileName _ _ _ _) as [[? ?]|].
  - unfold parseDiffFormatLine. rewrite H1, H98, H97. simpl.
    destruct (Ascii.eqb c1 ":"); [offLine_steps|].
    destruct (Ascii.eqb c98 TAB); [offLine_steps | apply offLine_setExtStatus].
Qed.

Lemma parseDiffFormatLine_in_bounds_witness :
  ∃ fl w,
    parseDiffFormatLine 0 (Sample.changeLine "M" "src/app/git.cpp") 1
                        FileNamesLoader.empty (declare 0 emptyWorld) = Ok (fl, w) ∧
    mDirNames w = ["src/app/"] ∧ mFileNames w = ["git.cpp"].
Proof.
  destruct (parseDiffFormatLine_in_bounds 0
              (Sample.changeLine "M" "src/app/git.cpp") 1
              FileNamesLoader.empty (declare 0 emptyWorld))
    as (c1 & c97 & c98 & H1 & H97 & H98 & H & _);
    [vm_compute; lia|].
  injection H1 as <-. injection H97 as <-. injection H98 as <-.
  vm_compute in H. eexists _, _. split; [exact H|]. split; reflexivity.
Defined.

(** C2, refuted as stated: the line ":abc" begins with a colon, is no
    combined-merge line and is shorter than the fast-path offset; parsing it
    reads position 98, past its end, where a fall back to the slow path
    would have dropped the line and gone on. *)
Lemma parseDiffFormatLine_short_line_out_of_range :
  QString.at_ ":abc" 0 = Some ":"%char ∧
  QString.at_ ":abc" 1 = Some "a"%char ∧
  QString.size ":abc" = 4%nat ∧
  parseDiffFormatLine 0 ":abc" 1 FileNamesLoader.empty (declare 0 emptyWorld)
    = Fault line_98 ∧
  onLine line_98 = true ∧
  setExtStatus 0 (QString.mid ":abc" 97) 1 FileNamesLoader.empty
               (declare 0 emptyWorld)
    = Ok (FileNamesLoader.empty, declare 0 emptyWorld) ∧
  parseDiffFormat 0 (Sample.unlines [":abc"]) FileNamesLoader.empty
                  (declare 0 emptyWorld) = Fault line_98.
Proof. split_and!; reflexivity. Qed.

(** ** The records of a buffer *)

Lemma find_lt (c : ascii) (s : string) (k : nat) :
  QString.find c s = Some k → (k < QString.size s)%nat.
Proof.
  unfold QString.size.
  revert k. induction s as [|a s IH]; intros k; simpl; [done|].
  destruct (Ascii.eqb a c).
  - intros [= <-]. lia.
  - destruct (QString.find c s) as [k'|]; simpl; [|done].
    intros [= <-]. specialize (IH k' eq_refl). lia.
Qed.

Lemma size_mid (s : string) (p : nat) :
  QString.size (QString.mid s p) = (QString.size s - p)%nat.
Proof.
  unfold QString.size.
  revert s. induction p as [|p IH]; intros [|a s]; simpl; done.
Qed.

Lemma indexOf_range (buf : string) (c : ascii) (from : Z) :
  0 ≤ from →
  QString.indexOf buf c from = -1 ∨
  from ≤ QString.indexOf buf c from < Z.of_nat (QString.size buf).
Proof.
  intros Hfrom. unfold QString.indexOf.
  replace (from <? 0) with false by (symmetry; apply Z.ltb_ge; lia).
  destruct (QString.find c _) as [k|] eqn:E; [|by left].
  right. apply find_lt in E. rewrite size_mid in E. lia.
Qed.

(** The loop ends before its fuel does when the fuel exceeds what is left
    of the buffer, and is then the iteration over the records. *)
Lemma parseDiffFormat_loop_records (fuel : nat) r buf parNum startPos endPos fl w :
  endPos = -1 ∨
    (0 ≤ endPos < Z.of_nat (QString.size buf) ∧
     Z.of_nat (QString.size buf) - endPos ≤ Z.of_nat fuel) →
  parseDiffFormat_loop fuel r buf parNum startPos endPos fl w =
  parseRecords r (records_loop fuel buf startPos endPos) parNum fl w.
Proof.
  revert parNum startPos endPos fl w.
  induction fuel as [|fuel IH]; intros parNum startPos endPos fl w Hm; simpl.
  - destruct (endPos =? -1) eqn:E; [done|].
    apply Z.eqb_neq in E.
    destruct Hm as [?|[H0 H1]]; [done|]. lia.
  - destruct (endPos =? -1) eqn:E; [done|]. apply Z.eqb_neq in E.
    destruct Hm as [?|[H0 H1]]; [done|]. simpl.
    destruct (QString.at_ _ 0) as [c0|]; simpl; [|done].
    assert (Hnext : QString.indexOf buf NL (endPos + 99) = -1 ∨
              (0 ≤ QString.indexOf buf NL (endPos + 99)
                 < Z.of_nat (QString.size buf) ∧
               Z.of_nat (QString.size buf)
                 - QString.indexOf buf NL (endPos + 99) ≤ Z.of_nat fuel)).
    { destruct (indexOf_range buf NL (endPos + 99)) as [?|?]; [lia|by left|].
      right. lia. }
    destruct (Ascii.eqb c0 ":").
    + destruct (parseDiffFormatLine _ _ _ _ _) as [[fl' w']|]; simpl; [|done].
      by apply IH.
    + by apply IH.
Qed.

(** ** Sessions: what the loader and the objects hold *)

Lemma extends_refl w : extends w w.
Proof. by split. Qed.

Lemma extends_trans w1 w2 w3 : extends w1 w2 → extends w2 w3 → extends w1 w3.
Proof. intros [? ?] [? ?]. split; by etrans. Qed.

Lemma resolve_extends w w1 d n p :
  extends w w1 → resolve w d n = Some p → resolve w1 d n = Some p.
Proof.
  intros [H1 H2]. unfold resolve.
  destruct (mDirNames w !! d) as [dn|] eqn:Ed; simpl; [|done].
  destruct (mFileNames w !! n) as [fn|] eqn:En; simpl; [|done].
  intros [= <-].
  rewrite (prefix_lookup_Some' _ _ _ _ H1 Ed). simpl.
  by rewrite (prefix_lookup_Some' _ _ _ _ H2 En).
Qed.

Lemma filePath_resolve w f i p :
  filePath w f i = Ok p ↔
  ∃ d n, RevisionFile.dirAt f i = Some d ∧ RevisionFile.nameAt f i = Some n ∧
         resolve w d n = Some p.
Proof.
  unfold filePath, resolve. split.
  - intros H. inv_bind H. apply fromOption_Ok in Ha. inv_bind H.
    apply fromOption_Ok in Ha0. inv_bind H. apply fromOption_Ok in Ha1.
    inv_bind H. apply fromOption_Ok in Ha2. injection H as <-.
    exists a, a1. rewrite Ha0, Ha2. by simpl.
  - intros (d & n & -> & -> & H). simpl.
    destruct (mDirNames w !! d); simpl in *; [|done].
    destruct (mFileNames w !! n); simpl in *; [|done]. by injection H as <-.
Qed.

Lemma filePath_extends w w1 f i p :
  extends w w1 → filePath w f i = Ok p → filePath w1 f i = Ok p.
Proof.
  intros He. rewrite !filePath_resolve. intros (d & n & ? & ? & ?).
  exists d, n. eauto using resolve_extends.
Qed.

Lemma stored_extends w w1 f P : extends w w1 → stored w f P → stored w1 f P.
Proof. intros He [Hc Hp]. split; [done|]. eauto using filePath_extends. Qed.

Lemma bufferDenotes_extends w w1 fl P :
  extends w w1 → bufferDenotes w fl P → bufferDenotes w1 fl P.
Proof.
  intros He H. unfold bufferDenotes in *. eapply Forall2_impl; [exact H|].
  intros [d n] p. simpl. by apply resolve_extends.
Qed.

Lemma bufferDenotes_length w fl P :
  length (rfDirs fl) = length (rfNames fl) →
  bufferDenotes w fl P → length P = length (rfDirs fl).
Proof.
  intros Hl H. apply Forall2_length in H. rewrite length_zip_with in H. lia.
Qed.

(** Flushing turns buffered paths into stored ones. *)
Lemma bufferDenotes_stored w fl f P :
  length (rfDirs fl) = length (rfNames fl) →
  pathsIdx f = rfDirs fl ++ rfNames fl →
  bufferDenotes w fl P → stored w f P.
Proof.
  intros Hl Hp Hb.
  destruct (count_packed f _ _ Hp Hl) as (Hc & Hd & Hn).
  pose proof (bufferDenotes_length _ _ _ Hl Hb) as HP.
  split; [lia|]. intros i p Hi.
  apply filePath_resolve.
  assert (Hlt : (i < length (rfDirs fl))%nat).
  { apply lookup_lt_Some in Hi. lia. }
  destruct (lookup_lt_is_Some_2 (rfDirs fl) i Hlt) as [d Hdi].
  destruct (lookup_lt_is_Some_2 (rfNames fl) i) as [n Hni]; [lia|].
  exists d, n. rewrite Hd, Hn by done. split_and!; try done.
  unfold bufferDenotes in Hb.
  eapply (Forall2_lookup_lr _ _ _ i (d, n) p) in Hb; [done| |done].
  rewrite lookup_zip_with. by rewrite Hdi, Hni.
Qed.

Lemma sameMeta_refl f : sameMeta f f.
Proof. done. Qed.

Lemma sameMeta_trans f1 f2 f3 : sameMeta f1 f2 → sameMeta f2 f3 → sameMeta f1 f3.
Proof.
  intros (A1 & A2 & A3 & A4) (B1 & B2 & B3 & B4).
  split_and!; congruence.
Qed.

Lemma metaKept_refl w : metaKept w w.
Proof. intros r f H. exists f. split; [done|apply sameMeta_refl]. Qed.

Lemma metaKept_trans w1 w2 w3 : metaKept w1 w2 → metaKept w2 w3 → metaKept w1 w3.
Proof.
  intros H12 H23 r f H. destruct (H12 _ _ H) as (f2 & H2 & S2).
  destruct (H23 _ _ H2) as (f3 & H3 & S3). exists f3.
  split; [done|]. by eapply sameMeta_trans.
Qed.

Lemma metaKept_same_revFiles w w1 : revFiles w1 = revFiles w → metaKept w w1.
Proof. intros E r f H. exists f. rewrite E. split; [done|apply sameMeta_refl]. Qed.

Lemma interned_step r name fl w fl1 w1 P :
  tables_ok w → length (rfDirs fl) = length (rfNames fl) →
  bufferDenotes w fl P →
  interned r name fl w = (fl1, w1) →
  rf fl1 = Some r ∧ tables_ok w1 ∧ extends w w1 ∧ revFiles w1 = revFiles w ∧
  length (rfDirs fl1) = length (rfNames fl1) ∧
  bufferDenotes w1 fl1 (P ++ [name]).
Proof.
  intros Hok Hl Hb Hi.
  destruct (interned_spec _ _ _ _ _ _ Hi)
    as (d & n & Hrf & Hds & Hns & Hh & P1 & P2 & Hres).
  destruct (Hres Hok) as (Hok1 & Hd & Hn).
  assert (He : extends w w1) by done.
  split_and!; try done.
  - rewrite Hds, Hns, !length_app. simpl. lia.
  - unfold bufferDenotes. rewrite Hds, Hns.
    rewrite zip_with_app by done. apply Forall2_app.
    + by apply (bufferDenotes_extends w).
    + constructor; [|constructor]. simpl. unfold resolve.
      rewrite Hd, Hn. simpl. by rewrite dirOf_fileOf.
Qed.

Lemma appendFileName_step r name fl w P :
  tables_ok w → loader_wf fl w → pathsOf r fl w P →
  rf fl = Some r ∨ P = [] →
  ∃ fl1 w1,
    appendFileName r name fl w = Ok (fl1, w1) ∧ rf fl1 = Some r ∧
    tables_ok w1 ∧ loader_wf fl1 w1 ∧ extends w w1 ∧
    pathsOf r fl1 w1 (P ++ [name]) ∧
    revFiles w1 !! r = revFiles w !! r ∧
    metaKept w w1 ∧
    (∀ r' P', r' ≠ r → pathsOf r' fl w P' → pathsOf r' fl1 w1 P').
Proof.
  intros Hok [Hl Hwf] (f & Hf & HP) Hb.
  assert (Hcase : (rf fl = Some r ∨ rf fl = None) ∨
                  ∃ r0, rf fl = Some r0 ∧ r0 ≠ r).
  { destruct (rf fl) as [r0|]; [|by left; right].
    destruct (decide (r0 = r)) as [-> |]; [by left; left | right; eauto]. }
  destruct Hcase as [Hbound | (r0 & Hr0 & Hne)].
  - (* no flush *)
    assert (Hden : bufferDenotes w fl P).
    { destruct Hbound as [E|E].
      - by rewrite decide_True in HP.
      - destruct Hb as [?| ->]; [congruence|].
        rewrite E in Hwf. unfold bufferDenotes. rewrite Hwf. constructor. }
    rewrite appendFileName_bound by done.
    destruct (interned r name fl w) as [fl1 w1] eqn:Ei.
    destruct (interned_step _ _ _ _ _ _ _ Hok Hl Hden Ei)
      as (Hrf & Hok1 & He & Hh & Hl1 & Hden1).
    exists fl1, w1. split_and!; try done.
    + split; [done|]. rewrite Hrf, Hh. eauto.
    + exists f. rewrite Hh. split; [done|]. by rewrite decide_True.
    + by rewrite Hh.
    + by apply metaKept_same_revFiles.
    + intros r' P' Hr' (f' & Hf' & HP').
      exists f'. rewrite Hh. split; [done|].
      rewrite decide_False by congruence.
      rewrite decide_False in HP'
        by (destruct Hbound as [E|E]; rewrite E; congruence).
      by apply (stored_extends w).
  - (* the loader is flushed to [r0] first *)
    destruct Hb as [?| ->]; [congruence|].
    rewrite Hr0 in Hwf. destruct Hwf as [f0 Hf0].
    rewrite appendFileName_rebind. rewrite decide_False by congruence.
    rewrite (flushFileNames_bound _ _ _ _ Hr0 Hf0 Hl). rewrite !bind_Ok_l.
    cbn [rf rfDirs rfNames FileNamesLoader.empty].
    set (f0' := RevisionFile.set_pathsIdx (rfDirs fl ++ rfNames fl) f0).
    set (w0 := set_revFiles (<[r0:=f0']> (revFiles w)) w).
    destruct (interned r name (mkFileNamesLoader (Some r) [] []) w0)
      as [fl1 w1] eqn:Ei.
    assert (Hok0 : tables_ok w0) by (by apply tables_ok_set_revFiles).
    destruct (interned_step r name (mkFileNamesLoader (Some r) [] []) w0
                fl1 w1 [] Hok0 eq_refl ltac:(constructor) Ei)
      as (Hrf & Hok1 & He & Hh & Hl1 & Hden1).
    assert (Hr : revFiles w0 !! r = Some f).
    { subst w0. simpl. by rewrite lookup_insert_ne. }
    exists fl1, w1. split_and!; try done.
    + split; [done|]. rewrite Hrf, Hh. eauto.
    + exists f. rewrite Hh. split; [done|]. by rewrite decide_True.
    + by rewrite Hh, Hr.
    + intros r' f' Hf'. rewrite Hh. subst w0. simpl.
      destruct (decide (r' = r0)) as [-> |Hn0].
      * rewrite lookup_insert_eq. exists f0'.
        split; [done|]. assert (f' = f0) as -> by congruence. done.
      * rewrite lookup_insert_ne by done. exists f'. by split.
    + intros r' P' Hr' (f' & Hf' & HP').
      destruct (decide (r' = r0)) as [-> |Hn0].
      * assert (f' = f0) as -> by congruence.
        rewrite decide_True in HP' by done.
        exists f0'. rewrite Hh. subst w0. simpl. rewrite lookup_insert_eq.
        split; [done|]. rewrite decide_False by congruence.
        apply (stored_extends (set_revFiles (<[r0:=f0']> (revFiles w)) w));
          [done|].
        by apply (bufferDenotes_stored _ fl).
      * rewrite decide_False in HP' by congruence.
        exists f'. rewrite Hh. subst w0. simpl.
        rewrite lookup_insert_ne by done. split; [done|].
        rewrite decide_False by congruence.
        by apply (stored_extends w).
Qed.

Lemma metaKeptBut_trans r w1 w2 w3 :
  metaKeptBut r w1 w2 → metaKeptBut r w2 w3 → metaKeptBut r w1 w3.
Proof.
  intros H12 H23 r' f Hr H. destruct (H12 _ _ Hr H) as (f2 & H2 & S2).
  destruct (H23 _ _ Hr H2) as (f3 & H3 & S3). exists f3.
  split; [done|]. by eapply sameMeta_trans.
Qed.

Lemma stepped_refl r fl w P f : ready r fl w P f → stepped r fl w P f [] [] fl w.
Proof.
  intros Hr. exists f. rewrite !app_nil_r. simpl.
  split_and!; try done; try lia.
  intros r' f' _ H. exists f'. by split.
Qed.

Lemma stepped_trans r fl w P f new1 pars1 fl1 w1 f1 new2 pars2 fl2 w2 :
  stepped r fl w P f new1 pars1 fl1 w1 →
  revFiles w1 !! r = Some f1 →
  stepped r fl1 w1 (P ++ new1) f1 new2 pars2 fl2 w2 →
  stepped r fl w P f (new1 ++ new2) (pars1 ++ pars2) fl2 w2.
Proof.
  intros (f1' & R1 & E1 & L1 & I1 & M1 & S1 & K1 & O1) Hf1
         (f2 & R2 & E2 & L2 & I2 & M2 & S2 & K2 & O2).
  assert (f1' = f1) as ->.
  { destruct R1 as (_ & _ & _ & _ & H). congruence. }
  exists f2. rewrite app_assoc. split_and!; try done.
  - by eapply extends_trans.
  - rewrite !length_app. lia.
  - congruence.
  - rewrite M2, M1. by rewrite app_assoc.
  - rewrite S2, S1, length_app. lia.
  - by eapply metaKeptBut_trans.
  - intros r' P' Hr' HP'. by apply O2, O1.
Qed.

Lemma ready_object r fl w P f : ready r fl w P f → revFiles w !! r = Some f.
Proof. by intros (_ & _ & _ & _ & ?). Qed.

Lemma stepped_object r fl w P f new pars fl' w' :
  stepped r fl w P f new pars fl' w' → is_Some (revFiles w' !! r).
Proof. intros (f' & R & _). exists f'. by eapply ready_object. Qed.

(** Replacing the object at [r] by one with the same packed paths. *)
Lemma setObj_pathsOf r f f' fl w r' P :
  revFiles w !! r = Some f → pathsIdx f' = pathsIdx f →
  pathsOf r' fl w P → pathsOf r' fl (setObj r f' w) P.
Proof.
  intros Hf Hp (g & Hg & HP). destruct (decide (r' = r)) as [-> |Hne].
  - assert (g = f) as -> by congruence.
    exists f'. rewrite setObj_lookup. split; [done|].
    case_decide; [done|].
    destruct HP as [Hc Hfp]. split.
    + unfold RevisionFile.count in *. by rewrite Hp.
    + intros i p Hi. specialize (Hfp i p Hi).
      rewrite filePath_resolve in *.
      unfold RevisionFile.dirAt, RevisionFile.nameAt, RevisionFile.count in *.
      by rewrite Hp.
  - exists g. rewrite setObj_lookup_ne by done. split; [done|].
    by case_decide.
Qed.

Lemma setObj_loader_wf r f' fl w :
  loader_wf fl w → loader_wf fl (setObj r f' w).
Proof.
  intros [Hl Hwf]. split; [done|]. destruct (rf fl) as [r0|]; [|done].
  destruct (decide (r = r0)) as [-> |Hne].
  - rewrite setObj_lookup. eauto.
  - by rewrite setObj_lookup_ne.
Qed.

(** One entry: [appendFileName], then updates of the object that add one
    status and the parent index [p]. *)
Lemma entry_stepped r name (g : RevisionFile → RevisionFile) p fl w P f :
  ready r fl w P f →
  pathsIdx (g f) = pathsIdx f →
  mergeParent (g f) = mergeParent f ++ [p] →
  length (status (g f)) = S (length (status f)) →
  ∃ fl1 w1,
    appendFileName r name fl w = Ok (fl1, w1) ∧
    revFiles w1 !! r = Some f ∧
    stepped r fl w P f [name] [p] fl1 (setObj r (g f) w1).
Proof.
  intros (Hok & Hwf & HP & Hb & Hf) G1 G2 G3.
  destruct (appendFileName_step r name fl w P Hok Hwf HP Hb)
    as (fl1 & w1 & Ha & Hrf & Hok1 & Hwf1 & He & HP1 & Hsame & Hk & Ho).
  exists fl1, w1. rewrite Hsame. split_and!; try done.
  exists (g f). split_and!; try done.
  - split_and!.
    + by apply tables_ok_set_revFiles.
    + by apply setObj_loader_wf.
    + apply (setObj_pathsOf r f); [by rewrite Hsame | done | done].
    + by left.
    + apply setObj_lookup.
  - by rewrite G3, Nat.add_1_r.
  - intros r' f' Hr' Hf'. destruct (Hk _ _ Hf') as (f'' & ? & ?).
    exists f''. by rewrite setObj_lookup_ne.
  - intros r' P' Hr' HP'.
    apply (setObj_pathsOf r f); [by rewrite Hsame | done | by apply Ho].
Qed.

Lemma setObj_setObj r f f' w : setObj r f' (setObj r f w) = setObj r f' w.
Proof. unfold setObj. simpl. by rewrite insert_insert_eq. Qed.

Lemma ready_setObj r fl w P f f' :
  ready r fl w P f → pathsIdx f' = pathsIdx f →
  ready r fl (setObj r f' w) P f'.
Proof.
  intros (Hok & Hwf & HP & Hb & Hf) Hp.
  split; [by apply tables_ok_set_revFiles|].
  split; [by apply setObj_loader_wf|].
  split; [by apply (setObj_pathsOf r f)|].
  split; [done | apply setObj_lookup].
Qed.

(** An update of the object at [r] that leaves its paths, parents and the
    number of its statuses alone. *)
Lemma stepped_update r fl w P f new pars fl' w' f' (g : RevisionFile → RevisionFile) :
  stepped r fl w P f new pars fl' w' →
  revFiles w' !! r = Some f' →
  pathsIdx (g f') = pathsIdx f' → mergeParent (g f') = mergeParent f' →
  length (status (g f')) = length (status f') →
  stepped r fl w P f new pars fl' (setObj r (g f') w').
Proof.
  intros (f1 & R & E & L & I & M & S & K & O) Hf' G1 G2 G3.
  assert (f1 = f') as -> by (apply ready_object in R; congruence).
  exists (g f'). split; [by apply (ready_setObj _ _ _ _ f')|].
  split_and!; try done; try congruence.
  - intros r' f0 Hr' Hf0. destruct (K _ _ Hr' Hf0) as (f0' & ? & ?).
    exists f0'. by rewrite setObj_lookup_ne.
  - intros r' P' Hr' HP'. apply (setObj_pathsOf r f'); [done|done|by apply O].
Qed.

Ltac run_updates H :=
  repeat first
    [ rewrite bind_Ok_l in H
    | rewrite update_setObj in H
    | erewrite update_alive in H by eassumption ].

Lemma setExtStatus_stepped r rowSt p fl w P f fl' w' :
  ready r fl w P f →
  setExtStatus r rowSt p fl w = Ok (fl', w') →
  stepped r fl w P f (rowPaths rowSt)
          (replicate (length (rowPaths rowSt)) p) fl' w'.
Proof.
  intros Hr H. unfold setExtStatus, rowPaths in *.
  destruct (QString.split rowSt TAB) as [|tok [|orig [|dest [|]]]];
    try (injection H as <- <-; by apply stepped_refl).
  set (ext := orig +:+ " --> " +:+ dest +:+ " (" +:+
              QString.number (QString.toInt (QString.remove_first tok)) +:+ "%)") in *.
  destruct (entry_stepped r dest (extEntry RevisionFile.NEW p ext) p
              fl w P f Hr) as (fl1 & w1 & Ha & Hf1 & St1); try done.
  { simpl. rewrite length_app. simpl. lia. }
  rewrite Ha in H. run_updates H.
  change (RevisionFile.appendExtStatus ext
            (RevisionFile.setStatusFlag RevisionFile.NEW
               (RevisionFile.mergeParent_append p f)))
    with (extEntry RevisionFile.NEW p ext f) in H.
  destruct (QString.at_ (QString.remove_first tok) 0) as [c|]; [|done].
  cbn [fromOption] in H. run_updates H.
  destruct (Ascii.eqb c "R").
  - set (f1 := extEntry RevisionFile.NEW p ext f) in *.
    assert (Hr1 : ready r fl1 (setObj r f1 w1) (P ++ [dest]) f1).
    { destruct St1 as (f1' & R1 & _).
      pose proof (ready_object _ _ _ _ _ R1) as E.
      rewrite setObj_lookup in E.
      assert (E' : f1' = f1) by congruence. by rewrite E' in R1. }
    destruct (entry_stepped r orig (extEntry RevisionFile.DELETED p ext) p
                fl1 (setObj r f1 w1) (P ++ [dest]) f1 Hr1)
      as (fl2 & w2 & Ha2 & Hf2 & St2); try done.
    { simpl. rewrite !length_app. simpl. lia. }
    rewrite Ha2 in H. run_updates H.
    change (RevisionFile.appendExtStatus ext
              (RevisionFile.setStatusFlag RevisionFile.DELETED
                 (RevisionFile.mergeParent_append p f1)))
      with (extEntry RevisionFile.DELETED p ext f1) in H.
    injection H as <- <-.
    rewrite <- (setObj_setObj r (extEntry RevisionFile.DELETED p ext f1)).
    apply (stepped_update _ _ _ _ _ _ _ _ _
             (extEntry RevisionFile.DELETED p ext f1)); try done.
    + apply (stepped_trans r fl w P f [dest] [p] fl1 (setObj r f1 w1) f1
               [orig] [p]); [done | apply setObj_lookup | done].
    + apply setObj_lookup.
  - run_updates H. injection H as <- <-.
    rewrite <- (setObj_setObj r (extEntry RevisionFile.NEW p ext f)).
    apply (stepped_update _ _ _ _ _ _ _ _ _
             (extEntry RevisionFile.NEW p ext f)); try done.
    apply setObj_lookup.
Qed.

Lemma parseDiffFormatLine_stepped r line p fl w P f fl' w' :
  ready r fl w P f →
  parseDiffFormatLine r line p fl w = Ok (fl', w') →
  stepped r fl w P f (linePaths line)
          (replicate (length (linePaths line)) p) fl' w'.
Proof.
  intros Hr H. unfold parseDiffFormatLine, linePaths in *.
  destruct (QString.at_ line 1) as [c1|]; [|done].
  cbn [fromOption] in H. run_updates H.
  destruct (Ascii.eqb c1 ":").
  - destruct (entry_stepped r (QString.section_last line TAB)
                (λ x, RevisionFile.mergeParent_append p
                        (RevisionFile.setStatus "M" x)) p fl w P f Hr)
      as (fl1 & w1 & Ha & Hf1 & St1); try done.
    { simpl. rewrite length_app. simpl. lia. }
    rewrite Ha in H. run_updates H. by injection H as <- <-.
  - destruct (QString.at_ line 98) as [c98|]; [|done].
    cbn [fromOption] in H. run_updates H.
    destruct (Ascii.eqb c98 TAB); [|by apply setExtStatus_stepped].
    destruct (QString.at_ line 97) as [c97|] eqn:E97.
    + destruct (entry_stepped r (QString.mid line 99)
                  (λ x, RevisionFile.mergeParent_append p
                          (RevisionFile.setStatus c97 x)) p fl w P f Hr)
        as (fl1 & w1 & Ha & Hf1 & St1); try done.
      { unfold RevisionFile.setStatus.
        by destruct (RevisionFile.statusOfCode c97). }
      { unfold RevisionFile.setStatus.
        by destruct (RevisionFile.statusOfCode c97). }
      { unfold RevisionFile.setStatus.
        destruct (RevisionFile.statusOfCode c97). simpl.
        rewrite length_app. simpl. lia. }
      rewrite Ha in H. run_updates H. cbn [fromOption] in H.
      run_updates H. by injection H as <- <-.
    + destruct (appendFileName _ _ _ _) as [[? ?]|]; done.
Qed.

(** ** The loop over the records *)

Lemma parseRecords_stepped r recs p fl w P f fl' w' :
  ready r fl w P f →
  parseRecords r recs p fl w = Ok (fl', w') →
  stepped r fl w P f (recordsPaths recs) (recordsParents recs p) fl' w'.
Proof.
  revert p fl w P f.
  induction recs as [|line recs IH]; intros p fl w P f Hr H; simpl in *.
  - injection H as <- <-. by apply stepped_refl.
  - unfold isChange.
    destruct (QString.at_ line 0) as [c0|]; [|done].
    cbn [fromOption] in H. rewrite bind_Ok_l in H.
    destruct (Ascii.eqb c0 ":").
    + destruct (parseDiffFormatLine r line p fl w) as [[fl1 w1]|] eqn:E; [|done].
      rewrite bind_Ok_l in H.
      pose proof (parseDiffFormatLine_stepped _ _ _ _ _ _ _ _ _ Hr E) as St1.
      destruct St1 as (f1 & R1 & St1).
      eapply stepped_trans.
      * exists f1. split; [exact R1 | exact St1].
      * by eapply ready_object.
      * by apply IH.
    + by apply IH.
Qed.

(** [parseDiffFormat] is the loop over the records of the buffer; its bound
    on the iterations is never reached. *)
Lemma parseDiffFormat_records r buf fl w :
  parseDiffFormat r buf fl w = parseRecords r (records buf) 1 fl w.
Proof.
  unfold parseDiffFormat, records. apply parseDiffFormat_loop_records.
  destruct (indexOf_range buf NL 0) as [?|?]; [lia | by left | right; lia].
Qed.

Lemma recordsParents_counter recs p :
  recordsParents recs p =
  concat (imap (λ i line,
                  if isChange line
                  then replicate (length (linePaths line))
                                 (p + Z.of_nat (separators (take i recs)))
                  else []) recs).
Proof.
  revert p. induction recs as [|line recs IH]; intros p; [done|].
  simpl. change (separators []) with 0%nat. rewrite Z.add_0_r.
  destruct (isChange line) eqn:E.
  - f_equal. rewrite IH. f_equal.
    apply imap_ext. intros i l _. simpl. unfold separators. simpl.
    rewrite filter_cons_False by (rewrite E; done). done.
  - simpl. rewrite IH. f_equal. apply imap_ext. intros i l _. simpl.
    unfold separators. simpl. rewrite filter_cons_True by done.
    simpl. destruct (isChange l); [|done]. f_equal. lia.
Qed.

(** *** The records tile the buffer *)

Lemma at_mid (s : string) (a k : nat) :
  QString.at_ (QString.mid s a) k = QString.at_ s (a + k).
Proof.
  unfold QString.at_. revert s.
  induction a as [|a IH]; intros [|c s]; simpl; done.
Qed.

Lemma mid_mid (s : string) (a b : nat) :
  QString.mid (QString.mid s a) b = QString.mid s (a + b).
Proof.
  revert s. induction a as [|a IH]; intros [|c s]; simpl; try done.
  by destruct b.
Qed.

Lemma mid_at (s : string) (p : nat) (c : ascii) :
  QString.at_ s p = Some c → QString.mid s p = String c (QString.mid s (S p)).
Proof.
  unfold QString.at_. revert s.
  induction p as [|p IH]; intros [|a s]; simpl; try done.
  - by intros [= ->].
  - apply IH.
Qed.

Lemma find_at (c : ascii) (s : string) (k : nat) :
  QString.find c s = Some k → QString.at_ s k = Some c.
Proof.
  unfold QString.at_. revert k.
  induction s as [|a s IH]; intros k; simpl; [done|].
  destruct (Ascii.eqb a c) eqn:E.
  - intros [= <-]. apply Ascii.eqb_eq in E. by subst.
  - destruct (QString.find c s) as [k'|]; simpl; [|done].
    intros [= <-]. by apply IH.
Qed.

Lemma indexOf_at (buf : string) (c : ascii) (from : Z) :
  0 ≤ from → QString.indexOf buf c from ≠ -1 →
  QString.at_ buf (Z.to_nat (QString.indexOf buf c from)) = Some c.
Proof.
  intros Hfrom. unfold QString.indexOf.
  replace (from <? 0) with false by (symmetry; apply Z.ltb_ge; lia).
  destruct (QString.find c _) as [k|] eqn:E; [|done]. intros _.
  apply find_at in E. rewrite at_mid in E.
  by replace (Z.to_nat (from + Z.of_nat k)) with (Z.to_nat from + k)%nat by lia.
Qed.

Lemma append_assoc (s1 s2 s3 : string) :
  (s1 +:+ s2) +:+ s3 = s1 +:+ (s2 +:+ s3).
Proof.
  induction s1 as [|a s1 IH]; [done|].
  by rewrite !append_String, IH.
Qed.

Lemma records_loop_tile (fuel : nat) (buf : string) (startPos endPos : Z) :
  endPos = -1 ∨
    (0 ≤ startPos ≤ endPos ∧
     QString.at_ buf (Z.to_nat endPos) = Some NL) →
  ∃ rest, QString.mid buf (Z.to_nat startPos)
          = joinRecords (records_loop fuel buf startPos endPos) +:+ rest.
Proof.
  revert startPos endPos.
  induction fuel as [|fuel IH]; intros startPos endPos Hm; simpl.
  - destruct (endPos =? -1); by eexists.
  - destruct (endPos =? -1) eqn:E; [by eexists|]. apply Z.eqb_neq in E.
    destruct Hm as [?|[H0 Hnl]]; [done|].
    destruct (IH (endPos + 1) (QString.indexOf buf NL (endPos + 99)))
      as [rest Hrest].
    { destruct (indexOf_range buf NL (endPos + 99)) as [?|?];
        [lia | by left | right].
      split; [lia|]. apply indexOf_at; lia. }
    exists rest. cbn [joinRecords].
    rewrite append_assoc, append_String, <- Hrest.
    replace (Z.to_nat (endPos + 1)) with (S (Z.to_nat endPos)) by lia.
    rewrite <- (mid_at _ _ _ Hnl).
    rewrite <- (left_mid (QString.mid buf (Z.to_nat startPos))
                         (Z.to_nat (endPos - startPos))) at 1.
    rewrite mid_mid. unfold QString.mid2. do 2 f_equal. lia.
Qed.

(** The records of a buffer, each with its newline, make up the buffer from
    its start, one after the other. *)
Lemma records_tile (buf : string) :
  ∃ rest, buf = joinRecords (records buf) +:+ rest.
Proof.
  destruct (records_loop_tile (S (QString.size buf)) buf 0
              (QString.indexOf buf NL 0)) as [rest H].
  - destruct (indexOf_range buf NL 0) as [?|?]; [lia | by left | right].
    split; [lia|]. apply indexOf_at; lia.
  - by exists rest.
Qed.

(** [parseDiffFormat] goes through the records of the buffer one by one, in
    order and each once, a record being what the loop delimits; the records
    with their newlines make up the buffer from its start.  The parent
    counter starts at 1 and is incremented once for each record that does
    not begin with a colon.  In a session where the target can take entries,
    a parse that runs to the end appends for each change record its paths,
    and to [mergeParent] as many copies of the value the counter had when
    the record was reached. *)
Lemma parseDiffFormat_stepped (r : addr) (buf : string)
    (fl : FileNamesLoader) (w : World) P f fl' w' :
  ready r fl w P f →
  parseDiffFormat r buf fl w = Ok (fl', w') →
  stepped r fl w P f (recordsPaths (records buf))
          (recordsParents (records buf) 1) fl' w'.
Proof.
  intros Hr H. rewrite parseDiffFormat_records in H.
  by apply parseRecords_stepped.
Qed.

Lemma parseDiffFormat_parent_counter (r : addr) (buf : string)
    (fl : FileNamesLoader) (w : World) P f fl' w' :
  ready r fl w P f →
  parseDiffFormat r buf fl w = Ok (fl', w') →
  ∃ f', revFiles w' !! r = Some f' ∧
    mergeParent f' =
      mergeParent f ++
      concat (imap (λ i line,
                      if isChange line
                      then replicate (length (linePaths line))
                                     (parentCounter (records buf) i)
                      else []) (records buf)) ∧
    pathsOf r fl' w' (P ++ recordsPaths (records buf)).
Proof.
  intros Hr H.
  destruct (parseDiffFormat_stepped _ _ _ _ _ _ _ _ Hr H)
    as (f' & (_ & _ & HP & _ & Hf') & _ & _ & _ & M & _).
  exists f'. split_and!; try done.
  by rewrite M, recordsParents_counter.
Qed.

Lemma ready_fresh (r : addr) (w : World) :
  tables_ok w →
  ready r FileNamesLoader.empty (declare r w) [] RevisionFile.empty.
Proof.
  intros Hok. split; [by apply tables_ok_set_revFiles|].
  split; [done|].
  split.
  - exists RevisionFile.empty. split; [apply lookup_insert_eq|].
    rewrite decide_False by done. split; [done|]. by intros i p.
  - split; [by right | apply lookup_insert_eq].
Qed.

(** C3, the code at the output of [git diff-tree -r -m] for a merge.  The
    buffer has four newline-terminated records: the commit name, the change
    of a.txt, the commit name again, the change of b.txt.  The loop looks
    for the end of a record only from 99 characters past the previous
    terminator on, so the second commit name and the change line after it
    are one record; it does not begin with a colon, the counter moves on,
    and the change of b.txt is never parsed.  The iteration over the
    newline-terminated records, which the comment of the loop ("avoid sha's
    in merges output") has in mind, appends both entries, with parents 2
    and 3. *)
Theorem parseDiffFormat_merges_output :
  newlineRecords mergesOutput =
    [Sample.sha; Sample.changeLine "M" "a.txt";
     Sample.sha; Sample.changeLine "M" "b.txt"] ∧
  records mergesOutput =
    [Sample.sha; Sample.changeLine "M" "a.txt";
     Sample.sha +:+ String NL (Sample.changeLine "M" "b.txt")] ∧
  (∃ fl w f,
     parseDiffFormat 0 mergesOutput FileNamesLoader.empty (declare 0 emptyWorld)
       = Ok (fl, w) ∧
     revFiles w !! 0%nat = Some f ∧
     mFileNames w = ["a.txt"] ∧ status f = [RevisionFile.MODIFIED] ∧
     mergeParent f = [2]) ∧
  (∃ fl w f,
     parseRecords 0 (newlineRecords mergesOutput) 1 FileNamesLoader.empty
                  (declare 0 emptyWorld) = Ok (fl, w) ∧
     revFiles w !! 0%nat = Some f ∧
     mFileNames w = ["a.txt"; "b.txt"] ∧
     status f = [RevisionFile.MODIFIED; RevisionFile.MODIFIED] ∧
     mergeParent f = [2; 3]).
Proof.
  split; [reflexivity|]. split; [reflexivity|]. split.
  - eexists _, _, _. split; [vm_compute; reflexivity|]. by split_and!.
  - eexists _, _, _. split; [vm_compute; reflexivity|]. by split_and!.
Qed.

(** ** Alignment of entries and parents *)

Lemma stored_tables w w' f P :
  mDirNames w' = mDirNames w → mFileNames w' = mFileNames w →
  stored w f P → stored w' f P.
Proof.
  intros E1 E2. apply stored_extends. split; by rewrite ?E1, ?E2.
Qed.

Lemma loader_wf_empty w : loader_wf FileNamesLoader.empty w.
Proof. done. Qed.

Lemma flushFileNames_step fl w :
  tables_ok w → loader_wf fl w →
  ∃ w',
    flushFileNames fl w = Ok (FileNamesLoader.empty, w') ∧
    tables_ok w' ∧ extends w w' ∧ metaKept w w' ∧
    (∀ r P, pathsOf r fl w P → pathsOf r FileNamesLoader.empty w' P).
Proof.
  intros Hok [Hl Hwf]. destruct (rf fl) as [r0|] eqn:E.
  - destruct Hwf as [f0 Hf0].
    rewrite (flushFileNames_bound _ _ _ _ E Hf0 Hl).
    eexists. split; [reflexivity|].
    split; [by apply tables_ok_set_revFiles|].
    split; [done|].
    split.
    + intros r f Hf. simpl. destruct (decide (r = r0)) as [-> |Hne].
      * rewrite lookup_insert_eq. eexists. split; [done|].
        assert (f = f0) by congruence. by subst.
      * rewrite lookup_insert_ne by done. exists f. by split.
    + intros r P (f & Hf & HP). unfold pathsOf. simpl.
      destruct (decide (r = r0)) as [-> |Hne].
      * assert (f = f0) by congruence; subst f.
        rewrite decide_True in HP by done.
        eexists. rewrite lookup_insert_eq. split; [done|].
        try (rewrite decide_False by done).
        apply (stored_tables w); [done|done|].
        by apply (bufferDenotes_stored _ fl).
      * rewrite decide_False in HP by congruence.
        exists f. rewrite lookup_insert_ne by done. split; [done|].
        try (rewrite decide_False by done). by apply (stored_tables w).
  - rewrite flushFileNames_unbound by done.
    assert (fl = FileNamesLoader.empty) as ->.
    { destruct fl as [b ds ns]. simpl in *. subst.
      destruct ns; [done|discriminate]. }
    exists w. split; [done|]. split; [done|].
    split; [apply extends_refl|]. split; [apply metaKept_refl|]. done.
Qed.

Lemma fresh_not_alive (w : World) :
  revFiles w !! fresh (dom (revFiles w)) = None.
Proof. apply not_elem_of_dom. apply is_fresh. Qed.

Lemma insertNewFiles_holds sha data g f g' :
  tables_ok (world g) →
  insertNewFiles sha data g = Ok (f, g') →
  holds (world g') f (recordsPaths (records data))
        (recordsParents (records data) 1) ∧
  tables_ok (world g') ∧
  revisionFiles (mRevCache g') !! sha = Some f.
Proof.
  intros Hok H. unfold insertNewFiles in H.
  set (r := fresh (dom (revFiles (world g)))) in *.
  inv_bind H. destruct a as [fl1 w1].
  pose proof (parseDiffFormat_stepped _ _ _ _ _ _ _ _ (ready_fresh r _ Hok) Ha)
    as (f1 & (Hok1 & Hwf1 & HP1 & _ & Hf1) & _ & L1 & _ & M1 & S1 & _).
  inv_bind H. destruct a as [fl2 w2].
  destruct (flushFileNames_step _ _ Hok1 Hwf1)
    as (w2' & Hfl & Hok2 & He2 & Hk2 & Hp2).
  rewrite Hfl in Ha0. injection Ha0 as <- <-.
  inv_bind H. injection H as <- <-.
  unfold deref in Ha0. apply fromOption_Ok in Ha0.
  destruct (Hk2 _ _ Hf1) as (f2 & Hf2 & (K1 & K2 & K3 & K4)).
  assert (a = f2) as -> by congruence.
  destruct (Hp2 _ _ HP1) as (f2' & Hf2' & St).
  assert (f2' = f2) as -> by congruence.
  rewrite decide_False in St by done.
  simpl in M1, S1. split.
  - split; [|split; [|split]].
    + destruct St as [-> _]. by rewrite K3, M1, L1.
    + rewrite K1, K3, S1, M1. lia.
    + by rewrite K3, M1.
    + by apply (stored_tables w2').
  - split; [by apply tables_ok_set_revFiles|]. simpl. apply lookup_insert_eq.
Qed.

Lemma stored_pathsIdx w f f' P :
  pathsIdx f' = pathsIdx f → stored w f P → stored w f' P.
Proof.
  intros Hp [Hc Hfp]. split.
  - unfold RevisionFile.count in *. by rewrite Hp.
  - intros i p Hi. specialize (Hfp i p Hi). rewrite filePath_resolve in *.
    unfold RevisionFile.dirAt, RevisionFile.nameAt, RevisionFile.count in *.
    by rewrite Hp.
Qed.

Lemma appendOtherFiles_stepped r others fl w P f fl' w' :
  ready r fl w P f →
  appendOtherFiles r others fl w = Ok (fl', w') →
  stepped r fl w P f others (replicate (length others) 1) fl' w'.
Proof.
  revert fl w P f.
  induction others as [|it others IH]; intros fl w P f Hr H; simpl in *.
  - injection H as <- <-. by apply stepped_refl.
  - destruct (entry_stepped r it
                (λ x, RevisionFile.mergeParent_append 1
                        (RevisionFile.setStatusFlag RevisionFile.UNKNOWN x))
                1 fl w P f Hr) as (fl1 & w1 & Ha & Hf1 & St1); try done.
    { simpl. rewrite length_app. simpl. lia. }
    rewrite Ha in H. run_updates H.
    pose proof St1 as (f1 & R1 & _).
    change (it :: others) with ([it] ++ others).
    change (1 :: replicate (length others) 1)
      with ([1] ++ replicate (length others) 1).
    eapply stepped_trans;
      [exact St1 | by eapply ready_object | by apply IH].
Qed.

(** A new object at a fresh address leaves the others as they are and can
    take entries. *)
Lemma declare_ready a fl w :
  tables_ok w → loader_wf fl w → revFiles w !! a = None →
  ready a fl (declare a w) [] RevisionFile.empty ∧
  (∀ r P, r ≠ a → pathsOf r fl w P → pathsOf r fl (declare a w) P) ∧
  (∀ r f, r ≠ a → revFiles w !! r = Some f →
          revFiles (declare a w) !! r = Some f).
Proof.
  intros Hok [Hl Hwf] Hfresh.
  assert (Hnb : rf fl ≠ Some a).
  { intros E. rewrite E in Hwf. destruct Hwf as [? ?]. congruence. }
  split; [|split].
  - split; [by apply tables_ok_set_revFiles|].
    split.
    { split; [done|]. destruct (rf fl) as [r0|]; [|done].
      destruct Hwf as [f0 Hf0]. exists f0. unfold declare. simpl.
      rewrite lookup_insert_ne; [done|]. congruence. }
    split.
    { exists RevisionFile.empty. split; [apply lookup_insert_eq|].
      rewrite decide_False by done. split; [done|]. by intros i p. }
    split; [by right | apply lookup_insert_eq].
  - intros r P Hne (f & Hf & HP). exists f. unfold declare. simpl.
    rewrite lookup_insert_ne by done. split; [done|].
    case_decide; [done|]. by apply (stored_tables w).
  - intros r f Hne Hf. unfold declare. simpl. by rewrite lookup_insert_ne.
Qed.

Lemma updateOpt_appendStatus s r i flag w w' f :
  updateOpt s r (RevisionFile.appendStatus i flag) w = Ok w' →
  revFiles w !! r = Some f →
  ∃ f', w' = setObj r f' w ∧ pathsIdx f' = pathsIdx f ∧
        mergeParent f' = mergeParent f ∧
        length (status f') = length (status f).
Proof.
  intros H Hf. unfold updateOpt, deref in H. rewrite Hf in H.
  cbn [fromOption] in H. rewrite bind_Ok_l in H.
  unfold RevisionFile.appendStatus in H.
  destruct (status f !! i) as [st|]; [|done]. simpl in H.
  injection H as <-. eexists. split; [reflexivity|]. simpl.
  by rewrite length_insert.
Qed.

Lemma sameTables_refl w : sameTables w w.
Proof. done. Qed.

Lemma sameTables_trans w1 w2 w3 :
  sameTables w1 w2 → sameTables w2 w3 → sameTables w1 w3.
Proof.
  intros (A1 & A2 & A3 & A4) (B1 & B2 & B3 & B4).
  unfold sameTables. by rewrite B1, B2, B3, B4.
Qed.

Lemma sameTables_setObj r f w : sameTables w (setObj r f w).
Proof. done. Qed.

Lemma tables_ok_sameTables w w' : sameTables w w' → tables_ok w → tables_ok w'.
Proof.
  intros (A1 & A2 & A3 & A4) [H1 H2]. unfold tables_ok.
  by rewrite A1, A2, A3, A4.
Qed.

Lemma marked_refl r w : marked r w w.
Proof. split; [done|]. intros f Hf. by exists f. Qed.

Lemma marked_trans r w1 w2 w3 : marked r w1 w2 → marked r w2 w3 → marked r w1 w3.
Proof.
  intros [T1 H1] [T2 H2]. split; [by eapply sameTables_trans|].
  intros f Hf. destruct (H1 _ Hf) as (f2 & Hf2 & A1 & A2 & A3).
  destruct (H2 _ Hf2) as (f3 & Hf3 & B1 & B2 & B3).
  exists f3. split; [done|]. split_and!; congruence.
Qed.

Lemma updateOpt_appendStatus_marked s r i flag w w' :
  updateOpt s r (RevisionFile.appendStatus i flag) w = Ok w' → marked r w w'.
Proof.
  intros H. pose proof H as H'. unfold updateOpt in H'.
  apply bind_Ok in H'. destruct H' as (f & Hd & _).
  apply fromOption_Ok in Hd.
  destruct (updateOpt_appendStatus _ _ _ _ _ _ _ H Hd) as (f' & -> & ? & ? & ?).
  split; [apply sameTables_setObj|].
  intros f0 Hf0. assert (f0 = f) by congruence; subst f0.
  exists f'. by rewrite setObj_lookup.
Qed.

(** The loop that marks the staged entries touches nothing but the statuses
    of the object at [r], and keeps their number. *)
Lemma markCached_loop_inv r cached i todo w w' :
  markCached_loop r cached i todo w = Ok w' → marked r w w'.
Proof.
  revert i w. induction todo as [|todo IH]; intros i w H; simpl in H.
  - injection H as <-. apply marked_refl.
  - inv_bind H. inv_bind H. inv_bind H. inv_bind H. inv_bind H.
    rename a into f0, a0 into cachedFiles, a1 into p, a2 into found,
           a3 into w1.
    apply (marked_trans r w w1); [|by eapply IH].
    destruct (negb (found =? -1)).
    + inv_bind Ha3. rename a into w0.
      apply (marked_trans r w w0).
      * destruct (RevisionFile.statusCmp cachedFiles i RevisionFile.CONFLICT).
        -- by eapply updateOpt_appendStatus_marked.
        -- injection Ha4 as <-. apply marked_refl.
      * by eapply updateOpt_appendStatus_marked.
    + injection Ha3 as <-. apply marked_refl.
Qed.

Lemma filePath_same w w' f f' i :
  sameTables w w' → pathsIdx f' = pathsIdx f →
  filePath w' f' i = filePath w f i.
Proof.
  intros (T1 & T2 & _ & _) Hp.
  unfold filePath, RevisionFile.dirAt, RevisionFile.nameAt, RevisionFile.count.
  by rewrite T1, T2, Hp.
Qed.

Lemma findFileIndex_loop_same w w' f dr nm i todo :
  sameTables w w' →
  findFileIndex_loop w' f dr nm i todo = findFileIndex_loop w f dr nm i todo.
Proof.
  intros (T1 & T2 & _ & _). revert i.
  induction todo as [|todo IH]; intros i; simpl; [done|].
  rewrite T1, T2.
  destruct (RevisionFile.nameAt f i) as [n|]; simpl; [|done].
  destruct (mFileNames w !! n) as [fn|]; simpl; [|done].
  destruct (RevisionFile.dirAt f i) as [d|]; simpl; [|done].
  destruct (mDirNames w !! d) as [dn|]; simpl; [|done].
  by rewrite IH.
Qed.

Lemma findFileIndex_same w w' f name :
  sameTables w w' → findFileIndex w' f name = findFileIndex w f name.
Proof.
  intros T. unfold findFileIndex. destruct (QString.isEmpty name); [done|].
  by apply findFileIndex_loop_same.
Qed.

Lemma updateOpt_appendStatus_eq s r i flag w w' f :
  updateOpt s r (RevisionFile.appendStatus i flag) w = Ok w' →
  revFiles w !! r = Some f →
  ∃ st, status f !! i = Some st ∧
        w' = setObj r (mkRevisionFile (pathsIdx f)
                         (<[i := Z.lor st flag]> (status f))
                         (extStatus f) (mergeParent f) (onlyModified f)) w.
Proof.
  intros H Hf. unfold updateOpt, deref in H. rewrite Hf in H.
  cbn [fromOption] in H. rewrite bind_Ok_l in H.
  unfold RevisionFile.appendStatus in H.
  destruct (status f !! i) as [st|]; [|done]. simpl in H.
  injection H as <-. by exists st.
Qed.

(** What the marking loop does to the statuses of the object at [r]. *)
Lemma markCached_loop_marks r cached c w0 f0 i todo w w' f :
  r ≠ cached →
  sameTables w0 w → pathsIdx f = pathsIdx f0 →
  revFiles w !! r = Some f → revFiles w !! cached = Some c →
  markCached_loop r cached i todo w = Ok w' →
  ∃ f', revFiles w' !! r = Some f' ∧
        status f' = markStatuses w0 f0 c i todo (status f).
Proof.
  intros Hne. revert i w f.
  induction todo as [|todo IH]; intros i w f T Hp Hf Hc H; simpl in H.
  - injection H as <-. by exists f.
  - unfold deref in H. rewrite Hf, Hc in H. cbn [fromOption] in H.
    rewrite !bind_Ok_l in H.
    rewrite (filePath_same w0 w f0 f i T Hp) in H.
    simpl. unfold markAt, staged.
    destruct (filePath w0 f0 i) as [p|] eqn:Ep; [|done].
    rewrite bind_Ok_l in H. rewrite (findFileIndex_same w0 w c p T) in H.
    rewrite bind_Ok_l.
    destruct (findFileIndex w0 c p) as [found|] eqn:Ef; [|done].
    rewrite bind_Ok_l in H.
    destruct (negb (found =? -1)).
    + (* the path is staged *)
      inv_bind H. inv_bind Ha. rename a0 into w1, a into w2.
      destruct (RevisionFile.statusCmp c i RevisionFile.CONFLICT).
      * destruct (updateOpt_appendStatus_eq _ _ _ _ _ _ _ Ha0 Hf)
          as (st & Est & ->).
        destruct (updateOpt_appendStatus_eq _ _ _ _ _ _ _ Ha
                    (setObj_lookup _ _ _)) as (st' & Est' & ->).
        simpl in Est'.
        rewrite list_lookup_insert_eq in Est'
          by (by apply lookup_lt_Some in Est).
        injection Est' as <-. rewrite setObj_setObj in H. rewrite Est.
        eapply IH in H; cycle 3;
          [apply setObj_lookup | by rewrite setObj_lookup_ne | | done | done].
        simpl in H. by rewrite list_insert_insert_eq in H.
      * injection Ha0 as <-.
        destruct (updateOpt_appendStatus_eq _ _ _ _ _ _ _ Ha Hf)
          as (st & Est & ->).
        rewrite Est.
        eapply IH in H; cycle 3;
          [apply setObj_lookup | by rewrite setObj_lookup_ne | | done | done].
        exact H.
    + (* it is not *)
      rewrite bind_Ok_l in H.
      destruct (status f !! i) as [st|] eqn:Est.
      * rewrite list_insert_id by done. by eapply IH.
      * by eapply IH.
Qed.

Lemma markStatuses_lookup w f c i todo sts j :
  markStatuses w f c i todo sts !! j =
  if decide (i ≤ j < i + todo)%nat then markAt w f c j <$> sts !! j
  else sts !! j.
Proof.
  revert i sts. induction todo as [|todo IH]; intros i sts; simpl.
  - case_decide; [lia|done].
  - rewrite IH. destruct (decide (j = i)) as [->|Hne].
    + rewrite decide_False by lia. rewrite decide_True by lia.
      destruct (sts !! i) as [st|] eqn:Est; [|by rewrite Est].
      rewrite list_lookup_insert_eq by (by apply lookup_lt_Some in Est).
      done.
    + assert (E : (match sts !! i with
                   | Some st => <[i := markAt w f c i st]> sts
                   | None => sts
                   end) !! j = sts !! j).
      { destruct (sts !! i); [|done]. by rewrite list_lookup_insert_ne. }
      rewrite E. repeat case_decide; try done; lia.
Qed.

(** The loop of [fakeWorkDirRevFile], entry by entry: the status at [j] gets
    In-Index when the path of entry [j] is staged, and then Conflict as well
    when the staged parse has a conflict at the same position [j]. *)
Lemma markCached_loop_status r cached c w f w' :
  r ≠ cached →
  revFiles w !! r = Some f → revFiles w !! cached = Some c →
  markCached_loop r cached 0 (RevisionFile.count f) w = Ok w' →
  ∃ f', revFiles w' !! r = Some f' ∧
        ∀ j, status f' !! j =
             if decide (j < RevisionFile.count f)%nat
             then markAt w f c j <$> status f !! j
             else status f !! j.
Proof.
  intros Hne Hf Hc H.
  destruct (markCached_loop_marks r cached c w f 0 _ w w' f Hne
              (sameTables_refl w) eq_refl Hf Hc H) as (f' & Hf' & E).
  exists f'. split; [done|]. intros j. rewrite E, markStatuses_lookup.
  repeat case_decide; try done; lia.
Qed.

Lemma fakeWorkDirRevFile_holds wd w f w' :
  tables_ok w →
  fakeWorkDirRevFile wd w = Ok (f, w') →
  holds w' f
        (recordsPaths (records (diffIndex wd)) ++ otherFiles wd)
        (recordsParents (records (diffIndex wd)) 1
           ++ replicate (length (otherFiles wd)) 1) ∧
  tables_ok w'.
Proof.
  intros Hok H. unfold fakeWorkDirRevFile in H.
  set (r := fresh (dom (revFiles w))) in *.
  (* the baseline *)
  inv_bind H. destruct a as [fl1 w1].
  pose proof (parseDiffFormat_stepped _ _ _ _ _ _ _ _ (ready_fresh r _ Hok) Ha)
    as St1.
  pose proof St1 as (f1 & R1 & _).
  pose proof (ready_object _ _ _ _ _ R1) as Hf1.
  inv_bind H. rewrite (update_alive _ _ _ _ Hf1) in Ha0. injection Ha0 as <-.
  pose proof (stepped_update _ _ _ _ _ _ _ _ _ _
                (RevisionFile.setOnlyModified false) St1 Hf1
                eq_refl eq_refl eq_refl) as St2.
  (* the untracked files *)
  inv_bind H. destruct a as [fl3 w3].
  pose proof St2 as (f2 & R2 & _).
  pose proof (appendOtherFiles_stepped _ _ _ _ _ _ _ _ R2 Ha0) as St3.
  pose proof (stepped_trans _ _ _ _ _ _ _ _ _ _ _ _ _ _ St2
                (ready_object _ _ _ _ _ R2) St3) as St.
  destruct St as (f3 & (Hok3 & Hwf3 & HP3 & _ & Hf3) & _ & L3 & _ & M3 & S3 & _).
  simpl in M3, S3, HP3.
  (* the staged changes *)
  set (cached := fresh (dom (revFiles w3))) in *.
  assert (Hne : r ≠ cached).
  { intros E. pose proof (fresh_not_alive w3) as Hn. fold cached in Hn.
    rewrite <- E in Hn. congruence. }
  destruct (declare_ready cached fl3 w3 Hok3 Hwf3 (fresh_not_alive w3))
    as (Rc & Hpd & Hod).
  inv_bind H. destruct a as [fl5 w5].
  pose proof (parseDiffFormat_stepped _ _ _ _ _ _ _ _ Rc Ha1)
    as (fc & (Hok5 & Hwf5 & _) & _ & _ & _ & _ & _ & K5 & O5).
  pose proof (O5 r _ Hne (Hpd r _ Hne HP3)) as HP5.
  destruct (K5 r f3 Hne (Hod r f3 Hne Hf3)) as (f5 & Hf5 & SM5).
  (* the flush *)
  inv_bind H. destruct a as [fl6 w6].
  destruct (flushFileNames_step _ _ Hok5 Hwf5)
    as (w6' & Hfl & Hok6 & _ & K6 & P6).
  rewrite Hfl in Ha2. injection Ha2 as <- <-.
  destruct (K6 _ _ Hf5) as (f6 & Hf6 & SM6).
  destruct (P6 _ _ HP5) as (f6' & Hf6' & St6).
  assert (f6' = f6) by congruence; subst f6'.
  rewrite decide_False in St6 by done.
  (* the marks *)
  apply bind_Ok in H. destruct H as (f6' & _ & H).
  apply bind_Ok in H. destruct H as (w7 & Hloop & H).
  apply bind_Ok in H. destruct H as (f7' & Hd7 & H).
  injection H as <- <-.
  unfold deref in Hd7. apply fromOption_Ok in Hd7.
  destruct (markCached_loop_inv _ _ _ _ _ _ Hloop) as [T Hm7].
  destruct (Hm7 _ Hf6) as (f7 & Hf7 & I7 & M7 & S7).
  pose proof T as (T1 & T2 & _ & _).
  assert (f7' = f7) by congruence; subst f7'.
  destruct (sameMeta_trans _ _ _ SM5 SM6) as (K1 & _ & K3 & _).
  assert (HM : mergeParent f7 =
               recordsParents (records (diffIndex wd)) 1
                 ++ replicate (length (otherFiles wd)) 1).
  { by rewrite M7, K3, M3. }
  assert (HL : length (mergeParent f7) =
               length (recordsPaths (records (diffIndex wd)) ++ otherFiles wd)).
  { by rewrite HM, L3. }
  split; [|by apply (tables_ok_sameTables w6')].
  split; [|split; [|split]].
  - apply (stored_pathsIdx _ _ f7) in St6; [|done].
    destruct St6 as [-> _]. by rewrite HL.
  - rewrite S7, K1, S3, HL, length_app. done.
  - done.
  - apply (stored_tables w6'); [done|done|].
    by apply (stored_pathsIdx _ f6).
Qed.

(** C8. A RevisionFile that the diff parser ([insertNewFiles]) or the
    working-directory synthesizer ([fakeWorkDirRevFile]) returns has as many
    entries as parent indices (and as statuses).  Its entries are the paths
    of the change records of the input in the order of the records, followed
    for the synthesizer by the untracked paths in their order; its parent
    indices are the values the records gave them, followed by one 1 for each
    untracked path. *)
Theorem revisionFile_entries_aligned :
  (∀ sha data g f g',
     tables_ok (world g) →
     insertNewFiles sha data g = Ok (f, g') →
     RevisionFile.count f = length (mergeParent f) ∧
     length (status f) = length (mergeParent f) ∧
     mergeParent f = recordsParents (records data) 1 ∧
     stored (world g') f (recordsPaths (records data)) ∧
     tables_ok (world g')) ∧
  (∀ wd w f w',
     tables_ok w →
     fakeWorkDirRevFile wd w = Ok (f, w') →
     RevisionFile.count f = length (mergeParent f) ∧
     length (status f) = length (mergeParent f) ∧
     mergeParent f = recordsParents (records (diffIndex wd)) 1
                       ++ replicate (length (otherFiles wd)) 1 ∧
     stored w' f (recordsPaths (records (diffIndex wd)) ++ otherFiles wd) ∧
     tables_ok w').
Proof.
  split.
  - intros sha data g f g' Hok H.
    destruct (insertNewFiles_holds _ _ _ _ _ Hok H)
      as ((H1 & H2 & H3 & H4) & H5 & _).
    by split_and!.
  - intros wd w f w' Hok H.
    destruct (fakeWorkDirRevFile_holds wd w f w' Hok H)
      as ((H1 & H2 & H3 & H4) & H5).
    by split_and!.
Qed.

Lemma revisionFile_entries_aligned_witness :
  (∃ f g',
     insertNewFiles "HEAD"
       (Sample.unlines [Sample.changeLine "A" "src/a.txt";
                        Sample.changeLine "D" "b.txt"]) emptyGit = Ok (f, g') ∧
     RevisionFile.count f = 2%nat ∧ mergeParent f = [1; 1] ∧
     filePath (world g') f 0 = Ok "src/a.txt" ∧
     filePath (world g') f 1 = Ok "b.txt") ∧
  (∃ f w',
     fakeWorkDirRevFile stagedConflict emptyWorld = Ok (f, w') ∧
     RevisionFile.count f = 3%nat ∧ mergeParent f = [1; 1; 1] ∧
     filePath w' f 0 = Ok "a.txt" ∧ filePath w' f 1 = Ok "x.txt" ∧
     filePath w' f 2 = Ok "u.txt").
Proof.
  split.
  - destruct (insertNewFiles "HEAD"
       (Sample.unlines [Sample.changeLine "A" "src/a.txt";
                        Sample.changeLine "D" "b.txt"]) emptyGit)
      as [[f g']|] eqn:E; [|vm_compute in E; discriminate E].
    destruct (proj1 revisionFile_entries_aligned _ _ emptyGit _ _
                (tables_ok_empty ∅) E) as (Hc & _ & Hm & (_ & Hp) & _).
    exists f, g'. split; [reflexivity|].
    split; [|split; [|split]].
    + rewrite Hc, Hm. reflexivity.
    + rewrite Hm. reflexivity.
    + apply Hp. reflexivity.
    + apply Hp. reflexivity.
  - destruct (fakeWorkDirRevFile stagedConflict emptyWorld)
      as [[f w']|] eqn:E; [|vm_compute in E; discriminate E].
    destruct (proj2 revisionFile_entries_aligned _ emptyWorld _ _
                (tables_ok_empty ∅) E) as (Hc & _ & Hm & (_ & Hp) & _).
    exists f, w'. split; [reflexivity|].
    split; [|split; [|split; [|split]]].
    + rewrite Hc, Hm. reflexivity.
    + rewrite Hm. reflexivity.
    + apply Hp. reflexivity.
    + apply Hp. reflexivity.
    + apply Hp. reflexivity.
Defined.

(** C1, the code at a working directory whose staged entry for x.txt is in
    conflict.  The baseline holds a.txt and x.txt, both Modified; the staged
    parse holds a.txt, w.txt and x.txt, the last with the Conflict flag.
    [findFileIndex] finds x.txt among the staged entries, at position 2, and
    the In-Index flag is ORed onto the baseline entry; but the Conflict test
    [cachedFiles.statusCmp(i, CONFLICT)] is made at [i = 1], the position of
    x.txt in the baseline, where the staged parse has w.txt: the entry for
    x.txt ends up Modified and In-Index, without the Conflict flag. *)
Theorem fakeWorkDirRevFile_conflict_by_position :
  (∃ c g,
     insertNewFiles ZERO_SHA (diffIndexCached stagedConflict) emptyGit
       = Ok (c, g) ∧
     findFileIndex (world g) c "x.txt" = Ok 2 ∧
     RevisionFile.statusCmp c 2 RevisionFile.CONFLICT = true ∧
     filePath (world g) c 1 = Ok "w.txt" ∧
     RevisionFile.statusCmp c 1 RevisionFile.CONFLICT = false) ∧
  (∃ f w,
     fakeWorkDirRevFile stagedConflict emptyWorld = Ok (f, w) ∧
     filePath w f 1 = Ok "x.txt" ∧
     status f !! 1%nat
       = Some (Z.lor RevisionFile.MODIFIED RevisionFile.IN_INDEX) ∧
     RevisionFile.statusCmp f 1 RevisionFile.IN_INDEX = true ∧
     RevisionFile.statusCmp f 1 RevisionFile.CONFLICT = false).
Proof.
  split.
  - eexists _, _. split; [vm_compute; reflexivity|]. by split_and!.
  - eexists _, _. split; [vm_compute; reflexivity|]. by split_and!.
Qed.

(** The example of the spec, where the entry has the same position in both
    parses: the entry for x.txt carries Conflict and In-Index. *)
Lemma fakeWorkDirRevFile_single_conflict :
  ∃ f w,
    fakeWorkDirRevFile singleConflict emptyWorld = Ok (f, w) ∧
    RevisionFile.count f = 1%nat ∧ filePath w f 0 = Ok "x.txt" ∧
    RevisionFile.statusCmp f 0 RevisionFile.MODIFIED = true ∧
    RevisionFile.statusCmp f 0 RevisionFile.IN_INDEX = true ∧
    RevisionFile.statusCmp f 0 RevisionFile.CONFLICT = true.
Proof.
  eexists _, _. split; [vm_compute; reflexivity|]. by split_and!.
Qed.

(** ** The commit stream *)

Section Decoding.

Variable run : string → string → bool * string.
Variable fileExists : string → bool.
Variable currentSecsSinceEpoch : Z.
Variable isValid : CommitInfo → bool.






End Decoding.





(** ** Lookup by path *)

Lemma rfind_app (c : ascii) (a b : string) :
  QString.rfind c (a +:+ b) =
  match QString.rfind c b with
  | Some k => Some (String.length a + k)%nat
  | None => QString.rfind c a
  end.
Proof.
  induction a as [|x a IH]; rewrite ?append_String, ?append_empty; simpl.
  - by destruct (QString.rfind c b).
  - rewrite IH. by destruct (QString.rfind c b).
Qed.

Lemma rfind_at (c : ascii) (s : string) (k : nat) :
  QString.rfind c s = Some k → String.get k s = Some c.
Proof.
  revert k. induction s as [|a s IH]; intros k; simpl; [done|].
  destruct (QString.rfind c s) as [j|].
  - intros [= <-]. by apply IH.
  - destruct (Ascii.eqb a c) eqn:E; [|done]. intros [= <-].
    apply Ascii.eqb_eq in E. by subst.
Qed.

Lemma rfind_left (c : ascii) (s : string) (k : nat) :
  String.get k s = Some c → QString.rfind c (QString.left s (S k)) = Some k.
Proof.
  revert s. induction k as [|k IH]; intros [|a s]; simpl; try done.
  - intros [= ->]. destruct s; simpl; by rewrite Ascii.eqb_refl.
  - intros H. apply IH in H. simpl in H. by rewrite H.
Qed.

Lemma rfind_mid (c : ascii) (s : string) (k : nat) :
  QString.rfind c s = Some k → QString.rfind c (QString.mid s (S k)) = None.
Proof.
  revert k. induction s as [|a s IH]; intros k; simpl; [done|].
  destruct (QString.rfind c s) as [j|] eqn:E.
  - intros [= <-]. by apply IH.
  - destruct (Ascii.eqb a c); [|done]. intros [= <-]. by destruct s.
Qed.

Lemma size_left (s : string) (n : nat) :
  String.length (QString.left s n) = (n `min` String.length s)%nat.
Proof.
  revert s. induction n as [|n IH]; intros [|a s]; simpl; try done.
  by rewrite IH.
Qed.

Lemma get_lt (s : string) (k : nat) (c : ascii) :
  String.get k s = Some c → (k < String.length s)%nat.
Proof.
  revert k. induction s as [|a s IH]; intros [|k]; simpl; try done; [lia|].
  intros H. apply IH in H. lia.
Qed.

Lemma isDir_dirOf (name : string) : isDir (dirOf name).
Proof.
  unfold isDir, dirOf, QString.lastIndexOf, QString.size.
  destruct (QString.rfind "/" name) as [k|] eqn:E.
  - replace (Z.to_nat (Z.of_nat k + 1)) with (S k) by lia.
    pose proof (rfind_at _ _ _ E) as Hk.
    rewrite (rfind_left _ _ _ Hk), size_left.
    apply get_lt in Hk. lia.
  - simpl. by destruct name.
Qed.

Lemma isFile_fileOf (name : string) : isFile (fileOf name).
Proof.
  unfold isFile, fileOf, QString.lastIndexOf.
  destruct (QString.rfind "/" name) as [k|] eqn:E.
  - replace (Z.to_nat (Z.of_nat k + 1)) with (S k) by lia. by apply rfind_mid.
  - simpl. by destruct name.
Qed.

Lemma left_app_length (a b : string) :
  QString.left (a +:+ b) (String.length a) = a.
Proof.
  induction a as [|x a IH]; rewrite ?append_String, ?append_empty; simpl.
  - by destruct b.
  - by rewrite IH.
Qed.

Lemma mid_app_length (a b : string) :
  QString.mid (a +:+ b) (String.length a) = b.
Proof.
  induction a as [|x a IH]; rewrite ?append_String, ?append_empty; simpl; done.
Qed.

(** A path splits back into the directory string and the file string it was
    put together from. *)
Lemma split_unique (d n : string) :
  isDir d → isFile n → dirOf (d +:+ n) = d ∧ fileOf (d +:+ n) = n.
Proof.
  unfold isDir, isFile, dirOf, fileOf, QString.lastIndexOf, QString.size.
  intros Hd Hn. rewrite rfind_app, Hn, Hd.
  split; [apply left_app_length | apply mid_app_length].
Qed.

Lemma findFileIndex_loop_first w f dr nm i todo r :
  findFileIndex_loop w f dr nm i todo = Ok r →
  (r = -1 ∧ ∀ j, (i ≤ j < i + todo)%nat → ¬ entryIs w f j dr nm) ∨
  (∃ k, r = Z.of_nat k ∧ (i ≤ k < i + todo)%nat ∧ entryIs w f k dr nm ∧
        ∀ j, (i ≤ j < k)%nat → ¬ entryIs w f j dr nm).
Proof.
  revert i. induction todo as [|todo IH]; intros i H; simpl in H.
  - injection H as <-. left. split; [done|]. intros j Hj. lia.
  - inv_bind H. apply fromOption_Ok in Ha.
    inv_bind H. apply fromOption_Ok in Ha0.
    inv_bind H. apply fromOption_Ok in Ha1.
    inv_bind H. apply fromOption_Ok in Ha2.
    rename a into n, a0 into fn, a1 into d, a2 into dn.
    destruct (bool_decide (fn = nm) && bool_decide (dn = dr)) eqn:E.
    + injection H as <-. right. exists i.
      apply andb_true_iff in E as [E1 E2].
      apply bool_decide_eq_true in E1, E2. subst.
      split; [done|]. split; [lia|]. split; [by exists d, n|].
      intros j Hj. lia.
    + assert (Hi : ¬ entryIs w f i dr nm).
      { intros (d' & n' & A1 & A2 & A3 & A4).
        assert (d' = d) by congruence. assert (n' = n) by congruence. subst.
        assert (dn = dr) by congruence. assert (fn = nm) by congruence. subst.
        by rewrite !bool_decide_eq_true_2 in E. }
      destruct (IH _ H) as [[-> Hall]|(k & -> & Hk & He & Hall)].
      * left. split; [done|]. intros j Hj.
        destruct (decide (j = i)) as [->|Hne]; [done|]. apply Hall. lia.
      * right. exists k. split; [done|]. split; [lia|]. split; [done|].
        intros j Hj.
        destruct (decide (j = i)) as [->|Hne]; [done|]. apply Hall. lia.
Qed.

Lemma entryIs_filePath w f j dr nm :
  entryIs w f j dr nm → filePath w f j = Ok (dr +:+ nm).
Proof.
  intros (d & n & A1 & A2 & A3 & A4). unfold filePath.
  rewrite A1; simpl. rewrite A3; simpl. rewrite A2; simpl. by rewrite A4.
Qed.

(** X1. What [findFileIndex] answers.  A result other than -1 is the first
    position whose directory string and file string are those of [name]
    split at its last slash; the path at that position is [name].  The
    result -1 means that [name] is empty or that no position has these two
    strings. *)
Theorem findFileIndex_first_match (w : World) (f : RevisionFile)
    (name : string) (i : Z) :
  findFileIndex w f name = Ok i →
  if decide (i = -1)
  then name = "" ∨
       ∀ j, (j < RevisionFile.count f)%nat →
            ¬ entryIs w f j (dirOf name) (fileOf name)
  else 0 ≤ i < Z.of_nat (RevisionFile.count f) ∧ name ≠ "" ∧
       filePath w f (Z.to_nat i) = Ok name ∧
       ∀ j, (j < Z.to_nat i)%nat →
            ¬ entryIs w f j (dirOf name) (fileOf name).
Proof.
  unfold findFileIndex. fold (dirOf name) (fileOf name).
  destruct (QString.isEmpty name) eqn:En.
  - intros [= <-]. rewrite decide_True by done. left. by destruct name.
  - assert (Hne : name ≠ "") by (by destruct name).
    intros H.
    apply findFileIndex_loop_first in H
      as [[-> Hall]|(k & -> & Hk & He & Hall)].
    + rewrite decide_True by done. right. intros j Hj. apply Hall. lia.
    + rewrite decide_False by lia. split; [lia|]. split; [done|].
      rewrite Nat2Z.id. split.
      * apply entryIs_filePath in He. by rewrite dirOf_fileOf in He.
      * intros j Hj. apply Hall. lia.
Qed.

Lemma shaped_sameTables w w' : sameTables w w' → shaped w → shaped w'.
Proof. intros (A1 & A2 & _ & _) [H1 H2]. unfold shaped. by rewrite A1, A2. Qed.

Lemma shaped_interned r name fl w : shaped w → shaped (interned r name fl w).2.
Proof.
  intros [H1 H2].
  destruct (interned_tables r name fl w)
    as (d & n & dm & fm & dl & fnl & Hd & Hn & ->). simpl.
  apply internKey_grows in Hd as (_ & _ & _ & ->).
  apply internKey_grows in Hn as (_ & _ & _ & ->).
  split; simpl; case_decide; try done; apply Forall_app; split; try done;
    apply Forall_singleton; [apply isDir_dirOf | apply isFile_fileOf].
Qed.

Lemma update_sameTables r g w w' : update r g w = Ok w' → sameTables w w'.
Proof. unfold update. intros H. inv_bind H. by injection H as <-. Qed.

Lemma flushFileNames_sameTables fl w fl' w' :
  flushFileNames fl w = Ok (fl', w') → sameTables w w'.
Proof.
  unfold flushFileNames. destruct (rf fl); [|by intros [= <- <-]].
  intros H. inv_bind H. inv_bind H. inv_bind H. injection H as <- <-.
  by apply update_sameTables in Ha1.
Qed.

Lemma appendFileName_shaped r name fl w fl' w' :
  shaped w → appendFileName r name fl w = Ok (fl', w') → shaped w'.
Proof.
  intros S H. rewrite appendFileName_rebind in H. inv_bind H.
  destruct a as [fl0 w0]. injection H as H.
  assert (S0 : shaped w0).
  { case_decide; [by injection Ha as <- <-|].
    inv_bind Ha. destruct a as [fl1 w1]. injection Ha as <- <-.
    apply flushFileNames_sameTables in Ha0. by apply (shaped_sameTables w). }
  apply (shaped_interned r name fl0) in S0. by rewrite H in S0.
Qed.

Lemma setExtStatus_shaped r rowSt parNum fl w fl' w' :
  shaped w → setExtStatus r rowSt parNum fl w = Ok (fl', w') → shaped w'.
Proof.
  intros S H. unfold setExtStatus in H.
  destruct (QString.split rowSt TAB) as [|tok [|orig [|dest [|]]]];
    try (by injection H as <- <-).
  inv_bind H. destruct a as [fl1 w1].
  apply (appendFileName_shaped _ _ _ _ _ _ S) in Ha. clear S.
  do 3 (let Hu := fresh "Hu" in
        apply bind_Ok in H; destruct H as (? & Hu & H);
        apply update_sameTables in Hu;
        apply (shaped_sameTables _ _ Hu) in Ha; clear Hu).
  inv_bind H. inv_bind H. destruct a0 as [fl2 w2].
  assert (S2 : shaped w2).
  { destruct (Ascii.eqb a "R"); [|by injection Ha1 as <- <-].
    inv_bind Ha1. destruct a0 as [fl3 w3].
    apply (appendFileName_shaped _ _ _ _ _ _ Ha) in Ha2.
    do 3 (let Hu := fresh "Hu" in
          apply bind_Ok in Ha1; destruct Ha1 as (? & Hu & Ha1);
          apply update_sameTables in Hu;
          apply (shaped_sameTables _ _ Hu) in Ha2; clear Hu).
    by injection Ha1 as <- <-. }
  inv_bind H. injection H as <- <-.
  apply update_sameTables in Ha2. by apply (shaped_sameTables w2).
Qed.

Lemma parseDiffFormatLine_shaped r line parNum fl w fl' w' :
  shaped w → parseDiffFormatLine r line parNum fl w = Ok (fl', w') → shaped w'.
Proof.
  intros S H. unfold parseDiffFormatLine in H. inv_bind H.
  destruct (Ascii.eqb a ":").
  - inv_bind H. destruct a0 as [fl1 w1].
    apply (appendFileName_shaped _ _ _ _ _ _ S) in Ha0.
    do 2 (let Hu := fresh "Hu" in
          apply bind_Ok in H; destruct H as (? & Hu & H);
          apply update_sameTables in Hu;
          apply (shaped_sameTables _ _ Hu) in Ha0; clear Hu).
    by injection H as <- <-.
  - inv_bind H. destruct (Ascii.eqb a0 TAB).
    + inv_bind H. destruct a1 as [fl1 w1].
      apply (appendFileName_shaped _ _ _ _ _ _ S) in Ha1.
      inv_bind H.
      do 2 (let Hu := fresh "Hu" in
            apply bind_Ok in H; destruct H as (? & Hu & H);
            apply update_sameTables in Hu;
            apply (shaped_sameTables _ _ Hu) in Ha1; clear Hu).
      by injection H as <- <-.
    + by eapply setExtStatus_shaped.
Qed.

Lemma parseRecords_shaped r recs parNum fl w fl' w' :
  shaped w → parseRecords r recs parNum fl w = Ok (fl', w') → shaped w'.
Proof.
  revert parNum fl w. induction recs as [|line recs IH];
    intros parNum fl w S H; simpl in H.
  - by injection H as <- <-.
  - inv_bind H. destruct (Ascii.eqb a ":").
    + inv_bind H. destruct a0 as [fl1 w1].
      apply (parseDiffFormatLine_shaped _ _ _ _ _ _ _ S) in Ha0.
      by eapply IH.
    + by eapply IH.
Qed.

Lemma parseDiffFormat_shaped r buf fl w fl' w' :
  shaped w → parseDiffFormat r buf fl w = Ok (fl', w') → shaped w'.
Proof.
  intros S H. rewrite parseDiffFormat_records in H.
  by eapply parseRecords_shaped.
Qed.

Lemma appendOtherFiles_shaped r others fl w fl' w' :
  shaped w → appendOtherFiles r others fl w = Ok (fl', w') → shaped w'.
Proof.
  revert fl w. induction others as [|it others IH]; intros fl w S H;
    simpl in H.
  - by injection H as <- <-.
  - inv_bind H. destruct a as [fl1 w1].
    apply (appendFileName_shaped _ _ _ _ _ _ S) in Ha.
    do 2 (let Hu := fresh "Hu" in
          apply bind_Ok in H; destruct H as (? & Hu & H);
          apply update_sameTables in Hu;
          apply (shaped_sameTables _ _ Hu) in Ha; clear Hu).
    by eapply IH.
Qed.


Lemma fakeWorkDirRevFile_shaped wd w f w' :
  shaped w → fakeWorkDirRevFile wd w = Ok (f, w') → shaped w'.
Proof.
  intros S H. unfold fakeWorkDirRevFile in H.
  inv_bind H. destruct a as [fl1 w1].
  apply parseDiffFormat_shaped in Ha; [|done].
  inv_bind H. apply update_sameTables in Ha0.
  apply (shaped_sameTables _ _ Ha0) in Ha. clear Ha0.
  inv_bind H. destruct a0 as [fl3 w3].
  apply (appendOtherFiles_shaped _ _ _ _ _ _ Ha) in Ha0.
  inv_bind H. destruct a0 as [fl4 w4].
  apply parseDiffFormat_shaped in Ha1; [|done].
  inv_bind H. destruct a0 as [fl5 w5].
  apply flushFileNames_sameTables in Ha2.
  apply (shaped_sameTables _ _ Ha2) in Ha1.
  inv_bind H. inv_bind H. inv_bind H. injection H as <- <-.
  apply markCached_loop_inv in Ha4 as [T _].
  by apply (shaped_sameTables w5).
Qed.

Lemma list_find_drop (name : string) (P : list string) (i : nat) (p : string) :
  P !! i = Some p →
  list_find (λ q, q = name) (drop i P) =
  if decide (p = name) then Some (0%nat, p)
  else prod_map S id <$> list_find (λ q, q = name) (drop (S i) P).
Proof.
  intros Hi. rewrite (drop_S _ _ _ Hi). simpl. by case_decide.
Qed.

Lemma findFileIndex_loop_stored w f P name i todo :
  shaped w → stored w f P → (i + todo)%nat = RevisionFile.count f →
  findFileIndex_loop w f (dirOf name) (fileOf name) i todo =
  Ok (match list_find (λ p, p = name) (drop i P) with
      | Some (k, _) => Z.of_nat (i + k)
      | None => -1
      end).
Proof.
  intros [S1 S2] [Hc Hst]. revert i.
  induction todo as [|todo IH]; intros i Hi; simpl.
  - rewrite drop_ge by lia. done.
  - destruct (lookup_lt_is_Some_2 P i) as [p Hp]; [lia|].
    pose proof (Hst _ _ Hp) as Hfp.
    apply filePath_resolve in Hfp as (d & n & Hd & Hn & Hr).
    unfold resolve in Hr.
    destruct (mDirNames w !! d) as [dn|] eqn:Edn; simpl in Hr; [|done].
    destruct (mFileNames w !! n) as [fn|] eqn:Efn; simpl in Hr; [|done].
    injection Hr as <-.
    rewrite Hn; simpl. rewrite Efn; simpl. rewrite Hd; simpl.
    rewrite Edn; simpl.
    destruct (split_unique dn fn) as [Ud Uf].
    { by eapply Forall_lookup_1 in S1. }
    { by eapply Forall_lookup_1 in S2. }
    rewrite (list_find_drop _ _ _ _ Hp).
    destruct (decide (dn +:+ fn = name)) as [<-|Hne].
    + rewrite Ud, Uf, !bool_decide_eq_true_2 by done. simpl.
      f_equal. lia.
    + assert (E : bool_decide (fn = fileOf name)
                  && bool_decide (dn = dirOf name) = false).
      { apply andb_false_iff.
        destruct (decide (fn = fileOf name)) as [->|?];
          [|left; by apply bool_decide_eq_false_2].
        right. apply bool_decide_eq_false_2. intros ->.
        by rewrite dirOf_fileOf in Hne. }
      rewrite E, IH by lia.
      destruct (list_find _ (drop (S i) P)) as [[k q]|]; simpl; [|done].
      f_equal. lia.
Qed.

(** X2. Lookup after storing.  When the name tables hold directory strings
    and file strings, as the interner leaves them, [findFileIndex] answers
    for every path that is not empty the position of its first occurrence
    among the paths the RevisionFile stores, and -1 when it is not among
    them. *)
Theorem findFileIndex_stored (w : World) (f : RevisionFile) (P : list string)
    (name : string) :
  shaped w → stored w f P → name ≠ "" →
  findFileIndex w f name = Ok (firstIndex name P).
Proof.
  intros S St Hne. unfold findFileIndex, firstIndex.
  replace (QString.isEmpty name) with false by (by destruct name).
  fold (dirOf name) (fileOf name).
  rewrite (findFileIndex_loop_stored w f P name 0) by (done || lia).
  rewrite drop_0. by destruct (list_find _ P) as [[k q]|].
Qed.

Lemma findFileIndex_first_match_witness :
  filePath twoNames twoEntries 1 = Ok "src/b.txt" ∧
  ¬ entryIs twoNames twoEntries 0 "src/" "b.txt".
Proof.
  pose proof (findFileIndex_first_match twoNames twoEntries "src/b.txt" 1
                eq_refl) as H.
  rewrite decide_False in H by done.
  destruct H as (_ & _ & H & Hall). split; [exact H|].
  apply (Hall 0%nat). simpl. lia.
Defined.

Lemma shaped_empty h : shaped (mkWorld ∅ ∅ [] [] h).
Proof. split; constructor. Qed.

Lemma findFileIndex_stored_witness :
  findFileIndex twoNames twoEntries "src/b.txt" = Ok 1 ∧
  findFileIndex twoNames twoEntries "b.txt" = Ok (-1).
Proof.
  assert (S : shaped twoNames).
  { split; repeat constructor. }
  assert (St : stored twoNames twoEntries ["src/a.txt"; "src/b.txt"]).
  { split; [reflexivity|]. intros [|[|i]] p Hp; try discriminate Hp;
      injection Hp as <-; reflexivity. }
  split.
  - apply (findFileIndex_stored _ _ _ "src/b.txt" S St). discriminate.
  - apply (findFileIndex_stored _ _ _ "b.txt" S St). discriminate.
Defined.



(** ** Text after the last newline *)

Lemma find_app (c : ascii) (a b : string) :
  QString.find c (a +:+ b) =
  match QString.find c a with
  | Some k => Some k
  | None => (λ k, String.length a + k)%nat <$> QString.find c b
  end.
Proof.
  induction a as [|x a IH]; rewrite ?append_String, ?append_empty; simpl.
  - by destruct (QString.find c b).
  - destruct (Ascii.eqb x c); [done|]. rewrite IH.
    destruct (QString.find c a); [done|].
    by destruct (QString.find c b).
Qed.

Lemma find_mid_None (c : ascii) (s : string) (n : nat) :
  QString.find c s = None → QString.find c (QString.mid s n) = None.
Proof.
  revert s. induction n as [|n IH]; intros [|a s]; simpl; try done.
  destruct (Ascii.eqb a c); [done|].
  destruct (QString.find c s) eqn:E; [done|]. intros _. by apply IH.
Qed.

Lemma mid_app_le (a b : string) (n : nat) :
  (n ≤ String.length a)%nat → QString.mid (a +:+ b) n = QString.mid a n +:+ b.
Proof.
  revert a. induction n as [|n IH]; intros [|x a]; simpl; try done; try lia.
  intros H. rewrite ?append_String. simpl. apply IH. lia.
Qed.

Lemma mid_app_ge (a b : string) (n : nat) :
  (String.length a ≤ n)%nat →
  QString.mid (a +:+ b) n = QString.mid b (n - String.length a).
Proof.
  revert n. induction a as [|x a IH]; intros n; simpl.
  - intros _. rewrite append_empty. f_equal. lia.
  - destruct n as [|n]; [lia|]. intros H. rewrite ?append_String. simpl.
    apply IH. lia.
Qed.

Lemma left_0 (s : string) : QString.left s 0 = "".
Proof. by destruct s. Qed.

Lemma left_app_le (a b : string) (n : nat) :
  (n ≤ String.length a)%nat → QString.left (a +:+ b) n = QString.left a n.
Proof.
  revert a. induction n as [|n IH]; intros a H.
  - by rewrite !left_0.
  - destruct a as [|x a]; simpl in H; [lia|].
    rewrite append_String. simpl. f_equal. apply IH. lia.
Qed.

Lemma indexOf_app (buf tail : string) (c : ascii) (from : Z) :
  0 ≤ from → QString.find c tail = None →
  QString.indexOf (buf +:+ tail) c from = QString.indexOf buf c from.
Proof.
  intros Hfrom Ht. unfold QString.indexOf.
  replace (from <? 0) with false by (symmetry; apply Z.ltb_ge; lia).
  destruct (decide (Z.to_nat from ≤ String.length buf)%nat) as [Hle|Hgt].
  - rewrite mid_app_le, find_app, Ht by done.
    by destruct (QString.find c (QString.mid buf (Z.to_nat from))).
  - rewrite mid_app_ge by lia. rewrite (find_mid_None _ _ _ Ht).
    assert (E : QString.mid buf (Z.to_nat from) = "").
    { pose proof (size_mid buf (Z.to_nat from)) as Hs.
      unfold QString.size in Hs.
      destruct (QString.mid buf (Z.to_nat from)); [done|]. simpl in Hs. lia. }
    by rewrite E.
Qed.

Lemma mid2_app (buf tail : string) (startPos endPos : Z) :
  0 ≤ startPos → endPos < Z.of_nat (QString.size buf) →
  QString.mid2 (buf +:+ tail) (Z.to_nat startPos) (Z.to_nat (endPos - startPos))
  = QString.mid2 buf (Z.to_nat startPos) (Z.to_nat (endPos - startPos)).
Proof.
  intros H0 H1. unfold QString.mid2, QString.size in *.
  destruct (decide (endPos ≤ startPos)) as [Hle|Hgt].
  - replace (Z.to_nat (endPos - startPos)) with 0%nat by lia.
    by rewrite !left_0.
  - rewrite mid_app_le by lia. apply left_app_le.
    pose proof (size_mid buf (Z.to_nat startPos)) as Hs.
    unfold QString.size in Hs. lia.
Qed.

Lemma records_loop_app (fuel fuel' : nat) (buf tail : string)
    (startPos endPos : Z) :
  QString.find NL tail = None → 0 ≤ startPos →
  endPos = -1 ∨
    (0 ≤ endPos < Z.of_nat (QString.size buf) ∧
     Z.of_nat (QString.size buf) - endPos ≤ Z.of_nat fuel ∧
     Z.of_nat (QString.size buf) - endPos ≤ Z.of_nat fuel') →
  records_loop fuel' (buf +:+ tail) startPos endPos
  = records_loop fuel buf startPos endPos.
Proof.
  intros Ht. revert fuel' startPos endPos.
  induction fuel as [|fuel IH]; intros fuel' startPos endPos Hs Hm.
  - destruct Hm as [->|(? & ? & ?)]; [|lia]. by destruct fuel'.
  - destruct Hm as [->|(H0 & H1 & H2)]; [by destruct fuel'|].
    destruct fuel' as [|fuel']; [lia|]. simpl.
    destruct (endPos =? -1) eqn:E; [done|].
    rewrite mid2_app by lia. f_equal.
    rewrite indexOf_app by (done || lia).
    apply IH; [lia|].
    destruct (indexOf_range buf NL (endPos + 99)) as [?|?];
      [lia | by left | right; lia].
Qed.

Lemma size_app (a b : string) :
  QString.size (a +:+ b) = (QString.size a + QString.size b)%nat.
Proof.
  unfold QString.size. induction a as [|x a IH];
    rewrite ?append_String, ?append_empty; simpl; [done|]. by rewrite IH.
Qed.

Lemma records_app (buf tail : string) :
  QString.find NL tail = None → records (buf +:+ tail) = records buf.
Proof.
  intros Ht. unfold records. rewrite indexOf_app by done.
  apply records_loop_app; [done | done |].
  destruct (indexOf_range buf NL 0) as [?|?]; [lia | by left | right].
  rewrite size_app. lia.
Qed.

(** X4. The text after the last newline of the buffer is never parsed:
    [parseDiffFormat] does on a buffer followed by text without a newline
    what it does on the buffer alone, so a last change line that is not
    terminated appends no entry, and a buffer without a newline leaves the
    loader and the session as they are. *)
Theorem parseDiffFormat_ignores_unterminated (r : addr) (buf tail : string)
    (fl : FileNamesLoader) (w : World) :
  QString.find NL tail = None →
  parseDiffFormat r (buf +:+ tail) fl w = parseDiffFormat r buf fl w ∧
  parseDiffFormat r tail fl w = Ok (fl, w).
Proof.
  intros Ht. rewrite !parseDiffFormat_records.
  rewrite (records_app buf tail Ht). split; [done|].
  rewrite <- (append_empty tail), (records_app "" tail Ht). done.
Qed.

Lemma parseDiffFormat_ignores_unterminated_witness :
  parseDiffFormat 0 (Sample.changeLine "M" "a.txt")
                  FileNamesLoader.empty (declare 0 emptyWorld)
  = Ok (FileNamesLoader.empty, declare 0 emptyWorld).
Proof.
  apply (parseDiffFormat_ignores_unterminated 0 ""
           (Sample.changeLine "M" "a.txt")).
  reflexivity.
Defined.

(** ** The pseudo-commit of the working directory *)

Section WorkingDirectory.

Variable run : string → string → bool * string.
Variable fileExists : string → bool.
Variable currentSecsSinceEpoch : Z.

Lemma mockupWip_log head status g g1 :
  tables_ok (world g) →
  mockupWip run fileExists currentSecsSinceEpoch head status g = Ok g1 →
  wipCommit (mRevCache g1)
  = Some (CommitInfo_wip ZERO_SHA [head] "-" currentSecsSinceEpoch
            (if decide (recordsPaths (records (diffIndex (workingDirInfo g)))
                        = [])
             then "No local changes" else "Local changes")
            status 0 true) ∧
  otherFiles (workingDirInfo g1) = getOthersFiles run fileExists g.
Proof.
  intros Hok H. unfold mockupWip in H. inv_bind H. destruct a as [f w].
  simpl in Ha.
  destruct (fakeWorkDirRevFile_holds _ _ _ _ Hok Ha)
    as ((_ & _ & _ & [Hc _]) & _).
  simpl in Hc. rewrite length_app in Hc.
  injection H as <-. simpl. split; [|done]. do 2 f_equal.
  unfold isNothingToCommit. simpl. rewrite lookup_insert_eq.
  case_decide as E.
  - rewrite E in Hc. simpl in Hc. by rewrite bool_decide_eq_true_2.
  - rewrite bool_decide_eq_false_2; [done|]. intros Heq.
    destruct (recordsPaths _); [done|]. simpl in Hc. lia.
Qed.

(** X5. The log of the pseudo-commit.  When its queries succeed,
    [updateWipRevision] stores the pseudo-commit with the log "No local
    changes" exactly when the index diff has no change record that yields
    an entry, whatever the number of untracked files, and with "Local
    changes" otherwise. *)
Theorem updateWipRevision_log (g g1 : Git) :
  tables_ok (world g) →
  queriesSucceed run (mWorkingDir g) →
  updateWipRevision run fileExists currentSecsSinceEpoch g = Ok g1 →
  wipCommit (mRevCache g1)
  = Some (CommitInfo_wip ZERO_SHA
            [QString.trimmed
               (run (mWorkingDir g) "git rev-parse --revs-only HEAD").2]
            "-" currentSecsSinceEpoch
            (if decide (recordsPaths (records (wipDiffIndex run g)) = [])
             then "No local changes" else "Local changes")
            (run (mWorkingDir g) "git status").2 0 true).
Proof.
  intros Hok (Q1 & Q2 & Q3) H. unfold updateWipRevision in H.
  rewrite Q1, Q2 in H. simpl in H. unfold wipDiffIndex.
  destruct (QString.isEmpty _) eqn:E; simpl in H.
  - by apply mockupWip_log in H as [-> _].
  - cbv zeta in Q3. destruct (Q3 E) as [Q4 Q5].
    rewrite Q4 in H. simpl in H. rewrite Q5 in H. simpl in H.
    by apply mockupWip_log in H as [-> _].
Qed.

End WorkingDirectory.

Lemma updateWipRevision_log_witness :
  ∃ g1,
    updateWipRevision changedTree (λ _, false) 0 emptyGit = Ok g1 ∧
    wipCommit (mRevCache g1)
    = Some (CommitInfo_wip ZERO_SHA ["abc"] "-" 0 "Local changes" "" 0 true).
Proof.
  destruct (updateWipRevision changedTree (λ _, false) 0 emptyGit)
    as [g1|] eqn:E; [|vm_compute in E; discriminate E].
  exists g1. split; [reflexivity|].
  rewrite (updateWipRevision_log changedTree (λ _, false) 0
             emptyGit g1 (tables_ok_empty ∅)); [reflexivity| |exact E].
  split; [reflexivity|]. split; [reflexivity|].
  intros head Hh. split; reflexivity.
Defined.

(** ** Scripts *)

Lemma play_bind {A B} (env : Outside) (m : Script A) (f : A → Script B)
    (h : list Action) :
  play env h (m ≫= f) =
  match play env h m with
  | (Ok a, h1) => play env h1 (f a)
  | (Fault s, h1) => (Fault s, h1)
  end.
Proof.
  revert h. induction m as [a|s|act k IH]; intros h; simpl; done.
Qed.

Lemma play_perform (env : Outside) (act : Action) (h : list Action) :
  play env h (perform act) = (Ok (env h act), h ++ [act]).
Proof. done. Qed.

(** ** Quoting *)

Lemma quoteList_cons (x : string) (sl : list string) :
  "$" +:+ QStringList.join (x :: sl) "$ $" +:+ "$" =
  QStringList.join (quote x :: (quote <$> sl)) " ".
Proof.
  revert x. induction sl as [|y sl IH]; intros x; [done|].
  cbn [fmap list_fmap QStringList.join] in *.
  change (QStringList.join (quote y :: list_fmap _ _ quote sl) " ")
    with (QStringList.join (quote y :: (quote <$> sl)) " ").
  rewrite <- IH. unfold quote.
  rewrite !append_assoc. reflexivity.
Qed.

(** X6. Quoting a list: [quote] of a list that is not empty is the quoted
    elements joined by one space each, and [quote] of the empty list is the
    two dollar signs. *)
Theorem quoteList_join (sl : list string) :
  sl ≠ [] → quoteList sl = QStringList.join (quote <$> sl) " ".
Proof.
  destruct sl as [|x sl]; [done|]. intros _. apply quoteList_cons.
Qed.

Lemma quoteList_join_witness :
  quoteList ["a b"; "c"] = "$a b$ $c$".
Proof.
  rewrite (quoteList_join ["a b"; "c"]); [reflexivity | discriminate].
Defined.

(** ** Staging *)

Lemma updateIndex_loop_stored w files P selFiles toAdd toRemove :
  shaped w → stored w files P →
  updateIndex_loop w files selFiles toAdd toRemove =
  Ok (toAdd ++ List.filter (λ it, negb (listedDeleted files P it)) selFiles,
      toRemove ++ List.filter (listedDeleted files P) selFiles).
Proof.
  intros S St. revert toAdd toRemove.
  induction selFiles as [|it sel IH]; intros toAdd toRemove; simpl.
  - by rewrite !app_nil_r.
  - assert (E : findFileIndex w files it
                = Ok (if QString.isEmpty it then -1 else firstIndex it P)).
    { destruct (QString.isEmpty it) eqn:Ei.
      - unfold findFileIndex. by rewrite Ei.
      - apply findFileIndex_stored; try done. by destruct it. }
    assert (L : listedDeleted files P it
                = if QString.isEmpty it then false
                  else negb (firstIndex it P =? -1)
                       && RevisionFile.statusCmp files
                            (Z.to_nat (firstIndex it P)) RevisionFile.DELETED).
    { unfold listedDeleted. by destruct (QString.isEmpty it). }
    rewrite E, L. simpl.
    destruct (QString.isEmpty it); simpl.
    + rewrite IH. by rewrite <- !app_assoc.
    + destruct (negb (firstIndex it P =? -1)
                && RevisionFile.statusCmp files (Z.to_nat (firstIndex it P))
                     RevisionFile.DELETED); simpl;
        rewrite IH; by rewrite <- !app_assoc.
Qed.

(** X7. [updateIndex] hands every selected file to one of two commands, in
    the order of the selection: to [git rm --cached] the files that the
    working-directory RevisionFile lists as deleted, to [git add] all the
    others, an empty or unknown path included.  [git rm] runs first and
    [git add] only when [git rm] did not fail; a command without files is
    not run, and the answer is that of the last command run. *)
Theorem updateIndex_splits_selection (env : Outside) (h : list Action)
    (g : Git) (P selFiles : list string) :
  shaped (world g) → stored (world g) (getWipFiles g) P →
  play env h (updateIndex g selFiles) =
  stage env h (mWorkingDir g)
        (List.filter (λ it, negb (listedDeleted (getWipFiles g) P it)) selFiles)
        (List.filter (listedDeleted (getWipFiles g) P) selFiles).
Proof.
  intros S St. unfold updateIndex, stage.
  rewrite (updateIndex_loop_stored _ _ P _ [] [] S St). simpl.
  destruct (List.filter (listedDeleted _ P) selFiles) as [|r rs]; simpl.
  - destruct (List.filter _ selFiles) as [|a ad]; simpl; [done|].
    by destruct (env h _) as [[] ?].
  - destruct (env h _) as [[] out]; simpl; [|done].
    destruct (List.filter _ selFiles) as [|a ad]; simpl; [done|].
    by destruct (env _ _) as [[] ?].
Qed.

Lemma indexOf_absent (sl : list string) (x : string) :
  QStringList.indexOf sl x = -1 ↔ x ∉ sl.
Proof.
  unfold QStringList.indexOf.
  destruct (list_find (λ y, y = x) sl) as [[i y]|] eqn:E.
  - apply list_find_Some in E as (Hi & -> & _).
    split; [lia|]. intros Hn. exfalso. apply Hn.
    by eapply list_elem_of_lookup_2.
  - split; [|done]. intros _ Hin.
    eapply list_find_None in E. rewrite Forall_forall in E.
    by apply (E x).
Qed.

Lemma getOtherFiles_loop_stored w files selFiles P i todo notSel :
  (∀ k p, P !! k = Some p → filePath w files (i + k) = Ok p) →
  todo = length P →
  getOtherFiles_loop w files selFiles i todo notSel =
  Ok (notSel ++ stagedUnselected files selFiles i P).
Proof.
  revert i todo notSel. induction P as [|p P IH]; intros i todo notSel HP ->.
  - simpl. by rewrite app_nil_r.
  - simpl. pose proof (HP 0%nat p eq_refl) as H0.
    rewrite Nat.add_0_r in H0. rewrite H0. simpl.
    rewrite (IH (S i)); [|intros k q Hk|done].
    + match goal with |- context [if ?b then _ else _] => destruct b end;
        simpl; by rewrite <- ?app_assoc.
    + specialize (HP (S k) q Hk).
      by replace (i + S k)%nat with (S i + k)%nat in HP by lia.
Qed.

Lemma stagedUnselected_elem files selFiles i P p :
  p ∈ stagedUnselected files selFiles i P ↔
  ((p ∉ selFiles) ∧
   ∃ k, P !! k = Some p ∧
        RevisionFile.statusCmp files (i + k) RevisionFile.IN_INDEX = true).
Proof.
  revert i. induction P as [|q P IH]; intros i; simpl.
  - split; [by intros ?%elem_of_nil|]. by intros (_ & k & ? & _).
  - rewrite elem_of_app, IH. split.
    + intros [H|(Hn & k & Hk & Hs)].
      * destruct (QStringList.indexOf selFiles q =? -1) eqn:E1; simpl in H;
          [|by apply elem_of_nil in H].
        destruct (RevisionFile.statusCmp files i _) eqn:E2;
          [|by apply elem_of_nil in H].
        apply list_elem_of_singleton in H as ->.
        apply Z.eqb_eq, indexOf_absent in E1. split; [done|].
        exists 0%nat. by rewrite Nat.add_0_r.
      * split; [done|]. exists (S k).
        by replace (i + S k)%nat with (S i + k)%nat by lia.
    + intros (Hn & [|k] & Hk & Hs); simpl in Hk.
      * injection Hk as <-. left. rewrite Nat.add_0_r in Hs. rewrite Hs.
        apply indexOf_absent in Hn. rewrite Hn. simpl.
        by apply list_elem_of_singleton.
      * right. split; [done|]. exists k.
        by replace (S i + k)%nat with (i + S k)%nat by lia.
Qed.

Lemma stagedUnselected_sublist files selFiles i P :
  stagedUnselected files selFiles i P `sublist_of` P.
Proof.
  revert i. induction P as [|q P IH]; intros i; simpl; [done|].
  match goal with |- context [if ?b then _ else _] => destruct b end; simpl;
    [by apply sublist_skip | by apply sublist_cons].
Qed.

(** X8. [getOtherFiles] gives the files to keep out of a commit: of the
    paths the working-directory RevisionFile stores, in their order, those
    that are not selected and whose entry has the In-Index flag. *)
Theorem getOtherFiles_staged_unselected (g : Git) (P selFiles : list string) :
  stored (world g) (getWipFiles g) P →
  ∃ notSel,
    getOtherFiles g selFiles = Ok notSel ∧
    notSel `sublist_of` P ∧
    ∀ p, p ∈ notSel ↔
         ((p ∉ selFiles) ∧
          ∃ k, P !! k = Some p ∧
               RevisionFile.statusCmp (getWipFiles g) k RevisionFile.IN_INDEX
               = true).
Proof.
  intros [Hc Hst]. exists (stagedUnselected (getWipFiles g) selFiles 0 P).
  split; [|split].
  - unfold getOtherFiles.
    by rewrite (getOtherFiles_loop_stored _ _ _ P) by done.
  - apply stagedUnselected_sublist.
  - intros p. apply stagedUnselected_elem.
Qed.

(** ** Committing *)

Lemma updateIndex_runs env h g selFiles r h' :
  play env h (updateIndex g selFiles) = (r, h') →
  ∃ runs, h' = h ++ runs ∧ Forall isRun runs.
Proof.
  unfold updateIndex. rewrite play_bind.
  destruct (updateIndex_loop _ _ _ _ _) as [[toAdd toRemove]|s]; simpl.
  - destruct toRemove as [|x toRemove]; simpl.
    + destruct toAdd as [|y toAdd]; simpl.
      * intros [= <- <-]. exists []. by rewrite app_nil_r.
      * destruct (env h _) as [[] ?]; simpl; intros [= <- <-];
          eexists [_]; split; try done; by repeat constructor.
    + destruct (env h _) as [[] ?]; simpl.
      * destruct toAdd as [|y toAdd]; simpl.
        -- intros [= <- <-]. eexists [_]. split; [done|]. by repeat constructor.
        -- destruct (env _ _) as [[] ?]; simpl; intros [= <- <-];
             eexists [_; _]; rewrite <- app_assoc; split; try done;
             by repeat constructor.
      * intros [= <- <-]. eexists [_]. split; [done|]. by repeat constructor.
  - intros [= <- <-]. exists []. by rewrite app_nil_r.
Qed.

(** X9. The message file of a commit.  [commitFiles] first writes the
    message file and does nothing else when that fails.  After that it only
    runs git commands, the commit among them when it answers true, and
    removes the message file as its last action exactly when it answers
    false: a failed commit leaves no message file behind, and a commit that
    succeeded keeps it. *)
Theorem commitFiles_message_file (env : Outside) (h h' : list Action)
    (g : Git) (mGitDir : string) (selFiles : list string) (msg : string)
    (amend : bool) (author : string) (b : bool) :
  play env h (commitFiles g mGitDir selFiles msg amend author) = (Ok b, h') →
  let msgFile := mGitDir +:+ "/qgit_cmt_msg.txt" in
  ∃ runs,
    Forall isRun runs ∧
    if (env h (WriteFile msgFile msg)).1 then
      if b then
        h' = h ++ WriteFile msgFile msg :: runs ∧
        commitCommand (mWorkingDir g) msgFile amend author ∈ runs
      else
        h' = h ++ WriteFile msgFile msg :: runs
               ++ [RemoveFile (mWorkingDir g) msgFile]
    else b = false ∧ runs = [] ∧ h' = h ++ [WriteFile msgFile msg].
Proof.
  intros H msgFile. unfold commitFiles in H. fold msgFile in H.
  rewrite play_bind, play_perform in H.
  destruct (env h (WriteFile msgFile msg)) as [[] out]; simpl in *.
  2: { injection H as <- <-. exists []. by split. }
  rewrite play_bind in H.
  destruct (getOtherFiles g selFiles) as [notSel|s]; simpl in H; [|done].
  rewrite play_bind in H.
  fold (commitCommand (mWorkingDir g) msgFile amend author) in H.
  set (h0 := h ++ [WriteFile msgFile msg]) in *.
  (* the commands up to the answer [failed] *)
  assert (Hcmd : ∀ failed h1,
            play env h0
              (resetFailed ← (if negb (QStringList.isEmpty notSel) then
                                ret ← Git_run (mWorkingDir g)
                                        ("git reset -- " +:+ quoteList notSel);
                                Ret (negb ret.1)
                              else Ret false);
               if resetFailed : bool then Ret true
               else
                 updated ← updateIndex g selFiles;
                 if negb updated then Ret true
                 else
                   ret ← perform (commitCommand (mWorkingDir g) msgFile
                                                amend author);
                   if negb ret.1 then Ret true
                   else if negb (QStringList.isEmpty notSel) then
                          restored ← updateIndex g notSel; Ret (negb restored)
                        else Ret false) = (Ok failed, h1) →
            ∃ runs, h1 = h0 ++ runs ∧ Forall isRun runs ∧
                    (failed = false →
                     commitCommand (mWorkingDir g) msgFile amend author ∈ runs)).
  { intros failed h1 Hp. rewrite play_bind in Hp.
    assert (Hreset : ∃ rf hr runs0,
              play env h0
                (if negb (QStringList.isEmpty notSel) then
                   ret ← Git_run (mWorkingDir g)
                           ("git reset -- " +:+ quoteList notSel);
                   Ret (negb ret.1)
                 else Ret false) = (Ok rf, hr) ∧
              hr = h0 ++ runs0 ∧ Forall isRun runs0).
    { destruct (QStringList.isEmpty notSel); simpl.
      - exists false, h0, []. by rewrite app_nil_r.
      - eexists _, _, [_]. split; [reflexivity|]. split; [done|].
        by repeat constructor. }
    destruct Hreset as (rf & hr & runs0 & Er & -> & F0). rewrite Er in Hp.
    destruct rf.
    { simpl in Hp. injection Hp as <- <-. exists runs0. by split_and!. }
    rewrite play_bind in Hp.
    destruct (play env (h0 ++ runs0) (updateIndex g selFiles))
      as [[updated|s] hu] eqn:Eu; [|done].
    apply updateIndex_runs in Eu as (runs1 & -> & F1).
    destruct updated; cbn [negb] in Hp.
    2: { simpl in Hp. injection Hp as <- <-. exists (runs0 ++ runs1).
         rewrite app_assoc. split; [done|]. split; [by apply Forall_app|done]. }
    rewrite play_bind, play_perform in Hp.
    destruct (env _ (commitCommand _ _ _ _)) as [[] outc]; cbn [negb fst] in Hp.
    2: { simpl in Hp. injection Hp as <- <-.
         exists (runs0 ++ runs1 ++ [commitCommand (mWorkingDir g) msgFile
                                      amend author]).
         rewrite !app_assoc. split; [done|].
         split; [|done]. rewrite <- app_assoc.
         repeat (apply Forall_app; split); try done. by repeat constructor. }
    destruct (QStringList.isEmpty notSel); cbn [negb] in Hp.
    - simpl in Hp. injection Hp as <- <-.
      exists (runs0 ++ runs1 ++ [commitCommand (mWorkingDir g) msgFile
                                   amend author]).
      rewrite !app_assoc. split; [done|]. split.
      + rewrite <- app_assoc.
        repeat (apply Forall_app; split); try done. by repeat constructor.
      + intros _. rewrite <- app_assoc, !elem_of_app. right. right.
        by apply list_elem_of_singleton.
    - rewrite play_bind in Hp.
      destruct (play env _ (updateIndex g notSel))
        as [[restored|s] hu] eqn:Eu; [|done].
      apply updateIndex_runs in Eu as (runs2 & -> & F2).
      injection Hp as <- <-.
      exists (runs0 ++ runs1 ++ [commitCommand (mWorkingDir g) msgFile
                                   amend author] ++ runs2).
      rewrite !app_assoc. split; [done|]. split.
      + rewrite <- !app_assoc.
        repeat (apply Forall_app; split); try done. by repeat constructor.
      + intros _. rewrite <- !app_assoc, !elem_of_app. right. right. left.
        by apply list_elem_of_singleton. }
  match type of H with
  | match play env h0 ?m with _ => _ end = _ =>
      destruct (play env h0 m) as [[failed|s] h1] eqn:Ep; [|done]
  end.
  apply Hcmd in Ep as (runs & -> & F & Hc).
  exists runs. split; [done|].
  destruct failed; simpl in H; injection H as <- <-.
  - unfold h0. by rewrite <- !app_assoc.
  - unfold h0. rewrite <- !app_assoc. split; [done|]. by apply Hc.
Qed.

Lemma shaped_twoNames : shaped twoNames.
Proof. split; repeat constructor. Qed.

Lemma stored_twoStaged :
  stored twoNames (getWipFiles stagedTree) ["src/a.txt"; "src/b.txt"].
Proof.
  split; [reflexivity|]. intros [|[|i]] p Hp; try discriminate Hp;
    injection Hp as <-; reflexivity.
Qed.

Lemma updateIndex_splits_selection_witness :
  play allSucceed [] (updateIndex stagedTree ["src/b.txt"; "new.txt"; "src/a.txt"])
  = (Ok true,
     [Run "/repo" "git rm --cached --ignore-unmatch -- $src/b.txt$";
      Run "/repo" "git add -- $new.txt$ $src/a.txt$"]).
Proof.
  rewrite (updateIndex_splits_selection allSucceed [] stagedTree
             ["src/a.txt"; "src/b.txt"] _ shaped_twoNames stored_twoStaged).
  reflexivity.
Defined.

Lemma getOtherFiles_staged_unselected_witness :
  ∃ notSel,
    getOtherFiles stagedTree ["src/a.txt"] = Ok notSel ∧
    "src/b.txt" ∈ notSel ∧ "src/a.txt" ∉ notSel.
Proof.
  destruct (getOtherFiles_staged_unselected stagedTree
              ["src/a.txt"; "src/b.txt"] ["src/a.txt"] stored_twoStaged)
    as (notSel & H & _ & Hel).
  exists notSel. split; [exact H|]. split.
  - apply Hel. split.
    + intros Hin. apply list_elem_of_singleton in Hin. discriminate Hin.
    + exists 1%nat. split; reflexivity.
  - intros Hin. apply Hel in Hin as [Hn _]. apply Hn.
    by apply list_elem_of_singleton.
Defined.

Lemma commitFiles_message_file_witness :
  ∃ runs,
    Forall isRun runs ∧
    commitCommand "/repo" "/repo/.git/qgit_cmt_msg.txt" false "" ∈ runs.
Proof.
  destruct (commitFiles_message_file allSucceed []
              (WriteFile "/repo/.git/qgit_cmt_msg.txt" "fix"
               :: [Run "/repo" "git reset -- $src/b.txt$";
                   Run "/repo" "git add -- $src/a.txt$";
                   Run "/repo" "git commit -F $/repo/.git/qgit_cmt_msg.txt$";
                   Run "/repo" "git rm --cached --ignore-unmatch -- $src/b.txt$"])
              stagedTree "/repo/.git" ["src/a.txt"] "fix" false "" true
              eq_refl) as (runs & F & H).
  exists runs. split; [exact F|]. simpl in H. apply H.
Defined.

(** ** Patches *)



(** ** Answers of git, line by line *)

Lemma fields_joinRecords (names : list string) :
  Forall (λ t, QString.find NL t = None) names →
  QString.fields NL (joinRecords names) = names ++ [""].
Proof.
  induction 1 as [|t names Ht _ IH]; [done|].
  cbn [joinRecords]. by rewrite fields_app, IH.
Qed.

Lemma fields_no_newline (s : string) :
  Forall (λ t, QString.find NL t = None) (QString.fields NL s).
Proof.
  induction s as [|a s IH]; simpl; [by repeat constructor|].
  destruct (Ascii.eqb a NL) eqn:E; [by constructor|].
  destruct (QString.fields NL s) as [|f fs]; inversion IH; subst.
  - repeat constructor. simpl. by rewrite E.
  - constructor; [|done]. simpl. rewrite E.
    by destruct (QString.find NL f).
Qed.

Lemma keptLines_isLine (out : string) :
  Forall isLine
    (List.filter (λ tag, negb (String.eqb tag (String NL ""))
                         && negb (QString.isEmpty tag))
                 (QString.fields NL out)).
Proof.
  apply Forall_forall. intros t Ht. apply list_elem_of_In in Ht.
  apply List.filter_In in Ht as [Hin Hc].
  apply andb_true_iff in Hc as [_ Hc]. split; [by destruct t|].
  pose proof (fields_no_newline out) as F. rewrite Forall_forall in F.
  apply F. by apply list_elem_of_In.
Qed.

Lemma keptLines_joinRecords (names : list string) :
  Forall isLine names →
  List.filter (λ tag, negb (String.eqb tag (String NL ""))
                      && negb (QString.isEmpty tag))
              (QString.fields NL (joinRecords names)) = names.
Proof.
  intros H. rewrite fields_joinRecords.
  - rewrite List.filter_app. simpl. rewrite app_nil_r.
    induction H as [|t names [Ht Hn] _ IH]; [done|]. simpl.
    rewrite IH.
    assert (E : String.eqb t (String NL "") = false).
    { apply String.eqb_neq. intros ->. vm_compute in Hn. discriminate Hn. }
    rewrite E. by destruct t.
  - eapply Forall_impl; [exact H|]. by intros t [_ ?].
Qed.

(** X11. The tags and the stashes.  [getTags] and [getStashes] run one
    command and answer the lines of its output that are not empty, in
    order, and nothing when the command fails: when git prints one name per
    line the answer is the list of the names, and no answer holds an empty
    string or a newline. *)
Theorem getTags_getStashes_lines (env : Outside) (h : list Action)
    (wd : string) :
  (∃ tags stashes,
     play env h (getTags wd) = (Ok tags, h ++ [Run wd "git tag"]) ∧
     play env h (getStashes wd)
       = (Ok stashes, h ++ [Run wd "git stash list"]) ∧
     Forall isLine tags ∧ Forall isLine stashes ∧
     ((env h (Run wd "git tag")).1 = false → tags = []) ∧
     ((env h (Run wd "git stash list")).1 = false → stashes = [])) ∧
  (∀ names, Forall isLine names →
     (env h (Run wd "git tag") = (true, joinRecords names) →
      play env h (getTags wd) = (Ok names, h ++ [Run wd "git tag"])) ∧
     (env h (Run wd "git stash list") = (true, joinRecords names) →
      play env h (getStashes wd)
        = (Ok names, h ++ [Run wd "git stash list"]))).
Proof.
  split.
  - eexists _, _. split; [reflexivity|]. split; [reflexivity|].
    split_and!.
    + destruct (env h (Run wd "git tag")) as [[] out]; simpl;
        [apply keptLines_isLine | constructor].
    + destruct (env h (Run wd "git stash list")) as [[] out]; simpl;
        [apply keptLines_isLine | constructor].
    + intros E. by rewrite E.
    + intros E. by rewrite E.
  - intros names Hn. split; intros E; unfold getTags, getStashes; simpl;
      rewrite E; simpl; by rewrite keptLines_joinRecords.
Qed.

Lemma getTags_getStashes_lines_witness :
  play (λ _ _, (true, joinRecords ["v1.0"; "v1.1"])) [] (getTags "/repo")
  = (Ok ["v1.0"; "v1.1"], [Run "/repo" "git tag"]).
Proof.
  apply (getTags_getStashes_lines
           (λ _ _, (true, joinRecords ["v1.0"; "v1.1"])) [] "/repo").
  - repeat constructor; discriminate.
  - reflexivity.
Defined.

Lemma getSubmodules_loop_app (l1 l2 acc : list string) :
  getSubmodules_loop (l1 ++ l2) acc =
  getSubmodules_loop l1 acc ≫= getSubmodules_loop l2.
Proof.
  revert acc. induction l1 as [|x l1 IH]; intros acc; simpl; [done|].
  destruct (negb (QString.isEmpty x) && negb (String.eqb x (String NL "")));
    [|apply IH].
  destruct (QString.fields "." x !! 1%nat) as [name|]; simpl; [apply IH|done].
Qed.

Lemma fields_configLine (name rest : string) :
  QString.find "." name = None →
  QString.fields "." (configLine name rest) !! 1%nat = Some name.
Proof.
  intros Hn. unfold configLine.
  change ("submodule." +:+ name +:+ String "." rest)
    with ("submodule" +:+ String "." (name +:+ String "." rest)).
  rewrite fields_app by done. simpl. by rewrite fields_app.
Qed.

Lemma getSubmodules_loop_names (names : list (string * string)) (acc : list string) :
  Forall (λ nr, QString.find "." nr.1 = None) names →
  getSubmodules_loop ((λ nr, configLine nr.1 nr.2) <$> names) acc
  = Some (acc ++ names.*1).
Proof.
  intros H. revert acc. induction H as [|[n r] names Hn _ IH]; intros acc.
  - simpl. by rewrite app_nil_r.
  - cbn [fmap list_fmap getSubmodules_loop]. simpl in Hn.
    rewrite fields_configLine by done.
    replace (negb (QString.isEmpty (configLine n r))
             && negb (String.eqb (configLine n r) (String NL "")))
      with true by done.
    simpl. rewrite IH. by rewrite <- app_assoc.
Qed.

Lemma find_configLine_NL (name rest : string) :
  QString.find NL name = None → QString.find NL rest = None →
  QString.find NL (configLine name rest) = None.
Proof.
  intros H1 H2. unfold configLine.
  rewrite !find_app, H1. simpl. by rewrite H2.
Qed.

(** X12. The names of the submodules.  [getSubmodules] answers, for the
    lines [submodule.<name>.<rest>] git prints, the names, in order, a name
    being the text between the first and the second dot of its line: a
    name with a dot is cut at that dot.  A line that is not empty and has no
    dot makes [split('.').at(1)] index out of range, whatever the lines
    after it. *)
Theorem getSubmodules_second_field (env : Outside) (h : list Action)
    (wd : string) (names : list (string * string)) (bad : string)
    (more : list string) :
  let cmd := Run wd "git config --file .gitmodules --name-only --get-regexp path" in
  Forall (λ nr, QString.find "." nr.1 = None ∧ QString.find NL nr.1 = None
                ∧ QString.find NL nr.2 = None) names →
  (env h cmd = (true, joinRecords ((λ nr, configLine nr.1 nr.2) <$> names)) →
   play env h (getSubmodules wd) = (Ok (Some names.*1), h ++ [cmd])) ∧
  (isLine bad → QString.find "." bad = None →
   Forall (λ t, QString.find NL t = None) more →
   env h cmd
   = (true, joinRecords (((λ nr, configLine nr.1 nr.2) <$> names)
                         ++ bad :: more)) →
   play env h (getSubmodules wd) = (Ok None, h ++ [cmd])).
Proof.
  intros cmd Hn.
  assert (Hd : Forall (λ nr, QString.find "." nr.1 = None) names).
  { eapply Forall_impl; [exact Hn|]. by intros nr (? & _). }
  assert (Hl : Forall (λ t, QString.find NL t = None)
                 ((λ nr, configLine nr.1 nr.2) <$> names)).
  { apply Forall_fmap. eapply Forall_impl; [exact Hn|].
    intros nr (_ & ? & ?). by apply find_configLine_NL. }
  split.
  - intros E. unfold getSubmodules. simpl. fold cmd. rewrite E. simpl.
    rewrite fields_joinRecords by done.
    rewrite getSubmodules_loop_app, getSubmodules_loop_names by done.
    done.
  - intros [Hb1 Hb2] Hb3 Hm E. unfold getSubmodules. simpl. fold cmd.
    rewrite E. simpl.
    rewrite fields_joinRecords.
    2: { apply Forall_app. split; [done|]. by constructor. }
    rewrite <- app_assoc, getSubmodules_loop_app,
      getSubmodules_loop_names by done.
    simpl. rewrite (fields_no_sep _ _ Hb3).
    replace (negb (QString.isEmpty bad)
             && negb (String.eqb bad (String NL ""))) with true; [done|].
    symmetry. apply andb_true_iff. split; [by destruct bad|].
    apply negb_true_iff, String.eqb_neq. intros ->.
    vm_compute in Hb2. discriminate Hb2.
Qed.

Lemma getSubmodules_second_field_witness :
  play (λ _ _, (true, joinRecords [configLine "libs/a" "b.path"])) []
       (getSubmodules "/repo")
  = (Ok (Some ["libs/a"]),
     [Run "/repo" "git config --file .gitmodules --name-only --get-regexp path"]).
Proof.
  apply (getSubmodules_second_field
           (λ _ _, (true, joinRecords [configLine "libs/a" "b.path"])) []
           "/repo" [("libs/a", "b.path")] "" []).
  - repeat constructor.
  - reflexivity.
Defined.

(** ** The last characters of an answer *)

Lemma remove_truncates (s : string) (pos n : Z) :
  0 ≤ pos < Z.of_nat (QString.size s) → Z.of_nat (QString.size s) - pos ≤ n →
  QString.remove s pos n = QString.left s (Z.to_nat pos).
Proof.
  intros Hp Hn. unfold QString.remove. cbv zeta.
  destruct (Z.ltb_spec pos 0); [lia|]. simpl.
  destruct (Z.ltb_spec pos 0); [lia|]. simpl.
  destruct (Z.leb_spec (Z.of_nat (QString.size s)) pos); [lia|].
  destruct (Z.leb_spec (Z.of_nat (QString.size s) - pos) n); [done|lia].
Qed.

Lemma remove_last (s : string) (c : ascii) :
  let out := s +:+ String c "" in
  QString.remove out (Z.of_nat (QString.size out) - 1)
                 (Z.of_nat (QString.size out)) = s.
Proof.
  intros out.
  assert (Hs : QString.size out = S (QString.size s)).
  { unfold out. rewrite size_app. simpl. lia. }
  rewrite remove_truncates by lia. rewrite Hs.
  replace (Z.to_nat (Z.of_nat (S (QString.size s)) - 1))
    with (String.length s) by (unfold QString.size; lia).
  apply left_app_length.
Qed.

Lemma remove_last_two (s : string) (c1 c2 : ascii) :
  s ≠ "" →
  let out := s +:+ String c1 (String c2 "") in
  QString.remove out (Z.of_nat (QString.size out) - 2)
                 (Z.of_nat (QString.size out) - 1) = s.
Proof.
  intros Hne out.
  assert (Hs : QString.size out = S (S (QString.size s))).
  { unfold out. rewrite size_app. simpl. lia. }
  assert (H1 : (1 ≤ QString.size s)%nat) by (destruct s; [done|simpl; lia]).
  rewrite remove_truncates by lia. rewrite Hs.
  replace (Z.to_nat (Z.of_nat (S (S (QString.size s))) - 2))
    with (String.length s) by (unfold QString.size; lia).
  apply left_app_length.
Qed.

(** X13. The last characters of an answer.  When its command succeeds,
    [getLastCommitOfBranch] answers the output without its last character,
    and [getTagCommit] answers the output without its last two characters
    (the output having three characters or more): of an object name
    followed by one newline, [getLastCommitOfBranch] answers the name and
    [getTagCommit] the name without its last character.  When the command
    fails, both answer the output as it is. *)
Theorem answers_lose_last_characters (env : Outside) (h : list Action)
    (wd arg s : string) (c1 c2 : ascii) :
  let revParse := Run wd ("git rev-parse " +:+ arg) in
  let revList := Run wd ("git rev-list -n 1 " +:+ arg) in
  s ≠ "" →
  (env h revParse = (true, s +:+ String c2 "") →
   play env h (getLastCommitOfBranch wd arg) = (Ok (true, s), h ++ [revParse])) ∧
  (env h revList = (true, s +:+ String c1 (String c2 "")) →
   play env h (getTagCommit wd arg) = (Ok (true, s), h ++ [revList])) ∧
  (∀ out, env h revParse = (false, out) →
     play env h (getLastCommitOfBranch wd arg)
       = (Ok (false, out), h ++ [revParse])) ∧
  (∀ out, env h revList = (false, out) →
     play env h (getTagCommit wd arg) = (Ok (false, out), h ++ [revList])).
Proof.
  intros revParse revList Hne. split_and!.
  - intros E. unfold getLastCommitOfBranch. simpl. fold revParse.
    rewrite E. simpl. by rewrite remove_last.
  - intros E. unfold getTagCommit. simpl. fold revList.
    rewrite E. simpl. by rewrite remove_last_two.
  - intros out E. unfold getLastCommitOfBranch. simpl. fold revParse.
    by rewrite E.
  - intros out E. unfold getTagCommit. simpl. fold revList. by rewrite E.
Qed.

Lemma answers_lose_last_characters_witness :
  play (λ _ _, (true, "0123456789abcdef" +:+ String NL "")) []
       (getTagCommit "/repo" "v1.0")
  = (Ok (true, "0123456789abcde"), [Run "/repo" "git rev-list -n 1 v1.0"]).
Proof.
  apply (answers_lose_last_characters
           (λ _ _, (true, "0123456789abcdef" +:+ String NL "")) []
           "/repo" "v1.0" "0123456789abcde" "f" NL).
  - discriminate.
  - reflexivity.
Defined.

(** ** References *)

Lemma startsWith_app (p t : string) : QString.startsWith (p +:+ t) p = true.
Proof.
  induction p as [|a p IH]; rewrite ?append_empty, ?append_String; simpl.
  - by destruct t.
  - by rewrite Ascii.eqb_refl.
Qed.

Lemma endsWith_app (a p : string) : QString.endsWith (a +:+ p) p = true.
Proof.
  unfold QString.endsWith. rewrite size_app.
  apply andb_true_iff. split; [apply Nat.leb_le; lia|].
  replace (QString.size a + QString.size p - QString.size p)%nat
    with (String.length a) by (unfold QString.size; lia).
  rewrite mid_app_length. apply String.eqb_refl.
Qed.

Lemma mid2_app_length (a t p : string) :
  QString.mid2 (a +:+ t +:+ p) (String.length a) (String.length t) = t.
Proof.
  unfold QString.mid2. rewrite mid_app_length. apply left_app_length.
Qed.

(** X14. [Reference::configure] reads the kind of a reference off its
    name.  A name under refs/tags/ adds the text after that prefix to the
    tags, without the three characters of the mark of a dereferenced tag,
    for which the object name of the line before is kept as the tag object;
    a name under refs/heads/ adds a branch, with the current-branch flag as
    well when the commit is the head; a name under refs/remotes/ adds a
    remote branch unless it ends with HEAD, and then nothing changes.  The
    flag of the kind is ORed onto the type, and the other lists stay as
    they are. *)
Theorem configure_decodes (t : string) (isCurrentBranch : bool)
    (prevRefSha : string) (r : Reference) :
  (QString.endsWith ("refs/tags/" +:+ t) "^{}" = false →
   Reference.configure ("refs/tags/" +:+ t) isCurrentBranch prevRefSha r
   = mkReference (Z.lor (type r) Reference.TAG) (branches r)
       (remoteBranches r) (tags r ++ [t]) (refs r) (tagObj r) (stgitPatch r)) ∧
  Reference.configure ("refs/tags/" +:+ t +:+ "^{}") isCurrentBranch
                      prevRefSha r
  = mkReference (Z.lor (type r) Reference.TAG) (branches r)
      (remoteBranches r) (tags r ++ [t]) (refs r) prevRefSha (stgitPatch r) ∧
  Reference.configure ("refs/heads/" +:+ t) isCurrentBranch prevRefSha r
  = mkReference
      (if isCurrentBranch
       then Z.lor (Z.lor (type r) Reference.BRANCH) Reference.CUR_BRANCH
       else Z.lor (type r) Reference.BRANCH)
      (branches r ++ [t]) (remoteBranches r) (tags r) (refs r) (tagObj r)
      (stgitPatch r) ∧
  Reference.configure ("refs/remotes/" +:+ t) isCurrentBranch prevRefSha r
  = (if QString.endsWith ("refs/remotes/" +:+ t) "HEAD" then r
     else mkReference (Z.lor (type r) Reference.RMT_BRANCH) (branches r)
            (remoteBranches r ++ [t]) (tags r) (refs r) (tagObj r)
            (stgitPatch r)).
Proof.
  split_and!.
  - intros E. unfold Reference.configure.
    rewrite startsWith_app. by rewrite E.
  - unfold Reference.configure.
    rewrite startsWith_app.
    replace ("refs/tags/" +:+ t +:+ "^{}") with (("refs/tags/" +:+ t) +:+ "^{}")
      by apply append_assoc.
    rewrite endsWith_app, append_assoc.
    replace (QString.size ("refs/tags/" +:+ t +:+ "^{}") - 13)%nat
      with (String.length t).
    2: { rewrite !size_app. unfold QString.size. simpl. lia. }
    assert (M : QString.mid2 ("refs/tags/" +:+ t +:+ "^{}") 10
                             (String.length t) = t)
      by apply (mid2_app_length "refs/tags/" t "^{}").
    by rewrite M.
  - unfold Reference.configure.
    change (QString.startsWith ("refs/heads/" +:+ t) "refs/tags/") with false.
    rewrite startsWith_app. by destruct isCurrentBranch.
  - unfold Reference.configure.
    change (QString.startsWith ("refs/remotes/" +:+ t) "refs/tags/") with false.
    change (QString.startsWith ("refs/remotes/" +:+ t) "refs/heads/") with false.
    rewrite startsWith_app. cbv iota.
    by destruct (QString.endsWith ("refs/remotes/" +:+ t) "HEAD").
Qed.

Lemma configure_decodes_witness :
  Reference.configure "refs/tags/v1.0" false "" Reference.empty
  = mkReference Reference.TAG [] [] ["v1.0"] [] "" "".
Proof.
  destruct (configure_decodes "v1.0" false "" Reference.empty) as [H _].
  apply H. reflexivity.
Defined.

Lemma flag_set (t F : Z) : F ≠ 0 → Z.land (Z.lor t F) F ≠ 0.
Proof.
  intros HF. rewrite Z.land_lor_distr_l, Z.land_diag.
  intros H. apply Z.lor_eq_0_iff in H as [_ ?]. done.
Qed.

Lemma flag_other (t F G : Z) :
  Z.land F G = 0 → Z.land (Z.lor t F) G = Z.land t G.
Proof.
  intros H. by rewrite Z.land_lor_distr_l, H, Z.lor_0_r.
Qed.

Lemma app_singleton_ne {A} (l : list A) (x : A) : l ++ [x] ≠ [].
Proof. by destruct l. Qed.

Lemma flagged_empty : flagged Reference.empty.
Proof. by repeat split. Qed.

(** ORing the flag of a kind whose list has just got a name, or a flag
    without a list, leaves the Reference flagged. *)
Ltac flagged_step H :=
  destruct H as (H1 & H2 & H3 & H4);
  unfold flagged; simpl;
  repeat match goal with
         | |- context [Z.land (Z.lor ?t ?F) ?G] =>
             rewrite (flag_other t F G) by done
         end;
  repeat split; intros ?;
    first [by apply app_singleton_ne | by apply flag_set | tauto].

Lemma flagged_orType_cur (r : Reference) :
  flagged r → flagged (Reference.orType Reference.CUR_BRANCH r).
Proof. intros H. flagged_step H. Qed.

Lemma flagged_configure refName isCurrentBranch prevRefSha r :
  flagged r → flagged (Reference.configure refName isCurrentBranch prevRefSha r).
Proof.
  intros H. unfold Reference.configure.
  destruct (QString.startsWith refName "refs/tags/").
  { destruct (QString.endsWith refName "^{}"); flagged_step H. }
  destruct (QString.startsWith refName "refs/heads/").
  { destruct isCurrentBranch; flagged_step H. }
  match goal with |- context [if ?b then _ else _] => destruct b end;
    [flagged_step H|].
  match goal with |- context [if ?b then _ else _] => destruct b end;
    [flagged_step H|done].
Qed.

Lemma flagged_lookupOrAdd sha (m : gmap string Reference) :
  map_Forall (λ _, flagged) m → map_Forall (λ _, flagged) (lookupOrAddReference sha m).
Proof.
  intros H. unfold lookupOrAddReference. destruct (m !! sha) eqn:E; [done|].
  apply map_Forall_insert; [done|]. split; [apply flagged_empty|done].
Qed.

Lemma flagged_alter (f : Reference → Reference) sha (m : gmap string Reference) :
  (∀ r, flagged r → flagged (f r)) →
  map_Forall (λ _, flagged) m → map_Forall (λ _, flagged) (alter f sha m).
Proof.
  intros Hf H k r. destruct (decide (k = sha)) as [->|Hne].
  - rewrite lookup_alter_eq. destruct (m !! sha) as [r0|] eqn:E; [|done].
    simpl. intros [= <-]. apply Hf. by apply (H sha).
  - rewrite lookup_alter_ne by done. apply H.
Qed.

Lemma flagged_getRefs_loop referencesList curBranchSHA prevRefSha m :
  map_Forall (λ _, flagged) m →
  map_Forall (λ _, flagged)
             (getRefs_loop referencesList curBranchSHA prevRefSha m).
Proof.
  revert prevRefSha m. induction referencesList as [|reference l IH];
    intros prevRefSha m H; simpl; [done|].
  apply IH.
  match goal with |- context [if ?b then _ else _] => destruct b end.
  - apply map_Forall_delete. apply flagged_alter.
    + intros r. apply flagged_configure.
    + by apply flagged_lookupOrAdd.
  - apply flagged_alter.
    + intros r. apply flagged_configure.
    + by apply flagged_lookupOrAdd.
Qed.

Lemma getRefNames_flagged (m : gmap string Reference) (sha : string)
    (r : Reference) :
  m !! sha = Some r → flagged r →
  getRefNames m sha Reference.TAG = tags r ∧
  getRefNames m sha Reference.BRANCH = branches r ∧
  getRefNames m sha Reference.RMT_BRANCH = remoteBranches r ∧
  getRefNames m sha Reference.REF = refs r.
Proof.
  intros Hm (H1 & H2 & H3 & H4). unfold getRefNames, checkRef. rewrite Hm.
  simpl. split_and!.
  - destruct (Z.eqb_spec (Z.land (type r) Reference.TAG) 0) as [E|E].
    + destruct (tags r); [done|]. exfalso. by apply (proj1 H1).
    + simpl. by rewrite ?app_nil_r.
  - destruct (Z.eqb_spec (Z.land (type r) Reference.BRANCH) 0) as [E|E].
    + destruct (branches r); [done|]. exfalso. by apply (proj1 H2).
    + simpl. by rewrite ?app_nil_r.
  - destruct (Z.eqb_spec (Z.land (type r) Reference.RMT_BRANCH) 0) as [E|E].
    + destruct (remoteBranches r); [done|]. exfalso. by apply (proj1 H3).
    + simpl. by rewrite ?app_nil_r.
  - destruct (Z.eqb_spec (Z.land (type r) Reference.REF) 0) as [E|E].
    + destruct (refs r); [done|]. exfalso. by apply (proj1 H4).
    + simpl. by rewrite ?app_nil_r.
Qed.

Lemma lookupOrAdd_lookup sha (m : gmap string Reference) :
  is_Some (lookupOrAddReference sha m !! sha).
Proof.
  unfold lookupOrAddReference. destruct (m !! sha) eqn:E; [by rewrite E|].
  rewrite lookup_insert_eq. eauto.
Qed.

Lemma getRefs_play (env : Outside) (h : list Action) (wd name : string)
    (m : gmap string Reference) :
  let h1 := h ++ [Run wd "git branch"] in
  let h2 := h1 ++ [Run wd "git show-ref -d"] in
  ∃ ok name' m' h',
    play env h (getRefs wd name m) = (Ok (ok, name', m'), h') ∧
    ok = (env h (Run wd "git branch")).1
         && (env h1 (Run wd "git show-ref -d")).1 ∧
    (ok = false → m' = m) ∧
    (ok = true →
     ∃ head,
       play env h2 (getLastCommitOfBranch wd "HEAD")
         = (Ok head, h2 ++ [Run wd "git rev-parse HEAD"]) ∧
       h' = h2 ++ [Run wd "git rev-parse HEAD"] ∧
       checkRef m' head.2 Reference.CUR_BRANCH = Reference.CUR_BRANCH).
Proof.
  intros h1 h2. unfold getRefs. rewrite play_bind.
  unfold loadCurrentBranch at 1. simpl. fold h1.
  destruct (env h (Run wd "git branch")) as [[] out1]; simpl.
  2: { eexists _, _, _, _. split; [reflexivity|]. by split_and!. }
  set (name' := if QString.contains
                     (loadCurrentBranch_loop
                        (QString.fields NL (QString.trimmed out1)) name)
                     " detached "
                then ""
                else loadCurrentBranch_loop
                       (QString.fields NL (QString.trimmed out1)) name).
  fold h2. destruct (env h1 (Run wd "git show-ref -d")) as [[] out2]; simpl.
  2: { eexists _, _, _, _. split; [reflexivity|]. by split_and!. }
  set (head := if (env h2 (Run wd "git rev-parse HEAD")).1
               then ((env h2 (Run wd "git rev-parse HEAD")).1,
                     QString.remove (env h2 (Run wd "git rev-parse HEAD")).2
                       (Z.of_nat (QString.size
                                    (env h2 (Run wd "git rev-parse HEAD")).2) - 1)
                       (Z.of_nat (QString.size
                                    (env h2 (Run wd "git rev-parse HEAD")).2)))
               else env h2 (Run wd "git rev-parse HEAD")).
  set (m1 := getRefs_loop (QString.split out2 NL) head.2 "" ∅).
  assert (Hk : ∃ r, alter (Reference.orType Reference.CUR_BRANCH) head.2
                      (lookupOrAddReference head.2 m1) !! head.2 = Some r ∧
                    Z.land (type r) Reference.CUR_BRANCH = Reference.CUR_BRANCH).
  { destruct (lookupOrAdd_lookup head.2 m1) as [r0 Hr0].
    exists (Reference.orType Reference.CUR_BRANCH r0). split.
    - by rewrite lookup_alter_eq, Hr0.
    - simpl. apply Z.bits_inj'. intros n Hn.
      rewrite Z.land_spec, Z.lor_spec.
      by destruct (Z.testbit (type r0) n), (Z.testbit Reference.CUR_BRANCH n). }
  destruct Hk as (r & Hr & Hbit).
  set (mfinal := alter (Reference.orType Reference.CUR_BRANCH) head.2
                   (lookupOrAddReference head.2 m1)) in *.
  assert (Hne : mfinal ≠ ∅) by (intros E; by rewrite E in Hr).
  exists true, name', mfinal, (h2 ++ [Run wd "git rev-parse HEAD"]).
  split; [|split; [done|split; [done|]]].
  - fold head m1 mfinal.
    by rewrite (bool_decide_eq_false_2 _ Hne).
  - intros _. exists head. split; [done|]. split; [done|].
    unfold checkRef. by rewrite Hr.
Qed.

(** X15. [getRefs] answers true whenever [git branch] and [git show-ref]
    succeed, whatever they print: the test that the map is not empty never
    fails, since the commit of the head has got an entry by then, with the
    current-branch flag, also when no reference points at it and when the
    head could not be resolved.  When one of the two commands fails the map
    is left as it was. *)
Theorem getRefs_marks_head (env : Outside) (h : list Action) (wd name : string)
    (m : gmap string Reference) :
  let h1 := h ++ [Run wd "git branch"] in
  let h2 := h1 ++ [Run wd "git show-ref -d"] in
  ∃ ok name' m' h',
    play env h (getRefs wd name m) = (Ok (ok, name', m'), h') ∧
    ok = (env h (Run wd "git branch")).1
         && (env h1 (Run wd "git show-ref -d")).1 ∧
    (ok = false → m' = m) ∧
    (ok = true →
     ∃ head,
       play env h2 (getLastCommitOfBranch wd "HEAD")
         = (Ok head, h2 ++ [Run wd "git rev-parse HEAD"]) ∧
       h' = h2 ++ [Run wd "git rev-parse HEAD"] ∧
       checkRef m' head.2 Reference.CUR_BRANCH = Reference.CUR_BRANCH).
Proof. apply getRefs_play. Qed.

Lemma getRefs_flagged env h wd name m name' m' h' :
  play env h (getRefs wd name m) = (Ok (true, name', m'), h') →
  map_Forall (λ _, flagged) m'.
Proof.
  unfold getRefs. rewrite play_bind.
  unfold loadCurrentBranch at 1. simpl.
  destruct (env h (Run wd "git branch")) as [[] out1]; simpl; [|done].
  destruct (env _ (Run wd "git show-ref -d")) as [[] out2]; simpl; [|done].
  intros [= _ _ <- _].
  apply flagged_alter; [apply flagged_orType_cur|].
  apply flagged_lookupOrAdd, flagged_getRefs_loop. apply map_Forall_empty.
Qed.

(** X16. Names and flags go together in the map [getRefs] builds: a commit
    has the flag of a kind (tag, branch, remote branch, other ref) exactly
    when it has a name of that kind, so [checkRef] with the flag of a kind
    tells whether the commit has such names, and [getRefNames] with the
    flag of a kind answers exactly the names of that kind. *)
Theorem getRefs_names_and_flags (env : Outside) (h h' : list Action)
    (wd name name' : string) (m m' : gmap string Reference)
    (sha : string) (r : Reference) :
  play env h (getRefs wd name m) = (Ok (true, name', m'), h') →
  m' !! sha = Some r →
  (getRefNames m' sha Reference.TAG = tags r ∧
   getRefNames m' sha Reference.BRANCH = branches r ∧
   getRefNames m' sha Reference.RMT_BRANCH = remoteBranches r ∧
   getRefNames m' sha Reference.REF = refs r) ∧
  (checkRef m' sha Reference.TAG ≠ 0 ↔ tags r ≠ []) ∧
  (checkRef m' sha Reference.BRANCH ≠ 0 ↔ branches r ≠ []) ∧
  (checkRef m' sha Reference.RMT_BRANCH ≠ 0 ↔ remoteBranches r ≠ []) ∧
  (checkRef m' sha Reference.REF ≠ 0 ↔ refs r ≠ []).
Proof.
  intros E Hr. pose proof (getRefs_flagged _ _ _ _ _ _ _ _ E sha r Hr) as F.
  simpl in F. split; [by apply getRefNames_flagged|].
  unfold checkRef. rewrite Hr. destruct F as (F1 & F2 & F3 & F4).
  by split_and!.
Qed.

Lemma getRefs_names_and_flags_witness :
  ∃ name' m' h' r,
    play refsOutside [] (getRefs "/repo" "" ∅) = (Ok (true, name', m'), h') ∧
    m' !! Sample.sha = Some r ∧
    getRefNames m' Sample.sha Reference.TAG = tags r ∧
    tags r = ["v1.0"] ∧ tagObj r = tagObject ∧ m' !! tagObject = None.
Proof.
  assert (Hok : match play refsOutside [] (getRefs "/repo" "" ∅) with
                | (Ok (ok, _, _), _) => ok
                | _ => false
                end = true) by (vm_compute; reflexivity).
  assert (Hl : match play refsOutside [] (getRefs "/repo" "" ∅) with
               | (Ok (_, _, m), _) =>
                   (λ r, (tags r, tagObj r)) <$> m !! Sample.sha
               | _ => None
               end = Some (["v1.0"], tagObject)) by (vm_compute; reflexivity).
  assert (Hn : match play refsOutside [] (getRefs "/repo" "" ∅) with
               | (Ok (_, _, m), _) => m !! tagObject
               | _ => Some Reference.empty
               end = None) by (vm_compute; reflexivity).
  destruct (play refsOutside [] (getRefs "/repo" "" ∅))
    as [[[[ok name'] m']|s] h'] eqn:E; [|discriminate Hok].
  subst ok.
  destruct (m' !! Sample.sha) as [r|] eqn:Er; [|discriminate Hl].
  injection Hl as Ht Ho.
  exists name', m', h', r. split; [reflexivity|]. split; [exact Er|].
  destruct (getRefs_names_and_flags refsOutside [] h' "/repo" "" name' ∅ m'
              Sample.sha r E Er) as ((H1 & _) & _).
  split; [exact H1|]. split; [exact Ht|]. split; [exact Ho|exact Hn].
Defined.

(** ** The cache of diffs *)

Lemma insertNewFiles_cache sha data g f g' :
  insertNewFiles sha data g = Ok (f, g') →
  revisionFiles (mRevCache g') = <[sha := f]> (revisionFiles (mRevCache g)) ∧
  commits (mRevCache g') = commits (mRevCache g) ∧
  wipCommit (mRevCache g') = wipCommit (mRevCache g) ∧
  mWorkingDir g' = mWorkingDir g.
Proof.
  intros H. unfold insertNewFiles in H.
  inv_bind H. destruct a as [fl1 w1]. inv_bind H. destruct a as [fl2 w2].
  inv_bind H. by injection H as <- <-.
Qed.

Lemma runDiffTree_play env h wd runCmd :
  ∃ ok out acts,
    play env h (runDiffTreeWithRenameDetection wd runCmd)
    = (Ok (ok, out), h ++ acts) ∧
    (ok = false → length acts = 2%nat).
Proof.
  unfold runDiffTreeWithRenameDetection. simpl.
  destruct (env h _) as [[] out1]; simpl.
  - eexists true, _, [_]. split; [done|]. done.
  - destruct (env _ _) as [[] out2]; simpl.
    + eexists true, _, [_; _]. by rewrite <- app_assoc.
    + eexists false, _, [_; _]. by rewrite <- app_assoc.
Qed.

Section DiffCache.

Variable parentsCount : list CommitInfo → option CommitInfo → string → nat.

Lemma getDiffFiles_hit env h sha diffToSha allFiles g f :
  sha ≠ ZERO_SHA → diffToSha ≠ "" →
  parentsCount (commits (mRevCache g)) (wipCommit (mRevCache g)) sha ≠ 0%nat →
  revisionFiles (mRevCache g) !! sha = Some f →
  play env h (getDiffFiles parentsCount sha diffToSha allFiles g)
  = (Ok (f, g), h).
Proof.
  intros Hz Hd Hp Hf. unfold getDiffFiles.
  apply Nat.eqb_neq in Hp. rewrite Hp.
  replace (QString.isEmpty diffToSha) with false by (by destruct diffToSha).
  rewrite andb_false_r. simpl.
  apply String.eqb_neq in Hz. rewrite Hz. simpl.
  unfold RevisionsCache.containsRevisionFile, RevisionsCache.getRevisionFile.
  rewrite Hf. rewrite bool_decide_eq_true_2 by eauto. done.
Qed.

(** X17. The cache of [getDiffFiles] has the files of a commit against
    another commit under the id of the commit alone.  A request either gets
    nothing from git (both diff commands fail, the answer is an empty
    RevisionFile and nothing is cached), or its answer is in the cache
    afterwards; and then every later request for the files of that commit,
    against whatever commit, is answered with that same RevisionFile and
    runs no command. *)
Theorem getDiffFiles_caches_by_commit (env : Outside) (h h1 : list Action)
    (sha diffToSha : string) (allFiles : bool) (g g1 : Git) (f : RevisionFile) :
  sha ≠ ZERO_SHA → diffToSha ≠ "" →
  parentsCount (commits (mRevCache g)) (wipCommit (mRevCache g)) sha ≠ 0%nat →
  play env h (getDiffFiles parentsCount sha diffToSha allFiles g)
  = (Ok (f, g1), h1) →
  (f = RevisionFile.empty ∧ g1 = g ∧ length h1 = (length h + 2)%nat) ∨
  (revisionFiles (mRevCache g1) !! sha = Some f ∧
   ∀ env' h' diffToSha' allFiles',
     diffToSha' ≠ "" →
     play env' h' (getDiffFiles parentsCount sha diffToSha' allFiles' g1)
     = (Ok (f, g1), h')).
Proof.
  intros Hz Hd Hp H.
  destruct (revisionFiles (mRevCache g) !! sha) as [f0|] eqn:Ec.
  - rewrite (getDiffFiles_hit _ _ _ _ _ _ f0) in H by done.
    injection H as <- <- <-. right. split; [done|].
    intros env' h' d' a' Hd'. by apply getDiffFiles_hit.
  - unfold getDiffFiles in H.
    pose proof Hp as Hp'. apply Nat.eqb_neq in Hp'. rewrite Hp' in H.
    replace (QString.isEmpty diffToSha) with false in H
      by (by destruct diffToSha).
    rewrite andb_false_r in H. cbn [andb negb] in H.
    pose proof Hz as Hz'. apply String.eqb_neq in Hz'. rewrite Hz' in H.
    cbn [andb negb] in H.
    unfold RevisionsCache.containsRevisionFile in H. rewrite Ec in H.
    rewrite bool_decide_eq_false_2 in H by (by intros [? ?]).
    rewrite play_bind in H.
    destruct (runDiffTree_play env h (mWorkingDir g)
                ("git diff-tree --no-color -r -m "
                 +:+ diffToSha +:+ " " +:+ sha))
      as (ok & out & acts & Hr & Hacts).
    rewrite Hr in H. destruct ok; simpl in H.
    + destruct (insertNewFiles sha out g) as [[f' g']|s] eqn:Ei;
        simpl in H; [|done].
      injection H as <- <- <-.
      destruct (insertNewFiles_cache _ _ _ _ _ Ei) as (C1 & C2 & C3 & C4).
      right. split; [by rewrite C1, lookup_insert_eq|].
      intros env' h' d' a' Hd'. apply getDiffFiles_hit; try done.
      * by rewrite C2, C3.
      * by rewrite C1, lookup_insert_eq.
    + injection H as <- <- <-. left. split; [done|]. split; [done|].
      rewrite length_app, Hacts; done.
Qed.

End DiffCache.

Lemma getDiffFiles_caches_by_commit_witness :
  ∃ f g1 h1,
    play (λ _ _, (true, threeChanges)) []
         (getDiffFiles (λ _ _ _, 1%nat) Sample.sha "HEAD~1" false emptyGit)
    = (Ok (f, g1), h1) ∧
    play (λ _ _, (false, "")) []
         (getDiffFiles (λ _ _ _, 1%nat) Sample.sha "HEAD~5" true g1)
    = (Ok (f, g1), []).
Proof.
  assert (Hrun : match play (λ _ _, (true, threeChanges)) []
                         (getDiffFiles (λ _ _ _, 1%nat) Sample.sha "HEAD~1"
                                       false emptyGit) with
                 | (Ok _, h) => length h
                 | _ => 0%nat
                 end = 1%nat) by (vm_compute; reflexivity).
  destruct (play (λ _ _, (true, threeChanges)) []
              (getDiffFiles (λ _ _ _, 1%nat) Sample.sha "HEAD~1" false emptyGit))
    as [[[f g1]|s] h1] eqn:E; [|discriminate Hrun].
  exists f, g1, h1. split; [reflexivity|].
  assert (Hz : Sample.sha ≠ ZERO_SHA) by (apply String.eqb_neq; reflexivity).
  assert (Hd : "HEAD~1" ≠ "") by discriminate.
  assert (Hp : 1%nat ≠ 0%nat) by discriminate.
  destruct (getDiffFiles_caches_by_commit (λ _ _ _, 1%nat)
              (λ _ _, (true, threeChanges)) [] h1 Sample.sha "HEAD~1" false
              emptyGit g1 f Hz Hd Hp E) as [(_ & _ & Hl)|[_ Hhit]].
  - exfalso. rewrite Hrun in Hl. discriminate Hl.
  - apply Hhit. discriminate.
Defined.

(** ** The In-Index flag *)

Lemma update_cleanAt r r0 (g : RevisionFile → RevisionFile) w w' :
  (∀ f, Forall unstaged (status f) → Forall unstaged (status (g f))) →
  cleanAt r w → update r0 g w = Ok w' → cleanAt r w'.
Proof.
  intros Hg C H. unfold update in H. inv_bind H. injection H as <-.
  apply fromOption_Ok in Ha. intros f. simpl.
  destruct (decide (r = r0)) as [->|Hne].
  - rewrite lookup_insert_eq. intros [= <-]. apply Hg. by apply C.
  - rewrite lookup_insert_ne by done. apply C.
Qed.

Lemma flushFileNames_cleanAt r fl w fl' w' :
  cleanAt r w → flushFileNames fl w = Ok (fl', w') → cleanAt r w'.
Proof.
  intros C H. unfold flushFileNames in H.
  destruct (rf fl); [|by injection H as <- <-].
  inv_bind H. inv_bind H. inv_bind H. injection H as <- <-.
  by eapply (update_cleanAt r) in Ha1.
Qed.

Lemma appendFileName_cleanAt r r0 name fl w fl' w' :
  cleanAt r w → appendFileName r0 name fl w = Ok (fl', w') → cleanAt r w'.
Proof.
  intros C H. rewrite appendFileName_rebind in H. inv_bind H.
  destruct a as [fl0 w0]. injection H as H.
  assert (C0 : cleanAt r w0).
  { case_decide; [by injection Ha as <- <-|].
    inv_bind Ha. destruct a as [fl1 w1]. injection Ha as <- <-.
    by eapply flushFileNames_cleanAt. }
  assert (w' = (interned r0 name fl0 w0).2) as -> by (by rewrite H).
  intros f. rewrite interned_revFiles. apply C0.
Qed.

Lemma unstaged_setStatus c f :
  Forall unstaged (status f) → Forall unstaged (status (RevisionFile.setStatus c f)).
Proof.
  intros H. unfold RevisionFile.setStatus, RevisionFile.statusOfCode.
  repeat match goal with |- context [if ?b then _ else _] => destruct b end;
    simpl; apply Forall_app; split; try done; by repeat constructor.
Qed.

Lemma unstaged_setStatusFlag flag f :
  unstaged flag →
  Forall unstaged (status f) →
  Forall unstaged (status (RevisionFile.setStatusFlag flag f)).
Proof.
  intros Hf H. simpl. apply Forall_app. split; [done|]. by repeat constructor.
Qed.

Lemma setExtStatus_cleanAt r r0 rowSt parNum fl w fl' w' :
  cleanAt r w → setExtStatus r0 rowSt parNum fl w = Ok (fl', w') → cleanAt r w'.
Proof.
  intros C H. unfold setExtStatus in H.
  destruct (QString.split rowSt TAB) as [|tok [|orig [|dest [|]]]];
    try (by injection H as <- <-).
  inv_bind H. destruct a as [fl1 w1].
  apply (appendFileName_cleanAt _ _ _ _ _ _ _ C) in Ha. clear C.
  do 3 (let Hu := fresh "Hu" in
        apply bind_Ok in H; destruct H as (? & Hu & H);
        eapply update_cleanAt in Hu;
        [ clear Ha; rename Hu into Ha
        | first [ intros ?; by apply unstaged_setStatusFlag | by intros ? ]
        | exact Ha ]).
  inv_bind H. inv_bind H. destruct a0 as [fl2 w2].
  assert (C2 : cleanAt r w2).
  { destruct (Ascii.eqb a "R"); [|by injection Ha1 as <- <-].
    inv_bind Ha1. destruct a0 as [fl3 w3].
    apply (appendFileName_cleanAt _ _ _ _ _ _ _ Ha) in Ha2.
    do 3 (let Hu := fresh "Hu" in
          apply bind_Ok in Ha1; destruct Ha1 as (? & Hu & Ha1);
          eapply update_cleanAt in Hu;
          [ clear Ha2; rename Hu into Ha2
          | first [ intros ?; by apply unstaged_setStatusFlag | by intros ? ]
          | exact Ha2 ]).
    by injection Ha1 as <- <-. }
  inv_bind H. injection H as <- <-.
  by eapply (update_cleanAt r) in Ha2.
Qed.

Lemma parseDiffFormatLine_cleanAt r r0 line parNum fl w fl' w' :
  cleanAt r w → parseDiffFormatLine r0 line parNum fl w = Ok (fl', w') →
  cleanAt r w'.
Proof.
  intros C H. unfold parseDiffFormatLine in H. inv_bind H.
  destruct (Ascii.eqb a ":").
  - inv_bind H. destruct a0 as [fl1 w1].
    apply (appendFileName_cleanAt _ _ _ _ _ _ _ C) in Ha0.
    do 2 (let Hu := fresh "Hu" in
          apply bind_Ok in H; destruct H as (? & Hu & H);
          eapply update_cleanAt in Hu;
          [ clear Ha0; rename Hu into Ha0
          | first [ apply unstaged_setStatus | by intros ? ]
          | exact Ha0 ]).
    by injection H as <- <-.
  - inv_bind H. destruct (Ascii.eqb a0 TAB).
    + inv_bind H. destruct a1 as [fl1 w1].
      apply (appendFileName_cleanAt _ _ _ _ _ _ _ C) in Ha1.
      inv_bind H.
      do 2 (let Hu := fresh "Hu" in
            apply bind_Ok in H; destruct H as (? & Hu & H);
            eapply update_cleanAt in Hu;
            [ clear Ha1; rename Hu into Ha1
            | first [ apply unstaged_setStatus | by intros ? ]
            | exact Ha1 ]).
      by injection H as <- <-.
    + by eapply setExtStatus_cleanAt.
Qed.

Lemma parseDiffFormat_cleanAt r r0 buf fl w fl' w' :
  cleanAt r w → parseDiffFormat r0 buf fl w = Ok (fl', w') → cleanAt r w'.
Proof.
  intros C H. rewrite parseDiffFormat_records in H.
  revert H C. generalize 1 as parNum. revert fl w.
  induction (records buf) as [|line recs IH]; intros fl w parNum H C;
    simpl in H.
  - by injection H as <- <-.
  - inv_bind H. destruct (Ascii.eqb a ":").
    + inv_bind H. destruct a0 as [fl1 w1].
      apply (parseDiffFormatLine_cleanAt _ _ _ _ _ _ _ _ C) in Ha0.
      by eapply IH.
    + by eapply IH.
Qed.

Lemma appendOtherFiles_cleanAt r r0 others fl w fl' w' :
  cleanAt r w → appendOtherFiles r0 others fl w = Ok (fl', w') → cleanAt r w'.
Proof.
  revert fl w. induction others as [|it others IH]; intros fl w C H;
    simpl in H.
  - by injection H as <- <-.
  - inv_bind H. destruct a as [fl1 w1].
    apply (appendFileName_cleanAt _ _ _ _ _ _ _ C) in Ha.
    do 2 (let Hu := fresh "Hu" in
          apply bind_Ok in H; destruct H as (? & Hu & H);
          eapply update_cleanAt in Hu;
          [ clear Ha; rename Hu into Ha
          | first [ intros ?; by apply unstaged_setStatusFlag | by intros ? ]
          | exact Ha ]).
    by eapply IH.
Qed.

Lemma declare_cleanAt r a w :
  (r = a ∨ cleanAt r w) → cleanAt r (declare a w).
Proof.
  intros H f. unfold declare. simpl.
  destruct (decide (r = a)) as [->|Hne].
  - rewrite lookup_insert_eq. intros [= <-]. constructor.
  - rewrite lookup_insert_ne by done. destruct H as [?|C]; [done|]. apply C.
Qed.

Lemma firstIndex_elem (name : string) (P : list string) :
  firstIndex name P ≠ -1 ↔ name ∈ P.
Proof.
  unfold firstIndex.
  destruct (list_find (λ p, p = name) P) as [[i y]|] eqn:E.
  - apply list_find_Some in E as (Hi & -> & _).
    split; [|lia]. intros _. by eapply list_elem_of_lookup_2.
  - split; [done|]. intros Hin.
    eapply list_find_None in E. rewrite Forall_forall in E.
    by destruct (E name Hin).
Qed.

(** The state in which [fakeWorkDirRevFile] starts to mark the staged
    entries: the entries of [rf] and of [cachedFiles] are stored, and no
    status of [rf] has the In-Index flag. *)
Lemma fakeWorkDirRevFile_before_marks wd w f w' :
  tables_ok w →
  fakeWorkDirRevFile wd w = Ok (f, w') →
  ∃ r cached wb fb c w7,
    r ≠ cached ∧
    revFiles wb !! r = Some fb ∧ revFiles wb !! cached = Some c ∧
    stored wb fb (recordsPaths (records (diffIndex wd)) ++ otherFiles wd) ∧
    stored wb c (recordsPaths (records (diffIndexCached wd))) ∧
    length (status fb) = RevisionFile.count fb ∧
    Forall unstaged (status fb) ∧
    markCached_loop r cached 0 (RevisionFile.count fb) wb = Ok w7 ∧
    revFiles w7 !! r = Some f ∧
    sameTables wb w'.
Proof.
  intros Hok H. unfold fakeWorkDirRevFile in H.
  set (r := fresh (dom (revFiles w))) in *.
  (* the baseline *)
  inv_bind H. destruct a as [fl1 w1].
  pose proof (parseDiffFormat_stepped _ _ _ _ _ _ _ _ (ready_fresh r _ Hok) Ha)
    as St1.
  pose proof (parseDiffFormat_cleanAt r _ _ _ _ _ _
                (declare_cleanAt r r w (or_introl eq_refl)) Ha) as C1.
  pose proof St1 as (f1 & R1 & _).
  pose proof (ready_object _ _ _ _ _ R1) as Hf1.
  inv_bind H.
  pose proof (update_cleanAt r r (RevisionFile.setOnlyModified false) _ _
                (λ f0 H0, H0) C1 Ha0) as C2.
  rewrite (update_alive _ _ _ _ Hf1) in Ha0. injection Ha0 as <-.
  pose proof (stepped_update _ _ _ _ _ _ _ _ _ _
                (RevisionFile.setOnlyModified false) St1 Hf1
                eq_refl eq_refl eq_refl) as St2.
  (* the untracked files *)
  inv_bind H. destruct a as [fl3 w3].
  pose proof (appendOtherFiles_cleanAt r _ _ _ _ _ _ C2 Ha0) as C3.
  pose proof St2 as (f2 & R2 & _).
  pose proof (appendOtherFiles_stepped _ _ _ _ _ _ _ _ R2 Ha0) as St3.
  pose proof (stepped_trans _ _ _ _ _ _ _ _ _ _ _ _ _ _ St2
                (ready_object _ _ _ _ _ R2) St3) as St.
  destruct St as (f3 & (Hok3 & Hwf3 & HP3 & _ & Hf3) & _ & L3 & _ & M3 & S3 & _).
  simpl in M3, S3, HP3.
  (* the staged changes *)
  set (cached := fresh (dom (revFiles w3))) in *.
  assert (Hne : r ≠ cached).
  { intros E. pose proof (fresh_not_alive w3) as Hn. fold cached in Hn.
    rewrite <- E in Hn. congruence. }
  destruct (declare_ready cached fl3 w3 Hok3 Hwf3 (fresh_not_alive w3))
    as (Rc & Hpd & Hod).
  inv_bind H. destruct a as [fl5 w5].
  pose proof (parseDiffFormat_stepped _ _ _ _ _ _ _ _ Rc Ha1)
    as (fc & (Hok5 & Hwf5 & HPc & _ & Hfc) & _ & _ & _ & _ & _ & K5 & O5).
  simpl in HPc.
  pose proof (O5 r _ Hne (Hpd r _ Hne HP3)) as HP5.
  destruct (K5 r f3 Hne (Hod r f3 Hne Hf3)) as (f5 & Hf5 & SM5).
  (* the flush *)
  inv_bind H. destruct a as [fl6 w6].
  destruct (flushFileNames_step _ _ Hok5 Hwf5)
    as (w6' & Hfl & Hok6 & _ & K6 & P6).
  rewrite Hfl in Ha2. injection Ha2 as <- <-.
  destruct (K6 _ _ Hf5) as (f6 & Hf6 & SM6).
  destruct (P6 _ _ HP5) as (f6' & Hf6' & St6).
  assert (f6' = f6) by congruence; subst f6'.
  rewrite decide_False in St6 by done.
  destruct (P6 _ _ HPc) as (c & Hc & Stc).
  rewrite decide_False in Stc by done.
  (* the marks *)
  apply bind_Ok in H. destruct H as (f6' & Hd6 & H).
  unfold deref in Hd6. apply fromOption_Ok in Hd6.
  assert (f6' = f6) by congruence; subst f6'.
  apply bind_Ok in H. destruct H as (w7 & Hloop & H).
  apply bind_Ok in H. destruct H as (f7' & Hd7 & H).
  injection H as <- <-.
  unfold deref in Hd7. apply fromOption_Ok in Hd7.
  destruct (markCached_loop_inv _ _ _ _ _ _ Hloop) as [T _].
  destruct (sameMeta_trans _ _ _ SM5 SM6) as (K1 & _ & K3 & _).
  exists r, cached, w6', f6, c, w7.
  split; [done|]. split; [done|]. split; [done|]. split; [done|].
  split; [done|]. split.
  { destruct St6 as [-> _]. rewrite K1, S3, length_app. done. }
  split.
  { rewrite K1. by apply C3. }
  split; [done|]. split; [done|]. exact T.
Qed.

(** X18. The In-Index flag of the synthesized working directory.  In the
    RevisionFile [fakeWorkDirRevFile] returns, the entry of a path that is
    not empty has the In-Index flag exactly when the path is among the
    paths of the staged diff, whatever the position of the path there. *)
Theorem fakeWorkDirRevFile_in_index (wd : WorkingDirInfo) (w w' : World)
    (f : RevisionFile) (j : nat) (p : string) :
  tables_ok w → shaped w →
  fakeWorkDirRevFile wd w = Ok (f, w') →
  (recordsPaths (records (diffIndex wd)) ++ otherFiles wd) !! j = Some p →
  p ≠ "" →
  RevisionFile.statusCmp f j RevisionFile.IN_INDEX = true ↔
  p ∈ recordsPaths (records (diffIndexCached wd)).
Proof.
  intros Hok S H Hj Hp.
  pose proof (fakeWorkDirRevFile_shaped _ _ _ _ S H) as S'.
  destruct (fakeWorkDirRevFile_before_marks _ _ _ _ Hok H)
    as (r & cached & wb & fb & c & w7 & Hne & Hfb & Hc & Stb & Stc & Hl & Hcl
        & Hloop & Hf & T).
  assert (Sb : shaped wb).
  { destruct T as (T1 & T2 & _). destruct S' as [S1 S2].
    split; by rewrite <- ?T1, <- ?T2. }
  destruct (markCached_loop_status _ _ _ _ _ _ Hne Hfb Hc Hloop)
    as (f' & Hf' & Hst).
  assert (f' = f) by congruence; subst f'.
  destruct Stb as [Hcount Hpaths].
  assert (Hlt : (j < RevisionFile.count fb)%nat).
  { rewrite Hcount. by apply lookup_lt_Some in Hj. }
  destruct (lookup_lt_is_Some_2 (status fb) j) as [st Hstj]; [lia|].
  specialize (Hst j). rewrite decide_True, Hstj in Hst by done.
  simpl in Hst.
  assert (Hun : unstaged st) by (by eapply Forall_lookup_1 in Hcl).
  unfold RevisionFile.statusCmp. rewrite Hst.
  unfold markAt, staged. rewrite (Hpaths _ _ Hj). simpl.
  rewrite (findFileIndex_stored _ _ _ _ Sb Stc Hp).
  rewrite <- firstIndex_elem.
  destruct (Z.eqb_spec (firstIndex p (recordsPaths (records (diffIndexCached wd))))
                       (-1)) as [E|E]; simpl.
  - unfold unstaged in Hun. rewrite Hun. simpl. split; [done|]. by intros ?.
  - split; [done|]. intros _. apply negb_true_iff, Z.eqb_neq.
    by apply flag_set.
Qed.

Lemma fakeWorkDirRevFile_in_index_witness :
  ∃ f w',
    fakeWorkDirRevFile stagedConflict emptyWorld = Ok (f, w') ∧
    RevisionFile.statusCmp f 1 RevisionFile.IN_INDEX = true ∧
    RevisionFile.statusCmp f 2 RevisionFile.IN_INDEX = false.
Proof.
  destruct (fakeWorkDirRevFile stagedConflict emptyWorld)
    as [[f w']|] eqn:E; [|vm_compute in E; discriminate E].
  exists f, w'. split; [reflexivity|]. split.
  - apply (fakeWorkDirRevFile_in_index stagedConflict emptyWorld w' f 1 "x.txt"
             (tables_ok_empty ∅) (shaped_empty ∅) E); [reflexivity|discriminate|].
    vm_compute. apply list_elem_of_In. right. right. by left.
  - apply not_true_iff_false. intros Hs.
    apply (fakeWorkDirRevFile_in_index stagedConflict emptyWorld w' f 2 "u.txt"
             (tables_ok_empty ∅) (shaped_empty ∅) E) in Hs;
      [|reflexivity|discriminate].
    vm_compute in Hs. apply list_elem_of_In in Hs.
    repeat (destruct Hs as [Hs|Hs]; [discriminate Hs|]). exact Hs.
Defined.

(** ** The highlighter *)

Lemma startsWith_nil (s : string) : QString.startsWith s "" = true.
Proof. by destruct s. Qed.

Lemma startsWith_cons (a b : ascii) (s p : string) :
  QString.startsWith (String a s) (String b p)
  = Ascii.eqb a b && QString.startsWith s p.
Proof. done. Qed.

(** X19. The highlighter formats a line by what it starts with.  The switch
    on the first character never hides a keyword: the format of a line that
    is not empty is orange and bold for a hunk header, green for an added
    and red for a removed line, blue and bold for a line that starts with
    "diff --git a/", blue for one that starts with copy, index, new, old,
    rename or similarity and a space, and the default format for every
    other line.  The block state is one more than that of the block before,
    for an empty line too, which gets no format. *)
Theorem highlightBlock_by_prefix (previousBlockState : Z) (text : string) :
  highlightBlock previousBlockState text
  = (previousBlockState + 1,
     if QString.isEmpty text then None else Some (formatByPrefix text)).
Proof.
  destruct text as [|c s]; [done|].
  unfold highlightBlock, formatByPrefix. cbn [QString.isEmpty].
  f_equal. f_equal.
  rewrite !startsWith_cons, !startsWith_nil, !andb_true_r.
  destruct (Ascii.eqb c "@") eqn:E1; [done|].
  destruct (Ascii.eqb c "+") eqn:E2; [done|].
  destruct (Ascii.eqb c "-") eqn:E3; [done|].
  cbn [extraBold foreground].
  destruct (Ascii.eqb c "c") eqn:Ec; destruct (Ascii.eqb c "d") eqn:Ed;
  destruct (Ascii.eqb c "i") eqn:Ei; destruct (Ascii.eqb c "n") eqn:En;
  destruct (Ascii.eqb c "o") eqn:Eo; destruct (Ascii.eqb c "r") eqn:Er;
  destruct (Ascii.eqb c "s") eqn:Es; cbn [orb andb]; try reflexivity;
    rewrite ?orb_false_r; reflexivity.
Qed.

(** ** The user *)







(** ** Buffers of full-width lines *)

Lemma indexOf_line (pre line rest : string) (from : nat) :
  QString.find NL line = None →
  (String.length pre ≤ from ≤ String.length pre + String.length line)%nat →
  QString.indexOf (pre +:+ line +:+ String NL rest) NL (Z.of_nat from)
  = Z.of_nat (String.length pre + String.length line).
Proof.
  intros Hl Hf. unfold QString.indexOf.
  replace (Z.of_nat from <? 0) with false by (symmetry; apply Z.ltb_ge; lia).
  rewrite Nat2Z.id, mid_app_ge by lia.
  rewrite mid_app_le by lia.
  rewrite find_app, (find_mid_None _ _ _ Hl). simpl.
  pose proof (size_mid line (from - String.length pre)) as Hs.
  unfold QString.size in Hs. rewrite Hs. lia.
Qed.

Lemma indexOf_past (pre tail : string) (from : nat) :
  QString.find NL tail = None → (String.length pre ≤ from)%nat →
  QString.indexOf (pre +:+ tail) NL (Z.of_nat from) = -1.
Proof.
  intros Ht Hf. unfold QString.indexOf.
  replace (Z.of_nat from <? 0) with false by (symmetry; apply Z.ltb_ge; lia).
  rewrite Nat2Z.id, mid_app_ge by lia.
  by rewrite (find_mid_None _ _ _ Ht).
Qed.

Lemma length_app_string (a b : string) :
  String.length (a +:+ b) = (String.length a + String.length b)%nat.
Proof. apply size_app. Qed.

Lemma records_loop_lines (fuel : nat) (pre line : string)
    (lines : list string) (tail : string) :
  QString.find NL line = None →
  Forall (λ l, QString.find NL l = None ∧ (98 ≤ String.length l)%nat) lines →
  QString.find NL tail = None →
  (length lines < fuel)%nat →
  records_loop fuel (pre +:+ line +:+ String NL (joinRecords lines +:+ tail))
               (Z.of_nat (String.length pre))
               (Z.of_nat (String.length pre + String.length line))
  = line :: lines.
Proof.
  intros Hl Hls Ht. revert fuel pre line Hl.
  induction Hls as [|l1 rest [Hl1 Hw] _ IH]; intros fuel pre line Hl Hfuel.
  - destruct fuel as [|fuel]; [simpl in Hfuel; lia|]. simpl.
    replace (Z.of_nat (String.length pre + String.length line) =? -1)
      with false by (symmetry; apply Z.eqb_neq; lia).
    replace (Z.to_nat (Z.of_nat (String.length pre + String.length line)
                       - Z.of_nat (String.length pre)))
      with (String.length line) by lia.
    rewrite Nat2Z.id, mid2_app_length. f_equal.
    change ("" +:+ tail) with tail.
    replace (pre +:+ line +:+ String NL tail)
      with ((pre +:+ line +:+ String NL "") +:+ tail)
      by (by rewrite !append_assoc).
    replace (Z.of_nat (String.length pre + String.length line) + 99)
      with (Z.of_nat (String.length pre + String.length line + 99)) by lia.
    rewrite (indexOf_past _ tail _ Ht); [by destruct fuel|].
    rewrite !length_app_string. simpl. lia.
  - destruct fuel as [|fuel]; [simpl in Hfuel; lia|]. simpl in Hfuel.
    cbn [records_loop].
    replace (Z.of_nat (String.length pre + String.length line) =? -1)
      with false by (symmetry; apply Z.eqb_neq; lia).
    replace (Z.to_nat (Z.of_nat (String.length pre + String.length line)
                       - Z.of_nat (String.length pre)))
      with (String.length line) by lia.
    rewrite Nat2Z.id, mid2_app_length. f_equal.
    cbn [joinRecords].
    set (pre' := pre +:+ line +:+ String NL "").
    assert (Hp : String.length pre'
                 = S (String.length pre + String.length line)).
    { unfold pre'. rewrite !length_app_string. simpl. lia. }
    replace (pre +:+ line +:+
             String NL ((l1 +:+ String NL (joinRecords rest)) +:+ tail))
      with (pre' +:+ l1 +:+ String NL (joinRecords rest +:+ tail)).
    2: { unfold pre'.
         by rewrite !append_assoc, !append_String, !append_empty. }
    replace (Z.of_nat (String.length pre + String.length line) + 99)
      with (Z.of_nat (String.length pre' + 98)) by lia.
    rewrite indexOf_line by (done || lia).
    replace (Z.of_nat (String.length pre + String.length line) + 1)
      with (Z.of_nat (String.length pre')) by lia.
    apply IH; [done|lia].
Qed.

Lemma fields_lines_tail (lines : list string) (tail : string) :
  Forall (λ l, QString.find NL l = None) lines → QString.find NL tail = None →
  QString.fields NL (joinRecords lines +:+ tail) = lines ++ [tail].
Proof.
  intros Hl Ht. induction Hl as [|l ls H _ IH]; simpl.
  - rewrite append_empty. by apply fields_no_sep.
  - cbn [joinRecords]. rewrite append_assoc, append_String.
    change (String NL (joinRecords ls +:+ tail))
      with (String NL (joinRecords ls +:+ tail)).
    by rewrite fields_app, IH.
Qed.

(** X21. Buffers of full-width lines are read line by line.  When no line
    after the first has fewer than 98 characters, the records the loop of
    [parseDiffFormat] delimits are the newline-terminated lines of the
    buffer, so that every line is examined once, in order; the text after
    the last newline is not a record. *)
Theorem parseDiffFormat_full_width (r : addr) (line : string)
    (lines : list string) (tail : string) (fl : FileNamesLoader) (w : World) :
  QString.find NL line = None →
  Forall (λ l, QString.find NL l = None ∧ (98 ≤ String.length l)%nat) lines →
  QString.find NL tail = None →
  let buf := joinRecords (line :: lines) +:+ tail in
  records buf = line :: lines ∧
  newlineRecords buf = line :: lines ∧
  parseDiffFormat r buf fl w = parseRecords r (newlineRecords buf) 1 fl w.
Proof.
  intros Hl Hls Ht buf.
  assert (Hr : records buf = line :: lines).
  { unfold records, buf. cbn [joinRecords].
    rewrite append_assoc, append_String.
    pose proof (indexOf_line "" line (joinRecords lines +:+ tail) 0 Hl) as Hi.
    rewrite append_empty in Hi. change (Z.of_nat 0) with 0 in Hi.
    rewrite Hi by (simpl; lia).
    pose proof (records_loop_lines
                  (S (QString.size (line +:+ String NL (joinRecords lines +:+ tail))))
                  "" line lines tail Hl Hls Ht) as HR.
    rewrite append_empty in HR. apply HR.
    rewrite size_app. unfold QString.size at 2. cbn [String.length].
    rewrite size_app.
    assert (length lines ≤ QString.size (joinRecords lines))%nat; [|lia].
    clear. induction lines as [|l ls IH]; simpl; [lia|].
    rewrite size_app. simpl. lia. }
  assert (Hn : newlineRecords buf = line :: lines).
  { unfold newlineRecords, buf. rewrite fields_lines_tail; [|constructor|done].
    - by rewrite removelast_last.
    - done.
    - eapply Forall_impl; [exact Hls|]. by intros l [? _]. }
  split; [done|]. split; [done|].
  by rewrite parseDiffFormat_records, Hr, Hn.
Qed.

Lemma parseDiffFormat_full_width_witness :
  records (Sample.unlines [Sample.sha; Sample.changeLine "M" "a.txt";
                           Sample.changeLine "M" "b.txt"])
  = [Sample.sha; Sample.changeLine "M" "a.txt"; Sample.changeLine "M" "b.txt"].
Proof.
  apply (parseDiffFormat_full_width 0 Sample.sha
           [Sample.changeLine "M" "a.txt"; Sample.changeLine "M" "b.txt"] ""
           FileNamesLoader.empty emptyWorld).
  - reflexivity.
  - repeat constructor; vm_compute; lia.
  - reflexivity.
Defined.

(** ** Each name is stored once *)

Lemma indexed_empty h : indexed (mkWorld ∅ ∅ [] [] h).
Proof. split; intros i k H; simpl in H; by rewrite lookup_nil in H. Qed.

Lemma indexed_sameTables w w' : sameTables w w' → indexed w → indexed w'.
Proof.
  intros (A1 & A2 & A3 & A4) [H1 H2]. unfold indexed.
  by rewrite A1, A2, A3, A4.
Qed.

Lemma internKey_indexed m l k i m' l' :
  (∀ i0 k0, l !! i0 = Some k0 → m !! k0 = Some i0) →
  internKey m l k = (i, m', l') →
  ∀ i0 k0, l' !! i0 = Some k0 → m' !! k0 = Some i0.
Proof.
  intros Hin. unfold internKey. destruct (m !! k) eqn:E; intros [= <- <- <-].
  - done.
  - intros i0 k0 H0. apply lookup_app_Some in H0 as [H0|[Hge H0]].
    + rewrite lookup_insert_ne; [by apply Hin|].
      intros <-. apply Hin in H0. congruence.
    + apply list_lookup_singleton_Some in H0 as [Hi <-].
      replace i0 with (length l) by lia. apply lookup_insert_eq.
Qed.

Lemma indexed_interned r name fl w :
  indexed w → indexed (interned r name fl w).2.
Proof.
  intros [H1 H2].
  destruct (interned_tables r name fl w)
    as (d & n & dm & fm & dl & fnl & Hd & Hn & ->). simpl.
  split; simpl; eauto using internKey_indexed.
Qed.

Lemma indexed_NoDup w : indexed w → NoDup (mDirNames w) ∧ NoDup (mFileNames w).
Proof.
  intros [H1 H2]. split; apply NoDup_alt; intros i j x Hi Hj.
  - apply H1 in Hi, Hj. congruence.
  - apply H2 in Hi, Hj. congruence.
Qed.

Lemma indexed_storedOnce w : indexed w → shaped w → storedOnce w.
Proof.
  intros Hin [S1 S2]. destruct (indexed_NoDup w Hin) as [N1 N2].
  split; [done|]. split; [done|].
  intros f f' i j p Hi Hj.
  apply filePath_resolve in Hi as (d & n & Hd & Hn & Hr).
  apply filePath_resolve in Hj as (d' & n' & Hd' & Hn' & Hr').
  unfold resolve in Hr, Hr'.
  destruct (mDirNames w !! d) as [dr|] eqn:E1; [|done].
  destruct (mFileNames w !! n) as [nm|] eqn:E2; [|done].
  destruct (mDirNames w !! d') as [dr'|] eqn:E3; [|done].
  destruct (mFileNames w !! n') as [nm'|] eqn:E4; [|done].
  simpl in Hr, Hr'. injection Hr as <-. injection Hr' as Hp.
  destruct (split_unique dr nm) as [U1 U2];
    [by eapply Forall_lookup_1 in S1 | by eapply Forall_lookup_1 in S2|].
  destruct (split_unique dr' nm') as [U3 U4];
    [by eapply Forall_lookup_1 in S1 | by eapply Forall_lookup_1 in S2|].
  rewrite Hp in U3, U4.
  assert (dr' = dr) by congruence. assert (nm' = nm) by congruence.
  subst dr' nm'. destruct Hin as [H1 H2].
  apply H1 in E1, E3. apply H2 in E2, E4.
  rewrite Hd, Hd', Hn, Hn'. split; congruence.
Qed.

Section TableInvariant.

(** A property of the name tables that interning a name keeps. *)
Variable Inv : World → Prop.
Hypothesis Inv_sameTables : ∀ w w', sameTables w w' → Inv w → Inv w'.
Hypothesis Inv_interned :
  ∀ r name fl w, Inv w → Inv (interned r name fl w).2.

Lemma appendFileName_keeps r name fl w fl' w' :
  Inv w → appendFileName r name fl w = Ok (fl', w') → Inv w'.
Proof.
  intros S H. rewrite appendFileName_rebind in H. inv_bind H.
  destruct a as [fl0 w0]. injection H as H.
  assert (S0 : Inv w0).
  { case_decide; [by injection Ha as <- <-|].
    inv_bind Ha. destruct a as [fl1 w1]. injection Ha as <- <-.
    apply flushFileNames_sameTables in Ha0. by apply (Inv_sameTables w). }
  apply (Inv_interned r name fl0) in S0. by rewrite H in S0.
Qed.

Lemma setExtStatus_keeps r rowSt parNum fl w fl' w' :
  Inv w → setExtStatus r rowSt parNum fl w = Ok (fl', w') → Inv w'.
Proof.
  intros S H. unfold setExtStatus in H.
  destruct (QString.split rowSt TAB) as [|tok [|orig [|dest [|]]]];
    try (by injection H as <- <-).
  inv_bind H. destruct a as [fl1 w1].
  apply (appendFileName_keeps _ _ _ _ _ _ S) in Ha. clear S.
  do 3 (let Hu := fresh "Hu" in
        apply bind_Ok in H; destruct H as (? & Hu & H);
        apply update_sameTables in Hu;
        apply (Inv_sameTables _ _ Hu) in Ha; clear Hu).
  inv_bind H. inv_bind H. destruct a0 as [fl2 w2].
  assert (S2 : Inv w2).
  { destruct (Ascii.eqb a "R"); [|by injection Ha1 as <- <-].
    inv_bind Ha1. destruct a0 as [fl3 w3].
    apply (appendFileName_keeps _ _ _ _ _ _ Ha) in Ha2.
    do 3 (let Hu := fresh "Hu" in
          apply bind_Ok in Ha1; destruct Ha1 as (? & Hu & Ha1);
          apply update_sameTables in Hu;
          apply (Inv_sameTables _ _ Hu) in Ha2; clear Hu).
    by injection Ha1 as <- <-. }
  inv_bind H. injection H as <- <-.
  apply update_sameTables in Ha2. by apply (Inv_sameTables w2).
Qed.

Lemma parseDiffFormatLine_keeps r line parNum fl w fl' w' :
  Inv w → parseDiffFormatLine r line parNum fl w = Ok (fl', w') → Inv w'.
Proof.
  intros S H. unfold parseDiffFormatLine in H. inv_bind H.
  destruct (Ascii.eqb a ":").
  - inv_bind H. destruct a0 as [fl1 w1].
    apply (appendFileName_keeps _ _ _ _ _ _ S) in Ha0.
    do 2 (let Hu := fresh "Hu" in
          apply bind_Ok in H; destruct H as (? & Hu & H);
          apply update_sameTables in Hu;
          apply (Inv_sameTables _ _ Hu) in Ha0; clear Hu).
    by injection H as <- <-.
  - inv_bind H. destruct (Ascii.eqb a0 TAB).
    + inv_bind H. destruct a1 as [fl1 w1].
      apply (appendFileName_keeps _ _ _ _ _ _ S) in Ha1.
      inv_bind H.
      do 2 (let Hu := fresh "Hu" in
            apply bind_Ok in H; destruct H as (? & Hu & H);
            apply update_sameTables in Hu;
            apply (Inv_sameTables _ _ Hu) in Ha1; clear Hu).
      by injection H as <- <-.
    + by eapply setExtStatus_keeps.
Qed.

Lemma parseRecords_keeps r recs parNum fl w fl' w' :
  Inv w → parseRecords r recs parNum fl w = Ok (fl', w') → Inv w'.
Proof.
  revert parNum fl w. induction recs as [|line recs IH];
    intros parNum fl w S H; simpl in H.
  - by injection H as <- <-.
  - inv_bind H. destruct (Ascii.eqb a ":").
    + inv_bind H. destruct a0 as [fl1 w1].
      apply (parseDiffFormatLine_keeps _ _ _ _ _ _ _ S) in Ha0.
      by eapply IH.
    + by eapply IH.
Qed.

Lemma parseDiffFormat_keeps r buf fl w fl' w' :
  Inv w → parseDiffFormat r buf fl w = Ok (fl', w') → Inv w'.
Proof.
  intros S H. rewrite parseDiffFormat_records in H.
  by eapply parseRecords_keeps.
Qed.

Lemma appendOtherFiles_keeps r others fl w fl' w' :
  Inv w → appendOtherFiles r others fl w = Ok (fl', w') → Inv w'.
Proof.
  revert fl w. induction others as [|it others IH]; intros fl w S H;
    simpl in H.
  - by injection H as <- <-.
  - inv_bind H. destruct a as [fl1 w1].
    apply (appendFileName_keeps _ _ _ _ _ _ S) in Ha.
    do 2 (let Hu := fresh "Hu" in
          apply bind_Ok in H; destruct H as (? & Hu & H);
          apply update_sameTables in Hu;
          apply (Inv_sameTables _ _ Hu) in Ha; clear Hu).
    by eapply IH.
Qed.

Lemma insertNewFiles_keeps sha data g f g' :
  Inv (declare (fresh (dom (revFiles (world g)))) (world g)) →
  (∀ w h, Inv w → Inv (set_revFiles h w)) →
  insertNewFiles sha data g = Ok (f, g') → Inv (world g').
Proof.
  intros S Hset H. unfold insertNewFiles in H.
  inv_bind H. destruct a as [fl1 w1].
  apply parseDiffFormat_keeps in Ha; [|done].
  inv_bind H. destruct a as [fl2 w2].
  apply flushFileNames_sameTables in Ha0.
  apply (Inv_sameTables _ _ Ha0) in Ha.
  inv_bind H. injection H as <- <-. simpl. by apply Hset.
Qed.

Lemma fakeWorkDirRevFile_keeps wd w f w' :
  (∀ w h, Inv w → Inv (set_revFiles h w)) →
  Inv w → fakeWorkDirRevFile wd w = Ok (f, w') → Inv w'.
Proof.
  intros Hset S H. unfold fakeWorkDirRevFile in H.
  inv_bind H. destruct a as [fl1 w1].
  apply parseDiffFormat_keeps in Ha; [|by apply Hset].
  inv_bind H. apply update_sameTables in Ha0.
  apply (Inv_sameTables _ _ Ha0) in Ha. clear Ha0.
  inv_bind H. destruct a0 as [fl3 w3].
  apply (appendOtherFiles_keeps _ _ _ _ _ _ Ha) in Ha0.
  inv_bind H. destruct a0 as [fl4 w4].
  apply parseDiffFormat_keeps in Ha1; [|by apply Hset].
  inv_bind H. destruct a0 as [fl5 w5].
  apply flushFileNames_sameTables in Ha2.
  apply (Inv_sameTables _ _ Ha2) in Ha1.
  inv_bind H. inv_bind H. inv_bind H. injection H as <- <-.
  apply markCached_loop_inv in Ha4 as [T _].
  apply Hset. by apply (Inv_sameTables w5).
Qed.

End TableInvariant.

Lemma indexed_shaped_set_revFiles w h :
  indexed w ∧ shaped w → indexed (set_revFiles h w) ∧ shaped (set_revFiles h w).
Proof. by intros [[? ?] [? ?]]. Qed.

(** X22. Each name is stored once.  When every string of the name tables is
    a key of its map at its own position, and the tables hold directory and
    file strings, a commit diff loaded by [insertNewFiles] and a working
    directory synthesized by [fakeWorkDirRevFile] leave the tables so; no
    table then holds a string twice, and two entries with the same path hold
    the same pair of indices. *)
Theorem names_stored_once (w : World) :
  indexed w → shaped w →
  (∀ sha data g f g',
     world g = w → insertNewFiles sha data g = Ok (f, g') →
     indexed (world g') ∧ storedOnce (world g')) ∧
  (∀ wd f w',
     fakeWorkDirRevFile wd w = Ok (f, w') → indexed w' ∧ storedOnce w').
Proof.
  intros Hin S.
  set (Inv := λ w, indexed w ∧ shaped w).
  assert (I1 : ∀ w w', sameTables w w' → Inv w → Inv w').
  { intros w1 w2 T [? ?].
    split; [by eapply indexed_sameTables | by eapply shaped_sameTables]. }
  assert (I2 : ∀ r name fl w, Inv w → Inv (interned r name fl w).2).
  { intros r name fl w1 [? ?].
    split; [by apply indexed_interned | by apply shaped_interned]. }
  assert (I3 : ∀ w h, Inv w → Inv (set_revFiles h w)).
  { intros w1 h. apply indexed_shaped_set_revFiles. }
  split.
  - intros sha data g f g' <- H.
    apply (insertNewFiles_keeps Inv I1 I2) in H as [? ?]; [| |done].
    + split; [done|]. by apply indexed_storedOnce.
    + by apply I3.
  - intros wd f w' H.
    apply (fakeWorkDirRevFile_keeps Inv I1 I2) in H as [? ?]; [|done|done].
    split; [done|]. by apply indexed_storedOnce.
Qed.

Lemma names_stored_once_witness :
  ∃ f w', fakeWorkDirRevFile stagedConflict emptyWorld = Ok (f, w') ∧
          mFileNames w' = ["a.txt"; "x.txt"; "u.txt"; "w.txt"] ∧
          NoDup (mFileNames w').
Proof.
  destruct (fakeWorkDirRevFile stagedConflict emptyWorld)
    as [[f w']|] eqn:E; [|vm_compute in E; discriminate E].
  exists f, w'. split; [reflexivity|]. split.
  - vm_compute in E. by injection E as <- <-.
  - destruct (names_stored_once emptyWorld (indexed_empty ∅) (shaped_empty ∅))
      as [_ H].
    by destruct (H stagedConflict f w' E) as (_ & _ & ? & _).
Defined.

(** ** The current branch *)













(** ** Tags that are not pushed *)

Lemma startsWith_arrow (s : string) :
  QString.startsWith s " -> " = true →
  ∃ a b t, s = String a (String b (String ">" t)).
Proof.
  destruct s as [|a [|b [|c t]]]; simpl; rewrite ?andb_false_r; try done.
  intros H. apply andb_true_iff in H as [_ H].
  apply andb_true_iff in H as [_ H]. apply andb_true_iff in H as [H _].
  apply Ascii.eqb_eq in H as ->. eauto.
Qed.

Lemma findStr_no_arrow (s : string) :
  QString.find ">" s = None → QString.findStr s " -> " = None.
Proof.
  induction s as [|a s IH]; intros H; [done|].
  cbn [QString.findStr].
  destruct (QString.startsWith (String a s) " -> ") eqn:E.
  - apply startsWith_arrow in E as (a' & b & t & E). rewrite E in H.
    simpl in H. destruct (Ascii.eqb a' ">"); [done|].
    by destruct (Ascii.eqb b ">").
  - simpl in H. destruct (Ascii.eqb a ">"); [done|].
    destruct (QString.find ">" s); [done|]. by rewrite IH.
Qed.

Lemma findStr_arrow (report name : string) :
  QString.find ">" report = None →
  QString.findStr (report +:+ " -> " +:+ name) " -> "
  = Some (String.length report).
Proof.
  induction report as [|a s IH]; intros H; [by destruct name|].
  rewrite append_String. cbn [QString.findStr].
  destruct (QString.startsWith (String a (s +:+ " -> " +:+ name)) " -> ")
    eqn:E.
  - exfalso. apply startsWith_arrow in E as (a' & b & t & E).
    injection E as <- E. simpl in H.
    destruct (Ascii.eqb a ">"); [done|].
    destruct s as [|b' [|c s]]; [done| |].
    + discriminate E.
    + injection E as _ -> _. simpl in H.
      by destruct (Ascii.eqb b' ">").
  - simpl in H. destruct (Ascii.eqb a ">"); [done|].
    destruct (QString.find ">" s); [done|]. by rewrite IH.
Qed.

Lemma splitStr_arrow (report name : string) :
  QString.find ">" report = None → QString.find ">" name = None →
  QString.splitStr (report +:+ " -> " +:+ name) " -> " = [report; name].
Proof.
  intros Hr Hn. unfold QString.splitStr.
  destruct (QString.size (report +:+ " -> " +:+ name)) as [|fuel] eqn:E.
  { rewrite size_app in E. simpl in E. lia. }
  cbn [QString.splitStr_scan]. rewrite findStr_arrow by done.
  rewrite left_app_length.
  change (QString.size " -> ") with 4%nat.
  replace (QString.mid (report +:+ " -> " +:+ name) (String.length report + 4))
    with name.
  2: { rewrite mid_app_ge by lia.
       by replace (String.length report + 4 - String.length report)%nat
         with 4%nat by lia. }
  destruct fuel; simpl; by rewrite findStr_no_arrow.
Qed.

Lemma startsWith_app_l (s t p : string) :
  QString.startsWith s p = true → QString.startsWith (s +:+ t) p = true.
Proof.
  revert s. induction p as [|b p IH]; intros s;
    [intros _; apply startsWith_nil|].
  destruct s as [|a s]; simpl; [done|].
  intros H. apply andb_true_iff in H as [-> H]. by apply IH.
Qed.

Lemma contains_app_l (s t sub : string) :
  QString.contains s sub = true → QString.contains (s +:+ t) sub = true.
Proof.
  induction s as [|a s IH].
  - simpl. rewrite orb_false_r. intros H.
    destruct sub; [by destruct t|done].
  - intros H. rewrite append_String. cbn [QString.contains] in H |- *.
    apply orb_true_iff in H as [H|H].
    + rewrite <- append_String. by rewrite (startsWith_app_l _ t _ H).
    + rewrite (IH H). apply orb_true_r.
Qed.

Lemma find_app_None (c : ascii) (a b : string) :
  QString.find c a = None → QString.find c b = None →
  QString.find c (a +:+ b) = None.
Proof. intros Ha Hb. by rewrite find_app, Ha, Hb. Qed.

Lemma pushText_no_newline (l : PushLine) :
  pushLine_ok l → QString.find NL (pushText l) = None.
Proof.
  destruct l as [report name|text]; simpl.
  - intros (_ & H1 & H2 & _). by repeat apply find_app_None.
  - by intros [_ ?].
Qed.

Lemma getLocalTags_loop_lines (ls : list PushLine) (tags : list string) :
  Forall pushLine_ok ls →
  getLocalTags_loop (pushText <$> ls) tags = tags ++ omap pushTag ls.
Proof.
  intros H. revert tags.
  induction H as [|l ls Hl _ IH]; intros tags; simpl;
    [by rewrite app_nil_r|].
  destruct l as [report name|text]; simpl in *.
  - destruct Hl as (Hc & Hr & Hn & Gr & Gn).
    rewrite (contains_app_l _ _ _ Hc).
    replace (String.eqb (report +:+ " -> " +:+ name) (String NL ""))
      with false.
    2: { symmetry. apply String.eqb_neq. intros E.
         assert (F : QString.find NL (report +:+ " -> " +:+ name) = None)
           by (by repeat apply find_app_None).
         by rewrite E in F. }
    replace (QString.isEmpty (report +:+ " -> " +:+ name)) with false
      by (by destruct report).
    simpl. rewrite splitStr_arrow by done. simpl.
    by rewrite IH, <- app_assoc.
  - destruct Hl as [Hc _]. rewrite Hc, andb_false_r. apply IH.
Qed.

(** X24. Tags that are not pushed.  When the dry-run push succeeds and its
    answer is made of reports of new tags, each with its name after the
    arrow, and of other lines, [getLocalTags] returns the names of the
    reports, in order; when the push fails it returns no tag.  It runs that
    one command. *)
Theorem getLocalTags_names (env : Outside) (h : list Action) (wd : string)
    (ls : list PushLine) :
  Forall pushLine_ok ls →
  let cmd := Run wd "git push --tags --dry-run" in
  (env h cmd = (true, joinRecords (pushText <$> ls)) →
   play env h (getLocalTags wd) = (Ok (omap pushTag ls), h ++ [cmd])) ∧
  (∀ out, env h cmd = (false, out) →
          play env h (getLocalTags wd) = (Ok [], h ++ [cmd])).
Proof.
  intros H cmd. split.
  - intros E. unfold getLocalTags. simpl. fold cmd. rewrite E. simpl.
    rewrite fields_joinRecords.
    2: { apply Forall_fmap. eapply Forall_impl; [exact H|].
         intros l. apply pushText_no_newline. }
    change [""] with (pushText <$> [OtherLine ""]).
    rewrite <- fmap_app, getLocalTags_loop_lines.
    + rewrite omap_app. simpl. by rewrite app_nil_r.
    + apply Forall_app. split; [done|]. by repeat constructor.
  - intros out E. unfold getLocalTags. simpl. fold cmd. by rewrite E.
Qed.

Lemma getLocalTags_names_witness :
  play pushOutside [] (getLocalTags "/repo")
  = (Ok ["v1.0"; "v1.1"], [Run "/repo" "git push --tags --dry-run"]).
Proof.
  destruct (getLocalTags_names pushOutside [] "/repo"
              [OtherLine "To example.org:repo.git";
               NewTag " * [new tag]         v1.0" "v1.0";
               NewTag " * [new tag]         v1.1" "v1.1"]) as [H _].
  - repeat constructor.
  - apply H. reflexivity.
Defined.
